(** * A shallow embedding of the Wordle solver [solve.py]

    The solver narrows a dictionary of fixed-length words down to the words
    that agree with the feedback received so far.  This development embeds
    the constraint store, the filter, the ranker and the solve loop of
    [solve.py] and proves the properties its specification states.

    Conventions of the embedding:
    - a Python [str] is a [list ascii]; [word[offset]] is list lookup, which
      fails with [IndexError] out of range;
    - a Python [int] is a [Z];
    - a [dict] is a [gmap]; reading a missing key raises [KeyError]; a
      [defaultdict] reads a missing key as its default value;
    - a [set] is a [gset]; a loop over a set or a dict is a [set_fold] or a
      [map_fold];
    - a function that can raise returns a [result]. *)

From Stdlib Require Import ZArith Ascii.
From stdpp Require Import base option list gmap sets strings.

Local Open Scope Z_scope.

#[local] Set Warnings "-clear-no-such-hyp".

(** ** Exceptions *)

Inductive exn : Type :=
  | SkipWordError
  | KeyError
  | IndexError
  | ValueError
  | EOFError
  | NoSuggestionsAccepted.

Inductive result (A : Type) : Type :=
  | Ok (a : A)
  | Raise (e : exn).

Arguments Ok {A} a.
Arguments Raise {A} e.

Global Instance result_ret : MRet result := @Ok.
Global Instance result_bind : MBind result := λ A B f r,
  match r with
  | Ok a => f a
  | Raise e => Raise e
  end.

Definition is_Ok {A} (r : result A) : Prop := ∃ a, r = Ok a.

(** [d[key]] on a plain [dict]. *)
Definition dict_get {V} (d : gmap ascii V) (key : ascii) : result V :=
  match d !! key with
  | Some v => Ok v
  | None => Raise KeyError
  end.

(** ** Feedback symbols *)

Inductive GuessState : Type :=
  | UNKNOWN
  | INCORRECT
  | MISPLACED
  | CORRECT.

Global Instance GuessState_eq_dec : EqDecision GuessState.
Proof. solve_decision. Defined.

(** [GuessState(c)]: the enum member whose value is the character [c]. *)
Definition GuessState_of_char (c : ascii) : result GuessState :=
  if decide (c = "_"%char) then Ok UNKNOWN
  else if decide (c = "x"%char) then Ok INCORRECT
  else if decide (c = "?"%char) then Ok MISPLACED
  else if decide (c = "+"%char) then Ok CORRECT
  else Raise ValueError.

(** ** Words and letter counting *)

Definition str (s : string) : list ascii :=
  Stdlib.Strings.String.list_ascii_of_string s.

Definition ascii_lowercase : list ascii := str "abcdefghijklmnopqrstuvwxyz".

Arguments ascii_lowercase : simpl never.

(** [Counter(word)[letter]]: a missing letter counts 0. *)
Fixpoint Counter (word : list ascii) (letter : ascii) : Z :=
  match word with
  | [] => 0
  | c :: rest => (if decide (c = letter) then 1 else 0) + Counter rest letter
  end.

(** The keys of [Counter(word)], in the order of first occurrence. *)
Fixpoint Counter_keys (word : list ascii) : list ascii :=
  match word with
  | [] => []
  | c :: rest => c :: filter (λ d, d ≠ c) (Counter_keys rest)
  end.

(** [Counter(word).items()]. *)
Definition Counter_items (word : list ascii) : list (ascii * Z) :=
  (λ letter, (letter, Counter word letter)) <$> Counter_keys word.

(** ** Letter statistics *)

(** The inner loop of [find_min_max_letter_repeats] for one word.  Both
    dicts are created with every letter of [ascii_lowercase] as a key and the
    loop visits those same letters, so the reads in it never fail. *)
Definition repeats_of_word (word : list ascii)
    (acc : gmap ascii Z * gmap ascii Z) : gmap ascii Z * gmap ascii Z :=
  foldl (λ '(min_repeats, max_repeats) letter,
           (alter (λ m, Z.min m (Counter word letter)) letter min_repeats,
            alter (λ m, Z.max m (Counter word letter)) letter max_repeats))
        acc ascii_lowercase.

Definition find_min_max_letter_repeats (words : gset (list ascii))
    : gmap ascii Z * gmap ascii Z :=
  set_fold repeats_of_word
    (list_to_map ((λ letter, (letter, 999)) <$> ascii_lowercase),
     list_to_map ((λ letter, (letter, 0)) <$> ascii_lowercase))
    words.

(** ** The solver state *)

Record WordleSolver : Type := mkSolver {
  word_len : nat;
  words : gset (list ascii);
  correct_letters : list (option ascii);
  (* a [defaultdict(set)]: a missing letter reads as the empty set *)
  misplaced_letters : gmap ascii (gset nat);
  (* letter -> [min, max] *)
  letter_counts : gmap ascii (Z * Z)
}.

(** [WordleSolver.__init__], with the dictionary that [read_dictionary]
    returns passed in. *)
Definition init (word_len : nat) (dictionary : gset (list ascii))
    : WordleSolver :=
  let '(min_repeats, max_repeats) := find_min_max_letter_repeats dictionary in
  {| word_len := word_len;
     words := dictionary;
     correct_letters := replicate word_len None;
     misplaced_letters := ∅;
     letter_counts :=
       list_to_map ((λ letter, (letter, (min_repeats !!! letter,
                                         max_repeats !!! letter)))
                    <$> ascii_lowercase) |}.

(** ** Feedback ingestion *)

(** [d[letter] += 1] on a [defaultdict(int)]. *)
Definition incr (letter : ascii) (d : gmap ascii Z) : gmap ascii Z :=
  <[letter := default 0 (d !! letter) + 1]> d.

(** [d[letter]] on a [defaultdict(set)], read only. *)
Definition offsets_of (d : gmap ascii (gset nat)) (letter : ascii)
    : gset nat :=
  default ∅ (d !! letter).

(** [d[letter].add(offset)] on a [defaultdict(set)]. *)
Definition add_offset (letter : ascii) (offset : nat)
    (d : gmap ascii (gset nat)) : gmap ascii (gset nat) :=
  <[letter := {[offset]} ∪ offsets_of d letter]> d.

(** [l[offset] = x] on a list. *)
Definition list_set {A} (l : list A) (offset : nat) (x : A)
    : result (list A) :=
  if decide (offset < length l)%nat then Ok (<[offset := x]> l)
  else Raise IndexError.

(** What the first loop of [process_feedback] threads through the
    positions: the two per-round counters and the two pieces of the store it
    writes. *)
Record scan : Type := mkScan {
  correct_letter_counts : gmap ascii Z;
  incorrect_letter_counts : gmap ascii Z;
  scan_misplaced : gmap ascii (gset nat);
  scan_correct : list (option ascii)
}.

Definition scan_step (offset : nat) (letter : ascii) (res : GuessState)
    (s : scan) : result scan :=
  let s1 :=
    if decide (res = INCORRECT) then
      mkScan (correct_letter_counts s)
             (incr letter (incorrect_letter_counts s))
             (add_offset letter offset (scan_misplaced s))
             (scan_correct s)
    else s in
  if decide (res = MISPLACED) then
    Ok (mkScan (incr letter (correct_letter_counts s1))
               (incorrect_letter_counts s1)
               (add_offset letter offset (scan_misplaced s1))
               (scan_correct s1))
  else if decide (res = CORRECT) then
    cl ← list_set (scan_correct s1) offset (Some letter);
    Ok (mkScan (incr letter (correct_letter_counts s1))
               (incorrect_letter_counts s1)
               (scan_misplaced s1)
               cl)
  else Ok s1.

(** The loop over [enumerate(zip(suggestion, feedback))]. *)
Fixpoint scan_feedback (offset : nat) (pairs : list (ascii * GuessState))
    (s : scan) : result scan :=
  match pairs with
  | [] => Ok s
  | (letter, res) :: rest =>
      s' ← scan_step offset letter res s;
      scan_feedback (S offset) rest s'
  end.

(** One pass of the loop that raises the minimum bounds. *)
Definition raise_min (letter : ascii) (count : Z)
    (acc : result (gmap ascii (Z * Z))) : result (gmap ascii (Z * Z)) :=
  lc ← acc;
  bounds ← dict_get lc letter;
  Ok (<[letter := (Z.max count bounds.1, bounds.2)]> lc).

(** One pass of the loop that lowers the maximum bounds. *)
Definition lower_max (suggestion : list ascii) (letter : ascii) (count : Z)
    (acc : result (gmap ascii (Z * Z))) : result (gmap ascii (Z * Z)) :=
  lc ← acc;
  let max_count := Counter suggestion letter - count in
  bounds ← dict_get lc letter;
  Ok (<[letter := (bounds.1, Z.min max_count bounds.2)]> lc).

Definition process_feedback (self : WordleSolver) (suggestion : list ascii)
    (feedback : list GuessState) : result WordleSolver :=
  s ← scan_feedback 0%nat (zip suggestion feedback)
        (mkScan ∅ ∅ (misplaced_letters self) (correct_letters self));
  lc1 ← map_fold raise_min (Ok (letter_counts self)) (correct_letter_counts s);
  lc2 ← map_fold (lower_max suggestion) (Ok lc1) (incorrect_letter_counts s);
  Ok {| word_len := word_len self;
        words := words self;
        correct_letters := scan_correct s;
        misplaced_letters := scan_misplaced s;
        letter_counts := lc2 |}.

(** ** Filtering *)

(** First test of [filter_words]: some set entry of [correct_letters]
    differs from the word.  [any] stops at the first such entry; [and] reads
    [word[offset]] only for a set entry. *)
Fixpoint any_correct_differs (word : list ascii) (offset : nat)
    (entries : list (option ascii)) : result bool :=
  match entries with
  | [] => Ok false
  | None :: rest => any_correct_differs word (S offset) rest
  | Some letter :: rest =>
      match word !! offset with
      | None => Raise IndexError
      | Some c =>
          if decide (letter ≠ c) then Ok true
          else any_correct_differs word (S offset) rest
      end
  end.

(** Second test: the word carries a letter at a position where that letter
    is forbidden. *)
Fixpoint any_misplaced (forbidden : gmap ascii (gset nat)) (offset : nat)
    (word : list ascii) : bool :=
  match word with
  | [] => false
  | letter :: rest =>
      if decide (offset ∈ offsets_of forbidden letter) then true
      else any_misplaced forbidden (S offset) rest
  end.

(** Third test: a letter of the word occurs a number of times outside its
    bounds.  [any] stops at the first such letter. *)
Fixpoint any_count_outside (lc : gmap ascii (Z * Z))
    (items : list (ascii * Z)) : result bool :=
  match items with
  | [] => Ok false
  | (letter, count) :: rest =>
      bounds ← dict_get lc letter;
      if decide (¬ (bounds.1 ≤ count ≤ bounds.2)) then Ok true
      else any_count_outside lc rest
  end.

(** Fourth test: some letter with bounds, present in the word or not, occurs
    a number of times outside them. *)
Definition any_bound_violated (lc : gmap ascii (Z * Z)) (word : list ascii)
    : bool :=
  bool_decide (map_Exists (λ letter bounds,
     ¬ (bounds.1 ≤ Counter word letter ≤ bounds.2)) lc).

(** The body of the loop of [filter_words] for one word: [Ok true] when the
    word reaches [new_words.add(word)]. *)
Definition keeps (self : WordleSolver) (word : list ascii) : result bool :=
  differs ← any_correct_differs word 0%nat (correct_letters self);
  if (differs : bool) then Ok false
  else if any_misplaced (misplaced_letters self) 0%nat word then Ok false
  else
    outside ← any_count_outside (letter_counts self) (Counter_items word);
    if (outside : bool) then Ok false
    else if any_bound_violated (letter_counts self) word then Ok false
    else Ok true.

Definition filter_step (self : WordleSolver) (word : list ascii)
    (acc : result (gset (list ascii))) : result (gset (list ascii)) :=
  new_words ← acc;
  keep ← keeps self word;
  Ok (if (keep : bool) then {[word]} ∪ new_words else new_words).

Definition filter_words (self : WordleSolver) : result WordleSolver :=
  new_words ← set_fold (filter_step self) (Ok ∅) (words self);
  Ok {| word_len := word_len self;
        words := new_words;
        correct_letters := correct_letters self;
        misplaced_letters := misplaced_letters self;
        letter_counts := letter_counts self |}.

(** ** Ranking *)

(** [words.pop()] removes and returns an arbitrary element.  A [chooser]
    stands for that choice: any function that returns a member of every
    non-empty set. *)
Record chooser : Type := mkChooser {
  pick : gset (list ascii) → option (list ascii);
  pick_elem : ∀ s w, pick s = Some w → w ∈ s;
  pick_empty : ∀ s, pick s = None → s = ∅
}.

Definition set_pop (ch : chooser) (s : gset (list ascii))
    : gset (list ascii) * result (list ascii) :=
  match pick ch s with
  | Some w => (s ∖ {[w]}, Ok w)
  | None => (s, Raise KeyError)
  end.

(** One such choice: the first element in the order of [elements]. *)
Definition first_chooser : chooser.
Proof.
  refine (mkChooser (λ s, head (elements s)) _ _).
  - intros s w H. apply elem_of_elements.
    destruct (elements s); simplify_eq/=. left.
  - intros s H. apply leibniz_equiv, elements_empty_inv.
    destruct (elements s); simplify_eq/=. done.
Defined.

(** [counts[position][letter] += 1] for every letter of one word. *)
Fixpoint count_word (position : nat) (word : list ascii)
    (counts : list (gmap ascii Z)) : result (list (gmap ascii Z)) :=
  match word with
  | [] => Ok counts
  | letter :: rest =>
      match counts !! position with
      | None => Raise IndexError
      | Some d =>
          count_word (S position) rest (<[position := incr letter d]> counts)
      end
  end.

(** The set argument is changed in place, so the function also returns the
    set as it is when the call ends, normally or not. *)
Definition letter_word_counts (ch : chooser) (words : gset (list ascii))
    : gset (list ascii) * result (list (gmap ascii Z)) :=
  match set_pop ch words with
  | (words1, Raise e) => (words1, Raise e)
  | (words1, Ok word) =>
      let counts := replicate (length word) (∅ : gmap ascii Z) in
      let words2 := {[word]} ∪ words1 in
      (words2,
       set_fold (λ word acc, counts ← acc; count_word 0%nat word counts)
                (Ok counts) words2)
  end.

(** [counts[position][letter]] summed over one word. *)
Fixpoint score_word (counts : list (gmap ascii Z)) (position : nat)
    (word : list ascii) : result Z :=
  match word with
  | [] => Ok 0
  | letter :: rest =>
      match counts !! position with
      | None => Raise IndexError
      | Some d =>
          total ← score_word counts (S position) rest;
          Ok (default 0 (d !! letter) + total)
      end
  end.

(** The order of Python on [str] and on [(int, str)] tuples. *)
Fixpoint str_ltb (a b : list ascii) : bool :=
  match a, b with
  | _, [] => false
  | [], _ :: _ => true
  | x :: a', y :: b' =>
      if decide (x = y) then str_ltb a' b'
      else (nat_of_ascii x <? nat_of_ascii y)%nat
  end.

Definition tuple_ltb (p q : Z * list ascii) : bool :=
  if decide (p.1 = q.1) then str_ltb p.2 q.2 else p.1 <? q.1.

(** [sorted(scores, reverse=True)], by insertion. *)
Fixpoint insert_desc (p : Z * list ascii) (l : list (Z * list ascii))
    : list (Z * list ascii) :=
  match l with
  | [] => [p]
  | q :: rest => if tuple_ltb p q then q :: insert_desc p rest else p :: l
  end.

Definition sorted_desc (l : list (Z * list ascii)) : list (Z * list ascii) :=
  foldr insert_desc [] l.

Definition find_suggestions (ch : chooser) (words : gset (list ascii))
    (num_suggestions : nat)
    : gset (list ascii) * result (list (Z * list ascii)) :=
  match letter_word_counts ch words with
  | (words', Raise e) => (words', Raise e)
  | (words', Ok counts) =>
      (words',
       scores ← set_fold (λ word acc,
                   scores ← acc;
                   sc ← score_word counts 0%nat word;
                   Ok (scores ++ [(sc, word)]))
                 (Ok []) words';
       Ok (take num_suggestions (sorted_desc scores)))
  end.

(** ** Reading feedback *)

(** [str.isspace] on the code points below 256. *)
Definition isspace (c : ascii) : bool :=
  let n := nat_of_ascii c in
  bool_decide (n ∈ [9; 10; 11; 12; 13; 28; 29; 30; 31; 32; 133; 160]%nat).

Fixpoint lstrip (s : list ascii) : list ascii :=
  match s with
  | [] => []
  | c :: rest => if isspace c then lstrip rest else s
  end.

Definition strip (s : list ascii) : list ascii :=
  reverse (lstrip (reverse (lstrip s))).

(** [[GuessState(i) for i in text_input]]. *)
Fixpoint parse_feedback (text_input : list ascii) : result (list GuessState) :=
  match text_input with
  | [] => Ok []
  | c :: rest =>
      g ← GuessState_of_char c;
      gs ← parse_feedback rest;
      Ok (g :: gs)
  end.

(** [input_guess], reading the lines of standard input from a list.  It
    returns the lines left unread. *)
Fixpoint input_guess (expect_len : option nat) (stdin : list (list ascii))
    : list (list ascii) * result (list GuessState) :=
  match stdin with
  | [] => ([], Raise EOFError)
  | line :: rest =>
      let text_input := strip line in
      if decide (text_input = []) then (rest, Raise SkipWordError)
      else
        match expect_len with
        | Some n =>
            if decide (length text_input ≠ n) then input_guess expect_len rest
            else (rest, parse_feedback text_input)
        | None => (rest, parse_feedback text_input)
        end
  end.

(** ** The solve loop *)

(** The [for suggestion in ...] loop of [run_until_solved]: the first
    suggestion for which [input_guess] returns, with what it returned, or
    [None] when every suggestion was skipped. *)
Fixpoint offer (word_len : nat) (suggestions : list (Z * list ascii))
    (stdin : list (list ascii))
    : list (list ascii) * result (option (list ascii * list GuessState)) :=
  match suggestions with
  | [] => (stdin, Ok None)
  | (_, suggestion) :: rest =>
      match input_guess (Some word_len) stdin with
      | (stdin', Ok feedback) => (stdin', Ok (Some (suggestion, feedback)))
      | (stdin', Raise SkipWordError) => offer word_len rest stdin'
      | (stdin', Raise e) => (stdin', Raise e)
      end
  end.

(** The dict comprehension that ends the loop body. *)
Definition retighten_step (min_repeats max_repeats : gmap ascii Z)
    (letter : ascii) (bounds : Z * Z) (acc : result (gmap ascii (Z * Z)))
    : result (gmap ascii (Z * Z)) :=
  lc ← acc;
  lo ← dict_get min_repeats letter;
  hi ← dict_get max_repeats letter;
  Ok (<[letter := (Z.max bounds.1 lo, Z.min bounds.2 hi)]> lc).

Definition retighten (self : WordleSolver) : result WordleSolver :=
  let '(min_repeats, max_repeats) :=
    find_min_max_letter_repeats (words self) in
  lc ← map_fold (retighten_step min_repeats max_repeats) (Ok ∅)
         (letter_counts self);
  Ok {| word_len := word_len self;
        words := words self;
        correct_letters := correct_letters self;
        misplaced_letters := misplaced_letters self;
        letter_counts := lc |}.

(** What the loop body does once a feedback is accepted. *)
Definition round (self : WordleSolver) (suggestion : list ascii)
    (feedback : list GuessState) : result WordleSolver :=
  st1 ← process_feedback self suggestion feedback;
  st2 ← filter_words st1;
  retighten st2.

Definition with_words (self : WordleSolver) (ws : gset (list ascii))
    : WordleSolver :=
  {| word_len := word_len self;
     words := ws;
     correct_letters := correct_letters self;
     misplaced_letters := misplaced_letters self;
     letter_counts := letter_counts self |}.

(** [run_until_solved].  The loop need not end (a feedback of [_] symbols
    changes nothing), so the embedding takes a bound on the number of
    iterations and returns [None] when the bound is reached. *)
Fixpoint run_until_solved (fuel : nat) (ch : chooser) (self : WordleSolver)
    (stdin : list (list ascii)) : option (result (option (list ascii))) :=
  match fuel with
  | O => None
  | S fuel' =>
      if decide (1 < size (words self))%nat then
        match find_suggestions ch (words self) 10 with
        | (_, Raise e) => Some (Raise e)
        | (ws, Ok suggestions) =>
            match offer (word_len self) suggestions stdin with
            | (_, Raise e) => Some (Raise e)
            | (_, Ok None) => Some (Raise NoSuggestionsAccepted)
            | (stdin', Ok (Some (suggestion, feedback))) =>
                match round (with_words self ws) suggestion feedback with
                | Raise e => Some (Raise e)
                | Ok self' => run_until_solved fuel' ch self' stdin'
                end
            end
        end
      else if decide (size (words self) = 1)%nat then
        match set_pop ch (words self) with
        | (_, Ok w) => Some (Ok (Some w))
        | (_, Raise e) => Some (Raise e)
        end
      else Some (Ok None)
  end.

(** ** The judge

    The solver never computes feedback: it reads it.  For the soundness
    property the feedback is the one the puzzle gives for a guess against
    the answer: a letter in its place is [CORRECT]; the other letters of the
    guess are taken from left to right, and each is [MISPLACED] while the
    answer still has an occurrence of it that no [CORRECT] or earlier
    [MISPLACED] letter accounts for, and [INCORRECT] after that. *)

(** The letters of the answer that the guess does not have in place. *)
Fixpoint unmatched (answer guess : list ascii) : list ascii :=
  match answer, guess with
  | a :: answer', g :: guess' =>
      if decide (a = g) then unmatched answer' guess'
      else a :: unmatched answer' guess'
  | _, _ => answer
  end.

(** Remove one occurrence of a letter. *)
Fixpoint remove_one (letter : ascii) (pool : list ascii) : list ascii :=
  match pool with
  | [] => []
  | c :: rest => if decide (c = letter) then rest else c :: remove_one letter rest
  end.

Fixpoint judge_from (pool : list ascii) (answer guess : list ascii)
    : list GuessState :=
  match answer, guess with
  | a :: answer', g :: guess' =>
      if decide (g = a) then CORRECT :: judge_from pool answer' guess'
      else if decide (g ∈ pool) then
        MISPLACED :: judge_from (remove_one g pool) answer' guess'
      else INCORRECT :: judge_from pool answer' guess'
  | _, _ => []
  end.

Definition judge (answer guess : list ascii) : list GuessState :=
  judge_from (unmatched answer guess) answer guess.

(** Rounds of the loop body with the judge's feedback for each guess. *)
Fixpoint play (answer : list ascii) (guesses : list (list ascii))
    (self : WordleSolver) : result WordleSolver :=
  match guesses with
  | [] => Ok self
  | guess :: rest =>
      self' ← round self guess (judge answer guess);
      play answer rest self'
  end.

(** * Specification-side definitions *)

(** ** What [filter_words] keeps *)

(** The four conditions of the filter, as the specification words them. *)

Definition agrees_with_correct (entries : list (option ascii))
    (W : list ascii) : Prop :=
  ∀ i letter, entries !! i = Some (Some letter) → W !! i = Some letter.

Definition avoids_forbidden (forbidden : gmap ascii (gset nat))
    (W : list ascii) : Prop :=
  ∀ i letter, W !! i = Some letter → i ∉ offsets_of forbidden letter.

Definition own_letters_in_bounds (lc : gmap ascii (Z * Z))
    (W : list ascii) : Prop :=
  ∀ letter, letter ∈ W →
    ∃ lo hi, lc !! letter = Some (lo, hi) ∧ lo ≤ Counter W letter ≤ hi.

Definition all_letters_in_bounds (lc : gmap ascii (Z * Z))
    (W : list ascii) : Prop :=
  ∀ letter lo hi, lc !! letter = Some (lo, hi) →
    lo ≤ Counter W letter ≤ hi.

(** Condition (4) read over the alphabet: every letter of
    [ascii_lowercase], in the word or not, has bounds that its count in the
    word meets. *)
Definition alphabet_in_bounds (lc : gmap ascii (Z * Z))
    (W : list ascii) : Prop :=
  ∀ letter, letter ∈ ascii_lowercase →
    ∃ lo hi, lc !! letter = Some (lo, hi) ∧ lo ≤ Counter W letter ≤ hi.

(** The keys of [letter_counts] are the letters of the alphabet: so
    [__init__] creates it, and so it stays. *)
Definition alphabet_keys (lc : gmap ascii (Z * Z)) : Prop :=
  dom lc = list_to_set ascii_lowercase.

Definition retained (self : WordleSolver) (W : list ascii) : Prop :=
  agrees_with_correct (correct_letters self) W ∧
  avoids_forbidden (misplaced_letters self) W ∧
  own_letters_in_bounds (letter_counts self) W ∧
  all_letters_in_bounds (letter_counts self) W.

(** The caller's side of [filter_words]: every word is at least as long as
    [correct_letters] and made of letters that have bounds. *)
Definition filter_ready (self : WordleSolver) : Prop :=
  set_Forall (λ W,
    (length (correct_letters self) ≤ length W)%nat ∧
    Forall (λ letter, is_Some (letter_counts self !! letter)) W)
  (words self).

(** ** What a round of feedback says about a letter *)

(** The per-round counters, counted directly on the guess and its feedback:
    the correct-ish count of a letter is the number of positions where the
    guess has the letter and the feedback is [MISPLACED] or [CORRECT]; the
    incorrect count is the number of positions where the guess has the
    letter and the feedback is [INCORRECT]. *)
Definition count_pairs (sel : GuessState → bool) (letter : ascii)
    (pairs : list (ascii * GuessState)) : Z :=
  Z.of_nat (length (filter (λ p, p.1 = letter ∧ sel p.2 = true) pairs)).

Definition is_correctish (res : GuessState) : bool :=
  match res with
  | MISPLACED | CORRECT => true
  | _ => false
  end.

Definition is_incorrect (res : GuessState) : bool :=
  match res with
  | INCORRECT => true
  | _ => false
  end.

Definition correctish_count (guess : list ascii) (feedback : list GuessState)
    (letter : ascii) : Z :=
  count_pairs is_correctish letter (zip guess feedback).

Definition incorrect_count (guess : list ascii) (feedback : list GuessState)
    (letter : ascii) : Z :=
  count_pairs is_incorrect letter (zip guess feedback).

(** How many times the letter appears in the guess. *)
Definition guess_occurrences (guess : list ascii) (letter : ascii) : Z :=
  Z.of_nat (length (filter (λ c, c = letter) guess)).

(** The value a per-round counter holds for a letter once the scan has added
    [n] to it. *)
Definition counter_plus (before : option Z) (n : Z) : option Z :=
  if decide (n = 0) then before else Some (default 0 before + n).

(** The bounds of a letter after a round, from its bounds before. *)
Definition bounds_after (guess : list ascii) (feedback : list GuessState)
    (letter : ascii) (bounds : Z * Z) : Z * Z :=
  let C := correctish_count guess feedback letter in
  let K := incorrect_count guess feedback letter in
  (if decide (C = 0) then bounds.1 else Z.max bounds.1 C,
   if decide (K = 0) then bounds.2
   else Z.min bounds.2 (guess_occurrences guess letter - K)).

(** The caller's side of [process_feedback]: the guess is not longer than
    [correct_letters] and is made of letters that have bounds. *)
Definition feedback_ready (self : WordleSolver) (guess : list ascii) : Prop :=
  (length guess ≤ length (correct_letters self))%nat ∧
  Forall (λ letter, is_Some (letter_counts self !! letter)) guess.

(** The bounds [lc'] are at least as tight as the bounds [lc]. *)
Definition tightened (lc lc' : gmap ascii (Z * Z)) : Prop :=
  ∀ letter lo hi, lc !! letter = Some (lo, hi) →
    ∃ lo' hi', lc' !! letter = Some (lo', hi') ∧ lo ≤ lo' ∧ hi' ≤ hi.

(** ** Letter statistics *)

(** The statistics while they are computed: both dicts keep their keys, a
    minimum can only fall and a maximum only rise, and the letters visited
    get the count of the word between the two. *)
Definition stats_le (word : list ascii) (visited : list ascii)
    (before after : gmap ascii Z * gmap ascii Z) : Prop :=
  ∀ l,
    match before.1 !! l, after.1 !! l with
    | Some a, Some b => b ≤ a ∧ (l ∈ visited → b ≤ Counter word l)
    | None, None => True
    | _, _ => False
    end ∧
    match before.2 !! l, after.2 !! l with
    | Some a, Some b => a ≤ b ∧ (l ∈ visited → Counter word l ≤ b)
    | None, None => True
    | _, _ => False
    end.


(** ** Sequences of calls *)

(** Calls of [process_feedback] one after the other, on any guesses and
    feedbacks. *)
Fixpoint feed (self : WordleSolver)
    (rounds : list (list ascii * list GuessState)) : result WordleSolver :=
  match rounds with
  | [] => Ok self
  | (guess, feedback) :: rest =>
      self' ← process_feedback self guess feedback;
      feed self' rest
  end.

(** Iterations of the solve loop: each guess is a member of the candidate
    set, as every suggestion is; the feedback is whatever was typed. *)
Inductive loop_rounds : WordleSolver → WordleSolver → Prop :=
  | loop_rounds_refl self : loop_rounds self self
  | loop_rounds_step self guess feedback self1 self2 :
      guess ∈ words self →
      round self guess feedback = Ok self1 →
      loop_rounds self1 self2 →
      loop_rounds self self2.

(** The states at the head of the loop: the one [__init__] makes and the
    ones an iteration leaves. *)
Definition loop_state (self : WordleSolver) : Prop :=
  (∃ n dictionary, self = init n dictionary) ∨
  (∃ self0 guess feedback, round self0 guess feedback = Ok self).

(** ** The feedback provider *)

(** The provider declines every suggestion offered in a round: each call of
    [input_guess], one per suggestion, ends in [SkipWordError]. *)
Fixpoint declines_all (word_len : nat) (suggestions : list (Z * list ascii))
    (stdin : list (list ascii)) : Prop :=
  match suggestions with
  | [] => True
  | _ :: rest =>
      match input_guess (Some word_len) stdin with
      | (stdin', Raise SkipWordError) => declines_all word_len rest stdin'
      | _ => False
      end
  end.

(** ** The answer and the store *)

(** The answer meets everything the store says. *)
Definition answer_fits (answer : list ascii) (self : WordleSolver) : Prop :=
  agrees_with_correct (correct_letters self) answer ∧
  avoids_forbidden (misplaced_letters self) answer ∧
  all_letters_in_bounds (letter_counts self) answer.

(** A word of the data model: lowercase letters only. *)
Definition lowercase (W : list ascii) : Prop :=
  Forall (λ c, c ∈ ascii_lowercase) W.

(** The occurrences of a letter in the guess that are in place in the
    answer, and those that are not. *)
Fixpoint in_place (letter : ascii) (answer guess : list ascii) : Z :=
  match answer, guess with
  | a :: answer', g :: guess' =>
      (if decide (g = a ∧ g = letter) then 1 else 0)
      + in_place letter answer' guess'
  | _, _ => 0
  end.

Fixpoint out_of_place (letter : ascii) (answer guess : list ascii) : Z :=
  match answer, guess with
  | a :: answer', g :: guess' =>
      (if decide (g ≠ a ∧ g = letter) then 1 else 0)
      + out_of_place letter answer' guess'
  | _, _ => 0
  end.

(** The state of a solver whose calls cannot raise: [correct_letters] has
    the length of the words, the bounds are keyed by the alphabet, and the
    candidates are lowercase words of that length. *)
Definition sound_state (n : nat) (self : WordleSolver) : Prop :=
  length (correct_letters self) = n ∧
  alphabet_keys (letter_counts self) ∧
  set_Forall (λ W, length W = n ∧ lowercase W) (words self).

(** ** The order of iteration *)

(** Two runs end alike: with the same value, or both with an exception. *)
Definition same_outcome {A} (r1 r2 : result A) : Prop :=
  match r1, r2 with
  | Ok a1, Ok a2 => a1 = a2
  | Raise _, Raise _ => True
  | _, _ => False
  end.

(** * Example states *)

(** A state to run the filter on: the solver for the dictionary
    [crane], [slate], [trace] after the guess [crane] was answered
    [xx?x+]. *)
Definition three_words : gset (list ascii) :=
  {[str "crane"; str "slate"; str "trace"]}.

Definition after_crane : WordleSolver :=
  match process_feedback (init 5 three_words) (str "crane")
          [INCORRECT; INCORRECT; MISPLACED; INCORRECT; CORRECT] with
  | Ok self => self
  | Raise _ => init 5 three_words
  end.

(** The same dictionary after the guess [slate] was answered [xx+?+], the
    feedback for the answer [trace]. *)
Definition after_slate : WordleSolver :=
  match process_feedback (init 5 three_words) (str "slate")
          [INCORRECT; INCORRECT; CORRECT; MISPLACED; CORRECT] with
  | Ok self => self
  | Raise _ => init 5 three_words
  end.

Definition after_slate_filtered : WordleSolver :=
  match filter_words after_slate with
  | Ok self => self
  | Raise _ => after_slate
  end.


Definition ab_cb : gset (list ascii) := {[str "ab"; str "cb"]}.

Definition eel_dog : gset (list ascii) := {[str "eel"; str "dog"]}.

(** [or_else r d]: the value of a run that returns, [d] otherwise. *)
Definition or_else {A} (r : result A) (d : A) : A :=
  match r with
  | Ok a => a
  | Raise _ => d
  end.

Definition ab_marked : WordleSolver :=
  or_else (process_feedback (init 2 ab_cb) (str "ab") [CORRECT; INCORRECT])
          (init 2 ab_cb).

Definition cb_marked : WordleSolver :=
  or_else (process_feedback ab_marked (str "cb") [CORRECT; INCORRECT])
          ab_marked.

Definition eel_absent : WordleSolver :=
  or_else (process_feedback (init 3 eel_dog) (str "eel")
             [INCORRECT; INCORRECT; INCORRECT])
          (init 3 eel_dog).

Definition eel_again : WordleSolver :=
  or_else (process_feedback eel_absent (str "eel")
             [CORRECT; INCORRECT; INCORRECT])
          eel_absent.

Definition eel_first : WordleSolver :=
  or_else (process_feedback (init 3 eel_dog) (str "eel")
             [CORRECT; INCORRECT; UNKNOWN])
          (init 3 eel_dog).

Definition after_slate_round : WordleSolver :=
  or_else (round (init 5 three_words) (str "slate")
             [INCORRECT; INCORRECT; CORRECT; MISPLACED; CORRECT])
          (init 5 three_words).

Definition after_trace_round : WordleSolver :=
  or_else (round after_slate_round (str "trace")
             [MISPLACED; INCORRECT; CORRECT; UNKNOWN; CORRECT])
          after_slate_round.

Definition three_suggestions : list (Z * list ascii) :=
  or_else (find_suggestions first_chooser three_words 10).2 [].

Definition trace_played : WordleSolver :=
  or_else (play (str "trace") [str "slate"; str "crane"] (init 5 three_words))
          (init 5 three_words).

Definition after_crane_round : WordleSolver :=
  or_else (round (init 5 three_words) (str "crane")
             [INCORRECT; INCORRECT; MISPLACED; INCORRECT; CORRECT])
          (init 5 three_words).
(** * Further definitions *)

(** ** Feedback as text *)

(** The value of an enum member: the character that stands for it. *)
Definition GuessState_value (g : GuessState) : ascii :=
  match g with
  | UNKNOWN => "_"%char
  | INCORRECT => "x"%char
  | MISPLACED => "?"%char
  | CORRECT => "+"%char
  end.

(** A feedback as the line that [input_guess] reads it from. *)
Definition render (feedback : list GuessState) : list ascii :=
  GuessState_value <$> feedback.

(** A line that [input_guess] passes over and asks again: not blank, and
    not of the expected length. *)
Definition reprompted (expect_len : option nat) (line : list ascii) : Prop :=
  strip line ≠ [] ∧ ∃ n, expect_len = Some n ∧ length (strip line) ≠ n.

(** ** What the ranker counts *)

(** The number of words of the set that have the letter at the position. *)
Definition sharing (ws : gset (list ascii)) (position : nat)
    (letter : ascii) : Z :=
  Z.of_nat (size (filter (λ W, W !! position = Some letter) ws)).

(** The score of a word in a set: over its positions, from [position] on,
    the number of words of the set that share its letter there. *)
Fixpoint score_from (ws : gset (list ascii)) (position : nat)
    (word : list ascii) : Z :=
  match word with
  | [] => 0
  | letter :: rest =>
      sharing ws position letter + score_from ws (S position) rest
  end.

(** [counts[position][letter]], read without inserting: 0 where nothing
    was counted. *)
Definition cell (counts : list (gmap ascii Z)) (position : nat)
    (letter : ascii) : Z :=
  default 0 (counts !! position ≫= λ d, d !! letter).

(** A list of scored words in strictly descending order. *)
Definition descending (l : list (Z * list ascii)) : Prop :=
  ∀ i j p q, (i < j)%nat → l !! i = Some p → l !! j = Some q →
    tuple_ltb q p = true.

(** Strictly descending, by induction on the list. *)
Inductive desc_sorted : list (Z * list ascii) → Prop :=
  | desc_sorted_nil : desc_sorted []
  | desc_sorted_cons p l :
      Forall (λ q, tuple_ltb q p = true) l → desc_sorted l →
      desc_sorted (p :: l).

(** ** The provider *)

(** The exceptions that the input can cause in the solve loop. *)
Definition input_error (e : exn) : Prop :=
  e = NoSuggestionsAccepted ∨ e = EOFError ∨ e = ValueError.

(** An honest provider: as long as more than one candidate is left, it
    declines some of the suggestions with blank lines and answers the next
    one with the feedback the puzzle gives for it against the answer. *)
Inductive honest_input (ch : chooser) (answer : list ascii)
    : WordleSolver → list (list ascii) → Prop :=
  | honest_input_done self stdin :
      (size (words self) ≤ 1)%nat →
      honest_input ch answer self stdin
  | honest_input_round self suggestions blanks sc guess rest self' :
      (1 < size (words self))%nat →
      (find_suggestions ch (words self) 10).2 = Ok suggestions →
      Forall (λ line, strip line = []) blanks →
      suggestions !! length blanks = Some (sc, guess) →
      round self guess (judge answer guess) = Ok self' →
      honest_input ch answer self' rest →
      honest_input ch answer self
        (blanks ++ render (judge answer guess) :: rest).

(** ** More example states *)



(** ** Candidates and the judge *)

(** The guesses do not tell the word from the answer: for each of them the
    puzzle gives the same feedback, whichever of the two is the answer. *)
Definition indistinguishable (answer : list ascii)
    (guesses : list (list ascii)) (W : list ascii) : Prop :=
  Forall (λ guess, judge W guess = judge answer guess) guesses.

(** Every candidate meets everything the store says. *)
Definition candidates_fit (self : WordleSolver) : Prop :=
  set_Forall (λ W, answer_fits W self) (words self).

(** The solver for [crane], [slate], [trace] after the guess [crane] was
    answered with the judge's feedback for the answer [slate]. *)
Definition slate_found : WordleSolver :=
  or_else (round (init 5 three_words) (str "crane")
             (judge (str "slate") (str "crane")))
          (init 5 three_words).
(** * Properties *)

(** ** The error monad *)

Lemma bind_Ok {A B} (r : result A) (f : A → result B) (b : B) :
  r ≫= f = Ok b ↔ ∃ a, r = Ok a ∧ f a = Ok b.
Proof.
  destruct r as [a|e]; simpl; split.
  - eauto.
  - by intros (a' & [= ->] & ?).
  - done.
  - by intros (? & ? & ?).
Qed.

Lemma is_Ok_Ok {A} (a : A) : is_Ok (Ok a).
Proof. by exists a. Qed.

Lemma not_is_Ok_Raise {A} (e : exn) : ¬ is_Ok (@Raise A e).
Proof. by intros [? ?]. Qed.

Lemma dict_get_Ok {V} (d : gmap ascii V) key v :
  dict_get d key = Ok v ↔ d !! key = Some v.
Proof. unfold dict_get. destruct (d !! key); naive_solver. Qed.

Ltac inv_bind H :=
  repeat match type of H with
  | _ ≫= _ = Ok _ =>
      let a := fresh "a" in
      let Ha := fresh "Ha" in
      apply bind_Ok in H as (a & Ha & H)
  end.

(** ** Counting letters *)

Lemma Counter_nonneg word letter : 0 ≤ Counter word letter.
Proof. induction word as [|c rest IH]; simpl; [done|]. case_decide; lia. Qed.

Lemma Counter_pos word letter : letter ∈ word ↔ 0 < Counter word letter.
Proof.
  induction word as [|c rest IH]; simpl.
  - rewrite elem_of_nil. lia.
  - rewrite elem_of_cons, IH. pose proof (Counter_nonneg rest letter).
    case_decide; naive_solver lia.
Qed.

Lemma Counter_app w1 w2 letter :
  Counter (w1 ++ w2) letter = Counter w1 letter + Counter w2 letter.
Proof. induction w1 as [|c rest IH]; simpl; [done|]. rewrite IH. lia. Qed.

Lemma elem_of_Counter_keys word letter :
  letter ∈ Counter_keys word ↔ letter ∈ word.
Proof.
  induction word as [|c rest IH]; simpl; [done|].
  rewrite !elem_of_cons, list_elem_of_filter, IH.
  destruct (decide (letter = c)); naive_solver.
Qed.

Lemma elem_of_Counter_items word letter count :
  (letter, count) ∈ Counter_items word ↔
  letter ∈ word ∧ count = Counter word letter.
Proof.
  unfold Counter_items. rewrite list_elem_of_fmap. split.
  - intros (l & ? & Hl). simplify_eq. split; [by apply elem_of_Counter_keys|done].
  - intros [Hl ->]. exists letter. by rewrite elem_of_Counter_keys.
Qed.

(** ** What [filter_words] keeps *)

Lemma any_correct_differs_Ok word offset entries b :
  any_correct_differs word offset entries = Ok b →
  b = false ↔
  ∀ i letter, entries !! i = Some (Some letter) →
    word !! (offset + i)%nat = Some letter.
Proof.
  revert offset. induction entries as [|[l|] rest IH]; intros offset H; simpl in H.
  - simplify_eq. split; [|done]. intros _ i letter. by rewrite lookup_nil.
  - destruct (word !! offset) as [c|] eqn:Hc; [|done].
    case_decide as Hne.
    + simplify_eq. split; [done|]. intros Hall.
      specialize (Hall 0%nat l eq_refl). rewrite Nat.add_0_r in Hall. congruence.
    + subst c. rewrite (IH _ H). split.
      * intros Hall [|i] letter Hi; simplify_eq/=.
        -- by rewrite Nat.add_0_r.
        -- rewrite <- Nat.add_succ_comm. by apply Hall.
      * intros Hall i letter Hi. rewrite Nat.add_succ_comm. by apply Hall.
  - rewrite (IH _ H). split.
    + intros Hall [|i] letter Hi; simplify_eq/=.
      rewrite <- Nat.add_succ_comm. by apply Hall.
    + intros Hall i letter Hi. rewrite Nat.add_succ_comm. by apply Hall.
Qed.

Lemma any_misplaced_false forbidden offset word :
  any_misplaced forbidden offset word = false ↔
  ∀ i letter, word !! i = Some letter →
    (offset + i)%nat ∉ offsets_of forbidden letter.
Proof.
  revert offset. induction word as [|c rest IH]; intros offset; simpl.
  - split; [|done]. intros _ i letter. by rewrite lookup_nil.
  - case_decide as Hin.
    + split; [done|]. intros Hall. destruct (Hall 0%nat c eq_refl).
      by rewrite Nat.add_0_r.
    + rewrite IH. split.
      * intros Hall [|i] letter Hi; simplify_eq/=.
        -- by rewrite Nat.add_0_r.
        -- rewrite <- Nat.add_succ_comm. by apply Hall.
      * intros Hall i letter Hi. rewrite Nat.add_succ_comm. by apply Hall.
Qed.

Lemma any_count_outside_Ok lc items b :
  any_count_outside lc items = Ok b →
  b = false ↔
  ∀ letter count, (letter, count) ∈ items →
    ∃ lo hi, lc !! letter = Some (lo, hi) ∧ lo ≤ count ≤ hi.
Proof.
  induction items as [|[l c] rest IH]; intros H; simpl in H.
  - simplify_eq. split; [|done]. intros _ ??. by rewrite elem_of_nil.
  - inv_bind H. apply dict_get_Ok in Ha. destruct a as [lo hi]; simpl in *.
    case_decide as Hout.
    + simplify_eq. split; [done|]. intros Hall.
      destruct (Hall l c) as (lo' & hi' & ? & ?); [left|]. simplify_eq. lia.
    + rewrite (IH H). split.
      * intros Hall letter count [[= -> ->]|?]%elem_of_cons; eauto.
      * intros Hall letter count ?. apply Hall. by right.
Qed.

Lemma any_bound_violated_false lc word :
  any_bound_violated lc word = false ↔ all_letters_in_bounds lc word.
Proof.
  unfold any_bound_violated, all_letters_in_bounds.
  rewrite bool_decide_eq_false, map_Exists_lookup. split.
  - intros Hno letter lo hi Hl. apply dec_stable. intros Hout.
    apply Hno. by exists letter, (lo, hi).
  - intros Hall (letter & [lo hi] & Hl & Hout). apply Hout. by eapply Hall.
Qed.

Lemma any_correct_differs_agrees word entries b :
  any_correct_differs word 0 entries = Ok b →
  b = false ↔ agrees_with_correct entries word.
Proof. intros H. apply any_correct_differs_Ok in H. exact H. Qed.

Lemma any_misplaced_avoids forbidden word :
  any_misplaced forbidden 0 word = false ↔ avoids_forbidden forbidden word.
Proof. exact (any_misplaced_false forbidden 0 word). Qed.

Lemma any_count_outside_own lc word b :
  any_count_outside lc (Counter_items word) = Ok b →
  b = false ↔ own_letters_in_bounds lc word.
Proof.
  intros H. rewrite (any_count_outside_Ok _ _ _ H).
  unfold own_letters_in_bounds. split.
  - intros Hall letter Hl. apply Hall. by apply elem_of_Counter_items.
  - intros Hall letter count [Hl ->]%elem_of_Counter_items. by apply Hall.
Qed.

Lemma keeps_Ok self W b :
  keeps self W = Ok b → b = true ↔ retained self W.
Proof.
  unfold keeps, retained. intros H. inv_bind H.
  apply any_correct_differs_agrees in Ha.
  destruct a; [simplify_eq; naive_solver|].
  destruct (any_misplaced _ _ W) eqn:Hm.
  { simplify_eq. split; [done|]. intros (_ & Hav & _).
    apply any_misplaced_avoids in Hav. congruence. }
  apply any_misplaced_avoids in Hm.
  inv_bind H. apply any_count_outside_own in Ha0.
  destruct a; [simplify_eq; naive_solver|].
  destruct (any_bound_violated _ W) eqn:Hv.
  { simplify_eq. split; [done|]. intros (_ & _ & _ & Hall).
    apply any_bound_violated_false in Hall. congruence. }
  apply any_bound_violated_false in Hv. simplify_eq. naive_solver.
Qed.

(** What the loop of [filter_words] has computed once it has visited the
    words of [X]. *)
Lemma filter_loop_spec (self : WordleSolver) (X : gset (list ascii)) :
  match set_fold (filter_step self) (Ok ∅) X with
  | Ok new_words =>
      (∀ W, W ∈ X → is_Ok (keeps self W)) ∧
      (∀ W, W ∈ new_words ↔ W ∈ X ∧ keeps self W = Ok true)
  | Raise _ => ∃ W, W ∈ X ∧ ¬ is_Ok (keeps self W)
  end.
Proof.
  apply (set_fold_ind_L (λ r (X : gset (list ascii)),
    match r with
    | Ok new_words =>
        (∀ W, W ∈ X → is_Ok (keeps self W)) ∧
        (∀ W, W ∈ new_words ↔ W ∈ X ∧ keeps self W = Ok true)
    | Raise _ => ∃ W, W ∈ X ∧ ¬ is_Ok (keeps self W)
    end)); clear X.
  - split; set_solver.
  - intros x X [new|e] Hx; unfold filter_step; simpl.
    + intros [Htot Hnew]. destruct (keeps self x) as [k|e] eqn:Hk; simpl.
      * split.
        -- intros W [->%elem_of_singleton|?]%elem_of_union; [|by auto].
           rewrite Hk. apply is_Ok_Ok.
        -- intros W. destruct k.
           ++ rewrite !elem_of_union, elem_of_singleton, Hnew.
              clear -Hk. intuition congruence.
           ++ rewrite elem_of_union, elem_of_singleton, Hnew.
              clear -Hk. intuition congruence.
      * exists x. split; [set_solver|]. rewrite Hk. apply not_is_Ok_Raise.
    + intros (W & ? & ?). exists W. split; [set_solver|done].
Qed.

Lemma filter_words_Ok self self' :
  filter_words self = Ok self' →
  word_len self' = word_len self ∧
  correct_letters self' = correct_letters self ∧
  misplaced_letters self' = misplaced_letters self ∧
  letter_counts self' = letter_counts self ∧
  (∀ W, W ∈ words self → is_Ok (keeps self W)) ∧
  (∀ W, W ∈ words self' ↔ W ∈ words self ∧ retained self W).
Proof.
  unfold filter_words. intros H. inv_bind H. simplify_eq. simpl.
  pose proof (filter_loop_spec self (words self)) as Hloop.
  rewrite Ha in Hloop. destruct Hloop as [Htot Hnew].
  split_and!; try done.
  intros W. rewrite Hnew. split.
  - intros [HW Hk]. split; [done|]. by apply (keeps_Ok _ _ _ Hk).
  - intros [HW Hret]. split; [done|]. destruct (Htot W HW) as [b Hb].
    rewrite Hb. f_equal. by apply (keeps_Ok _ _ _ Hb).
Qed.

Lemma any_correct_differs_total word offset entries :
  (offset + length entries ≤ length word)%nat →
  is_Ok (any_correct_differs word offset entries).
Proof.
  revert offset. induction entries as [|[l|] rest IH]; intros offset Hlen;
    simpl in *.
  - apply is_Ok_Ok.
  - destruct (lookup_lt_is_Some_2 word offset) as [c ->]; [lia|].
    case_decide; [apply is_Ok_Ok|]. apply IH. lia.
  - apply IH. lia.
Qed.

Lemma any_count_outside_total lc items :
  (∀ letter count, (letter, count) ∈ items → is_Some (lc !! letter)) →
  is_Ok (any_count_outside lc items).
Proof.
  induction items as [|[l c] rest IH]; intros Hkeys; simpl.
  - apply is_Ok_Ok.
  - destruct (Hkeys l c) as [bounds Hb]; [left|].
    unfold dict_get. rewrite Hb. simpl.
    case_decide; [apply is_Ok_Ok|]. apply IH. intros ???. eapply Hkeys. by right.
Qed.

Lemma keeps_total self W :
  (length (correct_letters self) ≤ length W)%nat →
  (∀ letter, letter ∈ W → is_Some (letter_counts self !! letter)) →
  is_Ok (keeps self W).
Proof.
  intros Hlen Hkeys. unfold keeps.
  destruct (any_correct_differs_total W 0 (correct_letters self)) as [d ->];
    [simpl; lia|]. simpl.
  destruct d; [apply is_Ok_Ok|].
  destruct (any_misplaced _ _ _); [apply is_Ok_Ok|].
  destruct (any_count_outside_total (letter_counts self) (Counter_items W))
    as [o ->].
  { intros letter count [? _]%elem_of_Counter_items. auto. }
  simpl. destruct o; [apply is_Ok_Ok|].
  destruct (any_bound_violated _ _); apply is_Ok_Ok.
Qed.

Lemma filter_words_total self :
  filter_ready self → is_Ok (filter_words self).
Proof.
  intros Hready. unfold filter_words.
  pose proof (filter_loop_spec self (words self)) as Hloop.
  destruct (set_fold _ _ _) as [new|e]; simpl; [apply is_Ok_Ok|].
  destruct Hloop as (W & HW & Hno). destruct Hno.
  destruct (Hready W HW) as [? Hall]. apply keeps_total; [done|].
  by apply Forall_forall.
Qed.

Lemma all_letters_in_bounds_alphabet lc W :
  alphabet_keys lc →
  all_letters_in_bounds lc W ↔ alphabet_in_bounds lc W.
Proof.
  unfold alphabet_keys, all_letters_in_bounds, alphabet_in_bounds.
  intros Hdom. split.
  - intros Hall letter Hl.
    assert (is_Some (lc !! letter)) as [[lo hi] Hb].
    { apply elem_of_dom. rewrite Hdom. by apply elem_of_list_to_set. }
    exists lo, hi. split; [done|]. by eapply Hall.
  - intros Hall letter lo hi Hb.
    destruct (Hall letter) as (lo' & hi' & Hb' & ?).
    { apply (elem_of_list_to_set (C := gset ascii)). rewrite <- Hdom.
      apply elem_of_dom. by eexists. }
    by simplify_eq.
Qed.

Lemma keeps_same_store self1 self2 W :
  correct_letters self1 = correct_letters self2 →
  misplaced_letters self1 = misplaced_letters self2 →
  letter_counts self1 = letter_counts self2 →
  keeps self1 W = keeps self2 W.
Proof. unfold keeps. by intros -> -> ->. Qed.

Lemma filter_words_again self self' :
  filter_words self = Ok self' → filter_words self' = Ok self'.
Proof.
  intros H. destruct (filter_words_Ok _ _ H) as (Hwl & Hcl & Hml & Hlc & Htot & Hw).
  assert (∀ W, keeps self' W = keeps self W) as Hsame.
  { intros W. by apply keeps_same_store. }
  unfold filter_words.
  pose proof (filter_loop_spec self' (words self')) as Hloop.
  destruct (set_fold _ _ _) as [new|e]; simpl.
  - destruct Hloop as [_ Hnew]. f_equal.
    assert (new = words self') as ->; [|by destruct self'].
    apply set_eq. intros W. rewrite Hnew, Hsame. split; [by intros [? _]|].
    intros HW. split; [done|]. apply Hw in HW as [HW Hret].
    destruct (Htot W HW) as [b Hb]. rewrite Hb. f_equal.
    by apply (keeps_Ok _ _ _ Hb).
  - destruct Hloop as (W & HW & Hno). destruct Hno. rewrite Hsame.
    apply Htot. by apply Hw in HW as [HW _].
Qed.

(** ** What [process_feedback] does *)

Lemma guess_occurrences_Counter guess letter :
  guess_occurrences guess letter = Counter guess letter.
Proof.
  unfold guess_occurrences. induction guess as [|c rest IH]; simpl; [done|].
  rewrite filter_cons. case_decide; simpl; lia.
Qed.

Lemma count_pairs_nil sel letter : count_pairs sel letter [] = 0.
Proof. done. Qed.

Lemma count_pairs_cons sel letter l res pairs :
  count_pairs sel letter ((l, res) :: pairs) =
  (if decide (l = letter ∧ sel res = true) then 1 else 0)
  + count_pairs sel letter pairs.
Proof.
  unfold count_pairs. rewrite filter_cons. simpl.
  case_decide; simpl; lia.
Qed.

Lemma count_pairs_nonneg sel letter pairs : 0 ≤ count_pairs sel letter pairs.
Proof. unfold count_pairs. lia. Qed.

Lemma incr_lookup letter d l :
  incr letter d !! l =
  if decide (letter = l) then Some (default 0 (d !! letter) + 1) else d !! l.
Proof.
  unfold incr. case_decide as Heq.
  - subst. by rewrite lookup_insert_eq.
  - by rewrite lookup_insert_ne.
Qed.

Lemma offsets_of_add_offset letter offset d l j :
  j ∈ offsets_of (add_offset letter offset d) l ↔
  (l = letter ∧ j = offset) ∨ j ∈ offsets_of d l.
Proof.
  unfold add_offset, offsets_of at 1. destruct (decide (letter = l)) as [->|Hne].
  - rewrite lookup_insert_eq. simpl. set_solver.
  - rewrite lookup_insert_ne by done. fold (offsets_of d l). naive_solver.
Qed.

Lemma count_pairs_single sel letter l res :
  count_pairs sel letter [(l, res)] =
  if decide (l = letter ∧ sel res = true) then 1 else 0.
Proof. rewrite count_pairs_cons, count_pairs_nil. lia. Qed.

Local Ltac solve_counter :=
  let l := fresh "l" in
  intros l; rewrite ?incr_lookup, count_pairs_single; simpl;
  repeat case_decide; simplify_eq/=; try done; try lia; naive_solver.

Lemma scan_step_Ok offset letter res s s' :
  scan_step offset letter res s = Ok s' →
  (∀ l, correct_letter_counts s' !! l =
        counter_plus (correct_letter_counts s !! l)
          (count_pairs is_correctish l [(letter, res)])) ∧
  (∀ l, incorrect_letter_counts s' !! l =
        counter_plus (incorrect_letter_counts s !! l)
          (count_pairs is_incorrect l [(letter, res)])) ∧
  (∀ l j, j ∈ offsets_of (scan_misplaced s') l ↔
          j ∈ offsets_of (scan_misplaced s) l ∨
          (l = letter ∧ j = offset ∧ (res = INCORRECT ∨ res = MISPLACED))) ∧
  length (scan_correct s') = length (scan_correct s) ∧
  (res = CORRECT → (offset < length (scan_correct s))%nat) ∧
  (∀ j, scan_correct s' !! j =
        if decide (j = offset ∧ res = CORRECT) then Some (Some letter)
        else scan_correct s !! j).
Proof.
  unfold scan_step, counter_plus.
  destruct res; simpl; intros H; simplify_eq; simpl.
  - split_and!; try done; try solve_counter.
    + naive_solver.
    + intros j. by rewrite decide_False by naive_solver.
  - split_and!; try done; try solve_counter.
    + intros l j. rewrite offsets_of_add_offset. naive_solver.
    + intros j. by rewrite decide_False by naive_solver.
  - split_and!; try done; try solve_counter.
    + intros l j. rewrite offsets_of_add_offset. naive_solver.
    + intros j. by rewrite decide_False by naive_solver.
  - unfold list_set in H. case_decide as Hlt; simplify_eq/=.
    split_and!; try done; try solve_counter.
    + naive_solver.
    + by rewrite length_insert.
    + intros j. case_decide as Hj.
      * destruct Hj as [-> _]. by rewrite list_lookup_insert_eq.
      * rewrite list_lookup_insert_ne; [done|]. naive_solver.
Qed.

Lemma counter_plus_plus before n1 n2 :
  0 ≤ n1 → 0 ≤ n2 →
  counter_plus (counter_plus before n1) n2 = counter_plus before (n1 + n2).
Proof.
  intros ??. unfold counter_plus.
  repeat case_decide; simpl; try done; try lia; f_equal; lia.
Qed.

Lemma scan_feedback_Ok offset pairs s s' :
  scan_feedback offset pairs s = Ok s' →
  (∀ l, correct_letter_counts s' !! l =
        counter_plus (correct_letter_counts s !! l)
          (count_pairs is_correctish l pairs)) ∧
  (∀ l, incorrect_letter_counts s' !! l =
        counter_plus (incorrect_letter_counts s !! l)
          (count_pairs is_incorrect l pairs)) ∧
  (∀ l j, j ∈ offsets_of (scan_misplaced s') l ↔
          j ∈ offsets_of (scan_misplaced s) l ∨
          ∃ i res, j = (offset + i)%nat ∧ pairs !! i = Some (l, res) ∧
                   (res = INCORRECT ∨ res = MISPLACED)) ∧
  length (scan_correct s') = length (scan_correct s) ∧
  (∀ i l, pairs !! i = Some (l, CORRECT) →
          (offset + i < length (scan_correct s))%nat) ∧
  (∀ j, (∃ i l, j = (offset + i)%nat ∧ pairs !! i = Some (l, CORRECT) ∧
                scan_correct s' !! j = Some (Some l)) ∨
        ((∀ i l, pairs !! i = Some (l, CORRECT) → j ≠ (offset + i)%nat) ∧
         scan_correct s' !! j = scan_correct s !! j)).
Proof.
  revert offset s. induction pairs as [|[letter res] rest IH]; intros offset s H;
    simpl in H.
  - simplify_eq. unfold counter_plus. split_and!; try done.
    + intros l j. split; [auto|]. intros [?|(i & res & _ & Hi & _)]; [done|].
      by rewrite lookup_nil in Hi.
    + intros j. right. split; [|done]. intros i l. by rewrite lookup_nil.
  - inv_bind H.
    destruct (scan_step_Ok _ _ _ _ _ Ha) as (Hc1 & Hi1 & Hm1 & Hl1 & Hb1 & Hk1).
    destruct (IH _ _ H) as (Hc2 & Hi2 & Hm2 & Hl2 & Hb2 & Hk2).
    split_and!.
    + intros l. rewrite Hc2, Hc1, (count_pairs_cons _ l letter res rest),
        <- count_pairs_single.
      apply counter_plus_plus; apply count_pairs_nonneg.
    + intros l. rewrite Hi2, Hi1, (count_pairs_cons _ l letter res rest),
        <- count_pairs_single.
      apply counter_plus_plus; apply count_pairs_nonneg.
    + intros l j. rewrite Hm2, Hm1. split.
      * intros [[?|(-> & -> & Hres)]|(i & res' & -> & Hi & Hres)]; [by left|..].
        -- right. exists 0%nat, res. by rewrite Nat.add_0_r.
        -- right. exists (S i), res'. split; [lia|done].
      * intros [?|(i & res' & -> & Hi & Hres)]; [by left; left|].
        destruct i as [|i]; simplify_eq/=.
        -- left. right. by rewrite Nat.add_0_r.
        -- right. exists i, res'. split; [lia|done].
    + congruence.
    + intros [|i] l Hi; simplify_eq/=.
      * rewrite Nat.add_0_r. by apply Hb1.
      * rewrite <- Hl1, <- Nat.add_succ_comm. by eapply Hb2.
    + intros j. destruct (Hk2 j) as [(i & l & -> & Hi & Hj)|[Hno Hj]].
      * left. exists (S i), l. split; [lia|done].
      * rewrite Hk1 in Hj. case_decide as Hd.
        -- destruct Hd as [-> ->]. left. exists 0%nat, letter.
           by rewrite Nat.add_0_r.
        -- right. split; [|done]. intros [|i] l Hi; simplify_eq/=.
           ++ rewrite Nat.add_0_r. naive_solver.
           ++ rewrite <- Nat.add_succ_comm. by eapply Hno.
Qed.

Lemma scan_feedback_total offset pairs s :
  (offset + length pairs ≤ length (scan_correct s))%nat →
  is_Ok (scan_feedback offset pairs s).
Proof.
  revert offset s. induction pairs as [|[letter res] rest IH];
    intros offset s Hlen; simpl in *.
  - apply is_Ok_Ok.
  - assert (is_Ok (scan_step offset letter res s)) as [s1 Hs1].
    { unfold scan_step, list_set. destruct res; simpl; try apply is_Ok_Ok.
      rewrite decide_True by lia. apply is_Ok_Ok. }
    rewrite Hs1. simpl. apply IH.
    destruct (scan_step_Ok _ _ _ _ _ Hs1) as (_ & _ & _ & -> & _). lia.
Qed.

(** The two loops over the per-round counters have the same shape: read the
    bounds of the letter, write them back changed. *)
Lemma bounds_loop_spec
    (step : ascii → Z → result (gmap ascii (Z * Z)) →
            result (gmap ascii (Z * Z)))
    (f : ascii → Z → Z * Z → Z * Z) (lc : gmap ascii (Z * Z))
    (counts : gmap ascii Z) :
  (∀ letter count acc, step letter count acc =
     (lc' ← acc; bounds ← dict_get lc' letter;
      Ok (<[letter := f letter count bounds]> lc'))) →
  match map_fold step (Ok lc) counts with
  | Ok lc' =>
      (∀ l, is_Some (counts !! l) → is_Some (lc !! l)) ∧
      (∀ l, lc' !! l =
            match counts !! l with
            | Some count => f l count <$> lc !! l
            | None => lc !! l
            end)
  | Raise _ => ∃ l, is_Some (counts !! l) ∧ lc !! l = None
  end.
Proof.
  intros Hstep.
  apply (map_fold_weak_ind (λ r (m : gmap ascii Z),
    match r with
    | Ok lc' =>
        (∀ l, is_Some (m !! l) → is_Some (lc !! l)) ∧
        (∀ l, lc' !! l =
              match m !! l with
              | Some count => f l count <$> lc !! l
              | None => lc !! l
              end)
    | Raise _ => ∃ l, is_Some (m !! l) ∧ lc !! l = None
    end)).
  - split; [by intros l [? ?]|]. intros l. by rewrite lookup_empty.
  - intros i x m [lc'|e] Hi; rewrite Hstep; simpl.
    + intros [Hdom Hlook]. unfold dict_get.
      pose proof (Hlook i) as Hli. rewrite Hi in Hli.
      destruct (lc' !! i) as [bounds|] eqn:Hb; simpl.
      * split.
        -- intros l. destruct (decide (i = l)) as [->|Hne].
           ++ intros _. rewrite <- Hli. by eexists.
           ++ rewrite lookup_insert_ne by done. apply Hdom.
        -- intros l. destruct (decide (i = l)) as [->|Hne].
           ++ rewrite !lookup_insert_eq. by rewrite <- Hli.
           ++ rewrite !lookup_insert_ne by done. apply Hlook.
      * exists i. by rewrite lookup_insert_eq.
    + intros (l & Hl & Hnone). exists l. split; [|done].
      destruct (decide (i = l)) as [->|Hne].
      * by rewrite lookup_insert_eq.
      * by rewrite lookup_insert_ne.
Qed.

Lemma raise_min_loop lc counts :
  match map_fold raise_min (Ok lc) counts with
  | Ok lc' =>
      (∀ l, is_Some (counts !! l) → is_Some (lc !! l)) ∧
      (∀ l, lc' !! l =
            match counts !! l with
            | Some count => (λ b, (Z.max count b.1, b.2)) <$> lc !! l
            | None => lc !! l
            end)
  | Raise _ => ∃ l, is_Some (counts !! l) ∧ lc !! l = None
  end.
Proof.
  apply (bounds_loop_spec raise_min (λ _ count b, (Z.max count b.1, b.2))).
  done.
Qed.

Lemma lower_max_loop guess lc counts :
  match map_fold (lower_max guess) (Ok lc) counts with
  | Ok lc' =>
      (∀ l, is_Some (counts !! l) → is_Some (lc !! l)) ∧
      (∀ l, lc' !! l =
            match counts !! l with
            | Some count =>
                (λ b, (b.1, Z.min (Counter guess l - count) b.2)) <$> lc !! l
            | None => lc !! l
            end)
  | Raise _ => ∃ l, is_Some (counts !! l) ∧ lc !! l = None
  end.
Proof.
  apply (bounds_loop_spec (lower_max guess)
           (λ l count b, (b.1, Z.min (Counter guess l - count) b.2))).
  done.
Qed.

Lemma lookup_zip (guess : list ascii) (feedback : list GuessState) i l res :
  zip guess feedback !! i = Some (l, res) ↔
  guess !! i = Some l ∧ feedback !! i = Some res.
Proof. rewrite lookup_zip_with_Some. naive_solver. Qed.

Lemma count_pairs_elem sel letter pairs :
  count_pairs sel letter pairs ≠ 0 → ∃ res, (letter, res) ∈ pairs.
Proof.
  induction pairs as [|[l res] rest IH]; [done|].
  rewrite count_pairs_cons. case_decide as Hd.
  - destruct Hd as [-> _]. intros _. exists res. left.
  - intros Hne. destruct IH as [res' ?]; [lia|]. exists res'. by right.
Qed.

Lemma counter_plus_None n l (counts : gmap ascii Z) :
  counts !! l = counter_plus None n →
  match counts !! l with
  | Some count => count = n ∧ n ≠ 0
  | None => n = 0
  end.
Proof. unfold counter_plus. intros ->. case_decide; simpl; [done|]. lia. Qed.

Lemma process_feedback_Ok self guess feedback self' :
  process_feedback self guess feedback = Ok self' →
  word_len self' = word_len self ∧
  words self' = words self ∧
  (∀ l, letter_counts self' !! l =
        bounds_after guess feedback l <$> letter_counts self !! l) ∧
  (∀ l j, j ∈ offsets_of (misplaced_letters self') l ↔
          j ∈ offsets_of (misplaced_letters self) l ∨
          ∃ res, guess !! j = Some l ∧ feedback !! j = Some res ∧
                 (res = INCORRECT ∨ res = MISPLACED)) ∧
  length (correct_letters self') = length (correct_letters self) ∧
  (∀ j, (∃ l, guess !! j = Some l ∧ feedback !! j = Some CORRECT ∧
              correct_letters self' !! j = Some (Some l)) ∨
        (¬ (is_Some (guess !! j) ∧ feedback !! j = Some CORRECT) ∧
         correct_letters self' !! j = correct_letters self !! j)).
Proof.
  unfold process_feedback. intros H. inv_bind H. simplify_eq. simpl.
  rename a into s, a0 into lc1, a1 into lc2.
  destruct (scan_feedback_Ok _ _ _ _ Ha) as (Hc & Hi & Hm & Hl & _ & Hk).
  simpl in *.
  pose proof (raise_min_loop (letter_counts self) (correct_letter_counts s))
    as Hr. rewrite Ha0 in Hr. destruct Hr as [_ Hr].
  pose proof (lower_max_loop guess lc1 (incorrect_letter_counts s)) as Hw.
  rewrite Ha1 in Hw. destruct Hw as [_ Hw].
  split_and!; try done.
  - intros l. rewrite Hw, Hr. unfold bounds_after.
    fold (correctish_count guess feedback l) in *.
    specialize (Hc l). specialize (Hi l). rewrite lookup_empty in Hc, Hi.
    apply counter_plus_None in Hc, Hi.
    fold (correctish_count guess feedback l) in Hc.
    fold (incorrect_count guess feedback l) in Hi.
    rewrite guess_occurrences_Counter.
    destruct (correct_letter_counts s !! l) as [c|],
             (incorrect_letter_counts s !! l) as [k|];
      destruct (letter_counts self !! l) as [[lo hi]|]; simpl; try done;
      repeat case_decide; destruct_and?; subst; try done; try lia;
      f_equal; f_equal; lia.
  - intros l j. rewrite Hm. split.
    + intros [?|(i & res & -> & Hz & Hres)]; [by left|]. right.
      apply lookup_zip in Hz as [? ?]. exists res. done.
    + intros [?|(res & Hg & Hf & Hres)]; [by left|]. right.
      exists j, res. split; [done|]. split; [|done]. by apply lookup_zip.
  - intros j. destruct (Hk j) as [(i & l & -> & Hz & Hj)|[Hno Hj]].
    + left. apply lookup_zip in Hz as [? ?]. exists l. done.
    + right. split; [|done]. intros [[l Hg] Hf].
      apply (Hno j l); [|done]. by apply lookup_zip.
Qed.

Lemma process_feedback_total self guess feedback :
  feedback_ready self guess → is_Ok (process_feedback self guess feedback).
Proof.
  intros [Hlen Hkeys]. unfold process_feedback.
  destruct (scan_feedback_total 0 (zip guess feedback)
              (mkScan ∅ ∅ (misplaced_letters self) (correct_letters self)))
    as [s Hs].
  { simpl. rewrite length_zip_with. lia. }
  rewrite Hs. simpl.
  destruct (scan_feedback_Ok _ _ _ _ Hs) as (Hc & Hi & _). simpl in *.
  assert (∀ sel l (counts : gmap ascii Z),
    counts !! l = counter_plus ((∅ : gmap ascii Z) !! l)
                    (count_pairs sel l (zip guess feedback)) →
    is_Some (counts !! l) → is_Some (letter_counts self !! l)) as Hin.
  { intros sel l counts Hcl Hsome. rewrite lookup_empty in Hcl.
    apply counter_plus_None in Hcl. destruct Hsome as [c Hsome].
    rewrite Hsome in Hcl. destruct Hcl as [_ Hne].
    apply count_pairs_elem in Hne as [res Hin%elem_of_zip_l].
    by apply (proj1 (Forall_forall _ _) Hkeys). }
  pose proof (raise_min_loop (letter_counts self) (correct_letter_counts s))
    as Hr.
  destruct (map_fold raise_min _ _) as [lc1|e]; simpl.
  - destruct Hr as [_ Hr].
    pose proof (lower_max_loop guess lc1 (incorrect_letter_counts s)) as Hw.
    destruct (map_fold (lower_max guess) _ _) as [lc2|e]; simpl;
      [apply is_Ok_Ok|].
    destruct Hw as (l & Hsome & Hnone).
    apply (Hin _ _ _ (Hi l)) in Hsome as [b Hb].
    rewrite Hr, Hb in Hnone. by destruct (correct_letter_counts s !! l).
  - destruct Hr as (l & Hsome & Hnone).
    apply (Hin _ _ _ (Hc l)) in Hsome as [b Hb]. congruence.
Qed.

(** ** Letter statistics *)

Lemma lookup_list_to_map_key {V} (f : ascii → V) (ls : list ascii) l :
  (list_to_map ((λ letter, (letter, f letter)) <$> ls) : gmap ascii V) !! l =
  if decide (l ∈ ls) then Some (f l) else None.
Proof.
  induction ls as [|c rest IH].
  - rewrite fmap_nil, list_to_map_nil, lookup_empty. by rewrite decide_False by set_solver.
  - rewrite fmap_cons, list_to_map_cons.
    destruct (decide (c = l)) as [->|Hne].
    + rewrite lookup_insert_eq. rewrite decide_True; [done|left].
    + rewrite lookup_insert_ne by done. rewrite IH.
      repeat case_decide; try done; set_solver.
Qed.

Lemma repeats_of_letters word visited acc :
  stats_le word visited acc
    (foldl (λ '(min_repeats, max_repeats) letter,
              (alter (λ m, Z.min m (Counter word letter)) letter min_repeats,
               alter (λ m, Z.max m (Counter word letter)) letter max_repeats))
           acc visited).
Proof.
  induction visited as [|c rest IH] using rev_ind.
  - simpl. intros l. destruct (acc.1 !! l), (acc.2 !! l); set_solver by lia.
  - rewrite foldl_app. simpl.
    destruct (foldl _ acc rest) as [mn mx] eqn:Hfold.
    intros l. specialize (IH l). simpl in *.
    destruct (decide (c = l)) as [->|Hne].
    + rewrite !lookup_alter_eq.
      destruct (acc.1 !! l), (mn !! l), (acc.2 !! l), (mx !! l);
        simpl in *; try done; intuition lia.
    + rewrite !lookup_alter_ne by done.
      assert (l ∈ rest ++ [c] → l ∈ rest) by set_solver.
      destruct (acc.1 !! l), (mn !! l), (acc.2 !! l), (mx !! l);
        simpl in *; try done; intuition lia.
Qed.

Lemma find_min_max_letter_repeats_spec (ws : gset (list ascii)) l :
  if decide (l ∈ ascii_lowercase) then
    ∃ lo hi,
      (find_min_max_letter_repeats ws).1 !! l = Some lo ∧
      (find_min_max_letter_repeats ws).2 !! l = Some hi ∧
      ∀ W, W ∈ ws → lo ≤ Counter W l ≤ hi
  else
    (find_min_max_letter_repeats ws).1 !! l = None ∧
    (find_min_max_letter_repeats ws).2 !! l = None.
Proof.
  unfold find_min_max_letter_repeats.
  apply (set_fold_ind_L (λ (r : gmap ascii Z * gmap ascii Z)
                           (X : gset (list ascii)),
    if decide (l ∈ ascii_lowercase) then
      ∃ lo hi, r.1 !! l = Some lo ∧ r.2 !! l = Some hi ∧
               ∀ W, W ∈ X → lo ≤ Counter W l ≤ hi
    else r.1 !! l = None ∧ r.2 !! l = None)).
  - cbn [fst snd]. rewrite !lookup_list_to_map_key. case_decide; [|done].
    eexists _, _. split_and!; done.
  - intros word X r Hword Hr.
    pose proof (repeats_of_letters word ascii_lowercase r l) as [Hmn Hmx].
    fold (repeats_of_word word r) in Hmn, Hmx.
    case_decide as Hl.
    + destruct Hr as (lo & hi & Hlo & Hhi & Hall).
      rewrite Hlo in Hmn. rewrite Hhi in Hmx.
      destruct ((repeats_of_word word r).1 !! l) as [lo'|]; [|done].
      destruct ((repeats_of_word word r).2 !! l) as [hi'|]; [|done].
      exists lo', hi'. split_and!; try done.
      intros W [->%elem_of_singleton|HW]%elem_of_union.
      * naive_solver.
      * specialize (Hall W HW). lia.
    + destruct Hr as [Hlo Hhi]. rewrite Hlo in Hmn. rewrite Hhi in Hmx.
      destruct ((repeats_of_word word r).1 !! l); [done|].
      by destruct ((repeats_of_word word r).2 !! l).
Qed.

Lemma init_letter_counts (n : nat) (dictionary : gset (list ascii))
    (l : ascii) :
  if decide (l ∈ ascii_lowercase) then
    ∃ lo hi, letter_counts (init n dictionary) !! l = Some (lo, hi) ∧
             ∀ W, W ∈ dictionary → lo ≤ Counter W l ≤ hi
  else letter_counts (init n dictionary) !! l = None.
Proof.
  unfold init.
  pose proof (find_min_max_letter_repeats_spec dictionary l) as Hstat.
  destruct (find_min_max_letter_repeats dictionary) as [mn mx].
  cbn [fst snd letter_counts] in *.
  rewrite lookup_list_to_map_key. case_decide; [|done].
  destruct Hstat as (lo & hi & Hlo & Hhi & Hall).
  exists lo, hi. split; [|done].
  by rewrite (lookup_total_correct _ _ _ Hlo), (lookup_total_correct _ _ _ Hhi).
Qed.

Lemma alphabet_keys_spec lc :
  alphabet_keys lc ↔ ∀ l, is_Some (lc !! l) ↔ l ∈ ascii_lowercase.
Proof.
  unfold alphabet_keys. rewrite set_eq.
  by setoid_rewrite elem_of_dom; setoid_rewrite elem_of_list_to_set.
Qed.

Lemma init_words (n : nat) (dictionary : gset (list ascii)) :
  words (init n dictionary) = dictionary.
Proof. unfold init. by destruct (find_min_max_letter_repeats dictionary). Qed.

Lemma init_correct_letters (n : nat) (dictionary : gset (list ascii)) :
  correct_letters (init n dictionary) = replicate n None.
Proof. unfold init. by destruct (find_min_max_letter_repeats dictionary). Qed.

Lemma init_misplaced_letters (n : nat) (dictionary : gset (list ascii)) :
  misplaced_letters (init n dictionary) = ∅.
Proof. unfold init. by destruct (find_min_max_letter_repeats dictionary). Qed.

Lemma init_alphabet_keys (n : nat) (dictionary : gset (list ascii)) :
  alphabet_keys (letter_counts (init n dictionary)).
Proof.
  apply alphabet_keys_spec. intros l.
  pose proof (init_letter_counts n dictionary l) as H.
  case_decide; [|rewrite H; split; [by intros [? ?]|done]].
  destruct H as (lo & hi & -> & _). split; [done|by eexists].
Qed.

(** ** Re-tightening *)

Lemma retighten_loop mn mx (lc : gmap ascii (Z * Z)) :
  match map_fold (retighten_step mn mx) (Ok ∅) lc with
  | Ok lc' =>
      (∀ l, is_Some (lc !! l) → is_Some (mn !! l) ∧ is_Some (mx !! l)) ∧
      (∀ l, lc' !! l =
            (b ← lc !! l; lo ← mn !! l; hi ← mx !! l;
             Some (Z.max b.1 lo, Z.min b.2 hi)))
  | Raise _ => ∃ l, is_Some (lc !! l) ∧ (mn !! l = None ∨ mx !! l = None)
  end.
Proof.
  apply (map_fold_weak_ind (λ r (m : gmap ascii (Z * Z)),
    match r with
    | Ok lc' =>
        (∀ l, is_Some (m !! l) → is_Some (mn !! l) ∧ is_Some (mx !! l)) ∧
        (∀ l, lc' !! l =
              (b ← m !! l; lo ← mn !! l; hi ← mx !! l;
               Some (Z.max b.1 lo, Z.min b.2 hi)))
    | Raise _ => ∃ l, is_Some (m !! l) ∧ (mn !! l = None ∨ mx !! l = None)
    end)).
  - split; [by intros l [? ?]|]. intros l. by rewrite !lookup_empty.
  - intros i x m [lc'|e] Hi; unfold retighten_step, dict_get; simpl.
    + intros [Hdom Hlook].
      destruct (mn !! i) as [lo|] eqn:Hlo; simpl;
        [destruct (mx !! i) as [hi|] eqn:Hhi; simpl|].
      * split.
        -- intros l. destruct (decide (i = l)) as [->|Hne].
           ++ intros _. rewrite Hlo, Hhi. split; by eexists.
           ++ rewrite lookup_insert_ne by done. apply Hdom.
        -- intros l. destruct (decide (i = l)) as [->|Hne].
           ++ rewrite !lookup_insert_eq. simpl. by rewrite Hlo, Hhi.
           ++ rewrite !lookup_insert_ne by done. apply Hlook.
      * exists i. rewrite lookup_insert_eq. split; [by eexists|by right].
      * exists i. rewrite lookup_insert_eq. split; [by eexists|by left].
    + intros (l & Hl & Hnone). exists l. split; [|done].
      destruct (decide (i = l)) as [->|Hne].
      * by rewrite lookup_insert_eq.
      * by rewrite lookup_insert_ne.
Qed.

Lemma retighten_Ok self self' :
  retighten self = Ok self' →
  word_len self' = word_len self ∧
  words self' = words self ∧
  correct_letters self' = correct_letters self ∧
  misplaced_letters self' = misplaced_letters self ∧
  (∀ l, is_Some (letter_counts self !! l) →
        is_Some ((find_min_max_letter_repeats (words self)).1 !! l) ∧
        is_Some ((find_min_max_letter_repeats (words self)).2 !! l)) ∧
  (∀ l, letter_counts self' !! l =
        (b ← letter_counts self !! l;
         lo ← (find_min_max_letter_repeats (words self)).1 !! l;
         hi ← (find_min_max_letter_repeats (words self)).2 !! l;
         Some (Z.max b.1 lo, Z.min b.2 hi))).
Proof.
  unfold retighten.
  destruct (find_min_max_letter_repeats (words self)) as [mn mx].
  intros H. inv_bind H. simplify_eq. simpl.
  pose proof (retighten_loop mn mx (letter_counts self)) as Hloop.
  by rewrite Ha in Hloop.
Qed.

Lemma retighten_total self :
  (∀ l, is_Some (letter_counts self !! l) → l ∈ ascii_lowercase) →
  is_Ok (retighten self).
Proof.
  intros Hkeys. unfold retighten.
  pose proof (λ l, find_min_max_letter_repeats_spec (words self) l) as Hstat.
  destruct (find_min_max_letter_repeats (words self)) as [mn mx].
  pose proof (retighten_loop mn mx (letter_counts self)) as Hloop.
  destruct (map_fold _ _ _) as [lc'|e]; simpl; [apply is_Ok_Ok|].
  destruct Hloop as (l & Hl%Hkeys & Hnone). specialize (Hstat l).
  rewrite decide_True in Hstat by done. simpl in Hstat.
  destruct Hstat as (lo & hi & Hlo & Hhi & _). naive_solver.
Qed.

(** ** Bounds only tighten *)

Lemma process_feedback_tightened self guess feedback self' :
  process_feedback self guess feedback = Ok self' →
  tightened (letter_counts self) (letter_counts self').
Proof.
  intros H. destruct (process_feedback_Ok _ _ _ _ H) as (_ & _ & Hlc & _).
  intros l lo hi Hb. rewrite Hlc, Hb. simpl. unfold bounds_after. simpl.
  eexists _, _. split; [done|]. repeat case_decide; lia.
Qed.

Lemma retighten_tightened self self' :
  retighten self = Ok self' →
  tightened (letter_counts self) (letter_counts self').
Proof.
  intros H. destruct (retighten_Ok _ _ H) as (_ & _ & _ & _ & Hdom & Hlc).
  intros l lo hi Hb. rewrite Hlc, Hb. simpl.
  destruct (Hdom l) as [[mn ->] [mx ->]]; [by eexists|]. simpl.
  eexists _, _. split; [done|]. lia.
Qed.

Lemma tightened_trans lc1 lc2 lc3 :
  tightened lc1 lc2 → tightened lc2 lc3 → tightened lc1 lc3.
Proof.
  intros H12 H23 l lo hi Hb.
  destruct (H12 _ _ _ Hb) as (lo2 & hi2 & Hb2 & ? & ?).
  destruct (H23 _ _ _ Hb2) as (lo3 & hi3 & Hb3 & ? & ?).
  exists lo3, hi3. split; [done|]. lia.
Qed.

Lemma round_Ok self guess feedback self' :
  round self guess feedback = Ok self' →
  ∃ self1 self2,
    process_feedback self guess feedback = Ok self1 ∧
    filter_words self1 = Ok self2 ∧
    retighten self2 = Ok self'.
Proof. unfold round. intros H. inv_bind H. eauto. Qed.

Lemma round_tightened self guess feedback self' :
  round self guess feedback = Ok self' →
  tightened (letter_counts self) (letter_counts self').
Proof.
  intros (self1 & self2 & H1 & H2 & H3)%round_Ok.
  apply process_feedback_tightened in H1. apply retighten_tightened in H3.
  destruct (filter_words_Ok _ _ H2) as (_ & _ & _ & Hlc & _).
  rewrite Hlc in H3. by eapply tightened_trans.
Qed.

(** ** Fixed letters *)

Lemma process_feedback_correct_at self guess feedback self' i letter :
  process_feedback self guess feedback = Ok self' →
  correct_letters self !! i = Some (Some letter) →
  (∃ letter', correct_letters self' !! i = Some (Some letter')) ∧
  ((feedback !! i = Some CORRECT → guess !! i = Some letter) →
   correct_letters self' !! i = Some (Some letter)).
Proof.
  intros H Hi. destruct (process_feedback_Ok _ _ _ _ H) as (_ & _ & _ & _ & _ & Hk).
  destruct (Hk i) as [(l & Hg & Hf & Hl)|[_ Hl]].
  - split; [by exists l|]. intros Hsame. specialize (Hsame Hf). congruence.
  - rewrite Hl, Hi. split; [by exists letter|done].
Qed.

Lemma feed_correct_set rounds self self' i letter :
  correct_letters self !! i = Some (Some letter) →
  feed self rounds = Ok self' →
  ∃ letter', correct_letters self' !! i = Some (Some letter').
Proof.
  revert self letter. induction rounds as [|[guess feedback] rest IH];
    intros self letter Hi H; simpl in H.
  - simplify_eq. by exists letter.
  - inv_bind H.
    destruct (process_feedback_correct_at _ _ _ _ _ _ Ha Hi)
      as [[letter' Hi'] _].
    by eapply IH.
Qed.

Lemma feed_correct_same rounds self self' i letter :
  correct_letters self !! i = Some (Some letter) →
  feed self rounds = Ok self' →
  (∀ guess feedback, (guess, feedback) ∈ rounds →
     feedback !! i = Some CORRECT → guess !! i = Some letter) →
  correct_letters self' !! i = Some (Some letter).
Proof.
  revert self. induction rounds as [|[guess feedback] rest IH];
    intros self Hi H Hsame; simpl in H.
  - by simplify_eq.
  - inv_bind H.
    destruct (process_feedback_correct_at _ _ _ _ _ _ Ha Hi) as [_ Hi'].
    apply (IH a); [|done|].
    + apply Hi'. apply Hsame. left.
    + intros g f Hin. apply Hsame. by right.
Qed.

Lemma round_candidates_agree self guess feedback self' :
  round self guess feedback = Ok self' →
  ∀ W, W ∈ words self' → agrees_with_correct (correct_letters self') W.
Proof.
  intros (self1 & self2 & H1 & H2 & H3)%round_Ok W HW.
  destruct (filter_words_Ok _ _ H2) as (_ & Hcl & _ & _ & _ & Hw).
  destruct (retighten_Ok _ _ H3) as (_ & Hws & Hcl' & _).
  rewrite Hws in HW. apply Hw in HW as [_ (Hag & _)]. by rewrite Hcl', Hcl.
Qed.

Lemma round_correct_at self guess feedback self' i letter :
  round self guess feedback = Ok self' →
  correct_letters self !! i = Some (Some letter) →
  guess !! i = Some letter →
  correct_letters self' !! i = Some (Some letter).
Proof.
  intros (self1 & self2 & H1 & H2 & H3)%round_Ok Hi Hg.
  destruct (process_feedback_correct_at _ _ _ _ _ _ H1 Hi) as [_ Hi1].
  destruct (filter_words_Ok _ _ H2) as (_ & Hcl & _).
  destruct (retighten_Ok _ _ H3) as (_ & _ & Hcl' & _).
  rewrite Hcl', Hcl. by apply Hi1.
Qed.

Lemma loop_rounds_correct_same self self' i letter :
  loop_rounds self self' →
  (∀ W, W ∈ words self → agrees_with_correct (correct_letters self) W) →
  correct_letters self !! i = Some (Some letter) →
  correct_letters self' !! i = Some (Some letter).
Proof.
  induction 1 as [self|self guess feedback self1 self2 Hg Hr _ IH];
    intros Hagree Hi; [done|].
  apply IH.
  - by eapply round_candidates_agree.
  - eapply round_correct_at; [done..|]. by apply (Hagree guess Hg).
Qed.

(** ** A letter guessed twice *)

Lemma count_pairs_ge_1 sel letter pairs i res :
  pairs !! i = Some (letter, res) → sel res = true →
  1 ≤ count_pairs sel letter pairs.
Proof.
  revert i. induction pairs as [|[l r] rest IH]; intros [|i] Hi Hsel;
    simplify_eq/=; rewrite count_pairs_cons.
  - rewrite decide_True by done. pose proof (count_pairs_nonneg sel letter rest).
    lia.
  - specialize (IH _ Hi Hsel). case_decide; lia.
Qed.

Lemma count_pairs_sum letter pairs :
  count_pairs is_correctish letter pairs + count_pairs is_incorrect letter pairs
  ≤ Counter (pairs.*1) letter.
Proof.
  induction pairs as [|[l r] rest IH]; [done|].
  rewrite !count_pairs_cons, fmap_cons. cbn [Counter fst].
  destruct r; cbn [is_correctish is_incorrect]; repeat case_decide;
    try lia; exfalso; intuition congruence.
Qed.

Lemma twice_guessed_counts guess feedback letter i j :
  guess_occurrences guess letter = 2 →
  length guess = length feedback →
  guess !! i = Some letter → feedback !! i = Some CORRECT →
  guess !! j = Some letter → feedback !! j = Some INCORRECT →
  correctish_count guess feedback letter = 1 ∧
  incorrect_count guess feedback letter = 1.
Proof.
  intros Htwo Hlen Hgi Hfi Hgj Hfj. unfold correctish_count, incorrect_count.
  pose proof (count_pairs_sum letter (zip guess feedback)) as Hsum.
  rewrite fst_zip, <- guess_occurrences_Counter, Htwo in Hsum by lia.
  pose proof (count_pairs_ge_1 is_correctish letter (zip guess feedback)
                i CORRECT) as HC.
  pose proof (count_pairs_ge_1 is_incorrect letter (zip guess feedback)
                j INCORRECT) as HK.
  rewrite lookup_zip in HC, HK. specialize (HC (conj Hgi Hfi) eq_refl).
  specialize (HK (conj Hgj Hfj) eq_refl). lia.
Qed.

(** ** The states of the loop *)

Lemma init_in_bounds (n : nat) (dictionary : gset (list ascii))
    (W : list ascii) :
  W ∈ dictionary →
  all_letters_in_bounds (letter_counts (init n dictionary)) W.
Proof.
  intros HW l lo hi Hb. pose proof (init_letter_counts n dictionary l) as H.
  case_decide; [|congruence].
  destruct H as (lo' & hi' & Hb' & Hall). simplify_eq. by apply Hall.
Qed.

Lemma retighten_in_bounds self self' W :
  retighten self = Ok self' →
  W ∈ words self →
  all_letters_in_bounds (letter_counts self) W →
  all_letters_in_bounds (letter_counts self') W.
Proof.
  intros H HW Hin l lo hi Hb.
  destruct (retighten_Ok _ _ H) as (_ & _ & _ & _ & _ & Hlc).
  rewrite Hlc in Hb.
  destruct (letter_counts self !! l) as [[lo0 hi0]|] eqn:Hb0; [|done].
  simpl in Hb. specialize (Hin _ _ _ Hb0).
  pose proof (find_min_max_letter_repeats_spec (words self) l) as Hstat.
  case_decide.
  - destruct Hstat as (mn & mx & Hmn & Hmx & Hall).
    rewrite Hmn, Hmx in Hb. simplify_eq/=. specialize (Hall W HW). lia.
  - destruct Hstat as [Hmn _]. by rewrite Hmn in Hb.
Qed.

Lemma round_in_bounds self guess feedback self' W :
  round self guess feedback = Ok self' →
  W ∈ words self' →
  all_letters_in_bounds (letter_counts self') W.
Proof.
  intros (self1 & self2 & H1 & H2 & H3)%round_Ok HW.
  destruct (retighten_Ok _ _ H3) as (_ & Hws & _).
  rewrite Hws in HW. eapply retighten_in_bounds; [done..|].
  destruct (filter_words_Ok _ _ H2) as (_ & _ & _ & Hlc & _ & Hw).
  apply Hw in HW as [_ (_ & _ & _ & Hall)]. by rewrite Hlc.
Qed.

Lemma loop_state_in_bounds self W :
  loop_state self → W ∈ words self →
  all_letters_in_bounds (letter_counts self) W.
Proof.
  intros [(n & dictionary & ->)|(self0 & guess & feedback & H)] HW.
  - rewrite init_words in HW. by apply init_in_bounds.
  - by eapply round_in_bounds.
Qed.

(** ** Ranking and the candidate set *)

Lemma set_pop_spec (ch : chooser) (s : gset (list ascii)) :
  match set_pop ch s with
  | (s', Ok w) => w ∈ s ∧ s' = s ∖ {[w]} ∧ {[w]} ∪ s' = s
  | (s', Raise e) => s = ∅ ∧ s' = s ∧ e = KeyError
  end.
Proof.
  unfold set_pop. destruct (pick ch s) as [w|] eqn:Hpick.
  - apply pick_elem in Hpick. split_and!; [done..|].
    symmetry. apply union_difference_L. set_solver.
  - apply pick_empty in Hpick. done.
Qed.

Lemma letter_word_counts_words (ch : chooser) (ws : gset (list ascii)) :
  (letter_word_counts ch ws).1 = ws.
Proof.
  unfold letter_word_counts. pose proof (set_pop_spec ch ws) as Hpop.
  destruct (set_pop ch ws) as [ws1 [w|e]]; simpl.
  - by destruct Hpop as (_ & _ & ->).
  - by destruct Hpop as (_ & -> & _).
Qed.

Lemma find_suggestions_words (ch : chooser) (ws : gset (list ascii))
    (n : nat) :
  (find_suggestions ch ws n).1 = ws.
Proof.
  unfold find_suggestions. pose proof (letter_word_counts_words ch ws) as H.
  by destruct (letter_word_counts ch ws) as [ws' [counts|e]].
Qed.

Lemma count_word_total position word counts :
  (position + length word ≤ length counts)%nat →
  ∃ counts', count_word position word counts = Ok counts' ∧
             length counts' = length counts.
Proof.
  revert position counts. induction word as [|c rest IH];
    intros position counts Hlen; simpl in *.
  - by exists counts.
  - destruct (lookup_lt_is_Some_2 counts position) as [d ->]; [lia|].
    destruct (IH (S position) (<[position := incr c d]> counts))
      as (counts' & -> & Hlen').
    { rewrite length_insert. lia. }
    exists counts'. split; [done|]. by rewrite Hlen', length_insert.
Qed.

Lemma score_word_total counts position word :
  (position + length word ≤ length counts)%nat →
  is_Ok (score_word counts position word).
Proof.
  revert position. induction word as [|c rest IH]; intros position Hlen;
    simpl in *.
  - apply is_Ok_Ok.
  - destruct (lookup_lt_is_Some_2 counts position) as [d ->]; [lia|].
    destruct (IH (S position)) as [total ->]; [lia|]. apply is_Ok_Ok.
Qed.

Lemma letter_word_counts_total (ch : chooser) (ws : gset (list ascii))
    (n : nat) :
  ws ≠ ∅ → (∀ W, W ∈ ws → length W = n) →
  ∃ counts, (letter_word_counts ch ws).2 = Ok counts ∧ length counts = n.
Proof.
  intros Hne Hlen. unfold letter_word_counts.
  pose proof (set_pop_spec ch ws) as Hpop.
  destruct (set_pop ch ws) as [ws1 [w|e]]; [|by destruct Hpop].
  destruct Hpop as (Hw & _ & ->). simpl.
  rewrite (Hlen w Hw).
  cut (∀ init : list (gmap ascii Z), length init = n →
    ∃ counts,
      set_fold (λ word acc, counts ← acc; count_word 0 word counts)
        (Ok init) ws = Ok counts ∧ length counts = n).
  { intros Hcut. apply Hcut. by rewrite length_replicate. }
  intros init Hinit. revert Hlen.
  apply (set_fold_ind_L (λ r (X : gset (list ascii)),
    (∀ W, W ∈ X → length W = n) →
    ∃ counts, r = Ok counts ∧ length counts = n)).
  - intros _. by exists init.
  - intros x X r Hx IH Hlen.
    destruct IH as (counts & -> & Hc); [set_solver|]. simpl.
    destruct (count_word_total 0 x counts) as (counts' & -> & Hc').
    { rewrite Hc, (Hlen x); [done|set_solver]. }
    exists counts'. split; [done|]. by rewrite Hc'.
Qed.

Lemma find_suggestions_total (ch : chooser) (ws : gset (list ascii))
    (n k : nat) :
  ws ≠ ∅ → (∀ W, W ∈ ws → length W = n) →
  is_Ok (find_suggestions ch ws k).2.
Proof.
  intros Hne Hlen. unfold find_suggestions.
  pose proof (letter_word_counts_words ch ws) as Hws.
  destruct (letter_word_counts_total ch ws n Hne Hlen) as (counts & Hc & Hn).
  destruct (letter_word_counts ch ws) as [ws' r]. simpl in *. subst.
  cut (is_Ok (set_fold (λ word acc,
                 scores ← acc;
                 sc ← score_word counts 0 word;
                 Ok (scores ++ [(sc, word)]))
               (Ok []) ws)).
  { intros [scores ->]. apply is_Ok_Ok. }
  revert Hlen.
  apply (set_fold_ind_L (λ r (X : gset (list ascii)),
    (∀ W, W ∈ X → length W = length counts) → is_Ok r)).
  - intros _. apply is_Ok_Ok.
  - intros x X r Hx IH Hlen. destruct IH as [scores ->]; [set_solver|].
    simpl. destruct (score_word_total counts 0 x) as [sc ->].
    { rewrite (Hlen x); [done|set_solver]. }
    apply is_Ok_Ok.
Qed.

(** ** The end of the loop *)

Lemma offer_declined word_len suggestions stdin :
  declines_all word_len suggestions stdin →
  (offer word_len suggestions stdin).2 = Ok None.
Proof.
  revert stdin. induction suggestions as [|[sc w] rest IH]; intros stdin H;
    simpl in *; [done|].
  destruct (input_guess (Some word_len) stdin) as [stdin' [fb|[]]];
    try done. by apply IH.
Qed.

Lemma blank_lines_decline word_len suggestions blanks rest :
  length blanks = length suggestions →
  Forall (λ line, strip line = []) blanks →
  declines_all word_len suggestions (blanks ++ rest).
Proof.
  revert blanks. induction suggestions as [|s suggestions IH];
    intros [|line blanks] Hlen Hblank; simplify_eq/=; [done|].
  apply Forall_cons in Hblank as [-> Hblank]. simpl. by apply IH.
Qed.

(** ** The judge *)

Lemma in_place_nonneg letter answer guess : 0 ≤ in_place letter answer guess.
Proof.
  revert guess. induction answer as [|a answer IH]; intros [|g guess];
    simpl; try done. specialize (IH guess). case_decide; lia.
Qed.

Lemma out_of_place_nonneg letter answer guess :
  0 ≤ out_of_place letter answer guess.
Proof.
  revert guess. induction answer as [|a answer IH]; intros [|g guess];
    simpl; try done. specialize (IH guess). case_decide; lia.
Qed.

Lemma Counter_remove_one g pool letter :
  Counter (remove_one g pool) letter =
  Counter pool letter - (if decide (g = letter ∧ g ∈ pool) then 1 else 0).
Proof.
  induction pool as [|c rest IH]; simpl.
  - rewrite decide_False; [done|]. intros [_ ?%elem_of_nil]. done.
  - destruct (decide (c = g)) as [->|Hne].
    + destruct (decide (g = letter)) as [->|Hl].
      * rewrite decide_True; [lia|]. split; [done|left].
      * rewrite decide_False by naive_solver. lia.
    + simpl. rewrite IH.
      destruct (decide (g = letter ∧ g ∈ rest)) as [[-> Hin]|Hno].
      * rewrite (decide_True (P := letter = letter ∧ letter ∈ c :: rest));
          [lia|]. split; [done|by right].
      * rewrite (decide_False (P := g = letter ∧ g ∈ c :: rest)); [lia|].
        intros [-> [?|?]%elem_of_cons]; [done|]. by apply Hno.
Qed.

Lemma Counter_unmatched answer guess letter :
  length answer = length guess →
  Counter (unmatched answer guess) letter =
  Counter answer letter - in_place letter answer guess.
Proof.
  revert guess. induction answer as [|a answer IH]; intros [|g guess] Hlen;
    simplify_eq/=; [done|].
  specialize (IH guess Hlen).
  destruct (decide (a = g)) as [->|Hne]; simpl; rewrite IH;
    repeat case_decide; try lia; exfalso; intuition congruence.
Qed.

Lemma Counter_in_out answer guess letter :
  length answer = length guess →
  Counter guess letter =
  in_place letter answer guess + out_of_place letter answer guess.
Proof.
  revert guess. induction answer as [|a answer IH]; intros [|g guess] Hlen;
    simplify_eq/=; [done|].
  rewrite (IH guess Hlen).
  repeat case_decide; try lia; exfalso;
    destruct (decide (g = a)); intuition congruence.
Qed.

Lemma judge_from_counts pool answer guess letter :
  let fb := zip guess (judge_from pool answer guess) in
  let yellow := Z.min (Counter pool letter) (out_of_place letter answer guess) in
  count_pairs is_correctish letter fb = in_place letter answer guess + yellow ∧
  count_pairs is_incorrect letter fb = out_of_place letter answer guess - yellow.
Proof.
  revert pool guess. induction answer as [|a answer IH]; intros pool [|g guess];
    cbn zeta; cbn [judge_from in_place out_of_place zip zip_with];
    rewrite ?count_pairs_nil; try (pose proof (Counter_nonneg pool letter); lia).
  pose proof (Counter_nonneg pool letter) as Hpool.
  pose proof (out_of_place_nonneg letter answer guess) as Hout.
  destruct (decide (g = a)) as [->|Hne].
  - cbn [zip_with]. rewrite !count_pairs_cons. cbn [is_correctish is_incorrect].
    destruct (IH pool guess) as [-> ->].
    repeat case_decide; try lia; exfalso; intuition congruence.
  - destruct (decide (g ∈ pool)) as [Hin|Hnin].
    + cbn [zip_with]. rewrite !count_pairs_cons.
      cbn [is_correctish is_incorrect].
      destruct (IH (remove_one g pool) guess) as [-> ->].
      rewrite Counter_remove_one.
      apply Counter_pos in Hin.
      destruct (decide (g = letter)) as [->|Hl].
      * rewrite (decide_True (P := letter = letter ∧ letter ∈ pool))
          by (split; [done|by apply Counter_pos]).
        repeat case_decide; try lia; exfalso; intuition congruence.
      * rewrite (decide_False (P := g = letter ∧ g ∈ pool)) by naive_solver.
        repeat case_decide; try lia; exfalso; intuition congruence.
    + cbn [zip_with]. rewrite !count_pairs_cons.
      cbn [is_correctish is_incorrect].
      destruct (IH pool guess) as [-> ->].
      destruct (decide (g = letter)) as [->|Hl].
      * assert (Counter pool letter = 0) as Hzero.
        { destruct (decide (0 < Counter pool letter)) as [Hpos|?]; [|lia].
          by apply Counter_pos in Hpos. }
        rewrite Hzero.
        repeat case_decide; try lia; exfalso; intuition congruence.
      * repeat case_decide; try lia; exfalso; intuition congruence.
Qed.

Lemma judge_correctish answer guess letter :
  length answer = length guess →
  correctish_count guess (judge answer guess) letter =
  Z.min (Counter guess letter) (Counter answer letter).
Proof.
  intros Hlen. unfold correctish_count, judge.
  destruct (judge_from_counts (unmatched answer guess) answer guess letter)
    as [-> _].
  rewrite (Counter_unmatched _ _ _ Hlen), (Counter_in_out answer guess _ Hlen).
  lia.
Qed.

Lemma judge_incorrect answer guess letter :
  length answer = length guess →
  incorrect_count guess (judge answer guess) letter =
  Counter guess letter - Z.min (Counter guess letter) (Counter answer letter).
Proof.
  intros Hlen. unfold incorrect_count, judge.
  destruct (judge_from_counts (unmatched answer guess) answer guess letter)
    as [_ ->].
  rewrite (Counter_unmatched _ _ _ Hlen), (Counter_in_out answer guess _ Hlen).
  lia.
Qed.

Lemma judge_from_lookup pool answer guess i res :
  judge_from pool answer guess !! i = Some res →
  ∃ g a, guess !! i = Some g ∧ answer !! i = Some a ∧
         ((res = CORRECT ∧ g = a) ∨
          ((res = MISPLACED ∨ res = INCORRECT) ∧ g ≠ a)).
Proof.
  revert pool guess i. induction answer as [|a answer IH];
    intros pool [|g guess] i H; simpl in H; try done.
  destruct (decide (g = a)) as [->|Hne].
  - destruct i as [|i]; simplify_eq/=; [naive_solver|]. by eapply IH.
  - destruct (decide (g ∈ pool)).
    + destruct i as [|i]; simplify_eq/=; [naive_solver|]. by eapply IH.
    + destruct i as [|i]; simplify_eq/=; [naive_solver|]. by eapply IH.
Qed.

Lemma judge_from_length pool answer guess :
  length answer = length guess →
  length (judge_from pool answer guess) = length guess.
Proof.
  revert pool guess. induction answer as [|a answer IH];
    intros pool [|g guess] Hlen; simplify_eq/=; [done|].
  repeat case_decide; simpl; f_equal; by apply IH.
Qed.

(** ** The answer survives *)

Lemma process_feedback_fits answer self guess self' :
  length answer = length guess →
  answer_fits answer self →
  process_feedback self guess (judge answer guess) = Ok self' →
  answer_fits answer self'.
Proof.
  intros Hlen (Hag & Hav & Hin) H.
  destruct (process_feedback_Ok _ _ _ _ H) as (_ & _ & Hlc & Hml & _ & Hcl).
  split_and!.
  - intros i l Hi. destruct (Hcl i) as [(l' & Hg & Hf & Hl)|[_ Hl]].
    + apply judge_from_lookup in Hf as (g & a & Hg' & Ha & Hres).
      destruct Hres as [[_ ->]|[[?|?] _]]; [|done..]. congruence.
    + apply Hag. by rewrite <- Hl.
  - intros i l Hi. rewrite Hml. intros [Hold|(res & Hg & Hf & Hres)].
    + by apply (Hav i l).
    + apply judge_from_lookup in Hf as (g & a & Hg' & Ha & Hjudge).
      destruct Hjudge as [[-> _]|[_ Hne]]; [naive_solver|]. congruence.
  - intros l lo hi Hb. rewrite Hlc in Hb.
    destruct (letter_counts self !! l) as [[lo0 hi0]|] eqn:Hb0; [|done].
    specialize (Hin _ _ _ Hb0). simpl in Hb. unfold bounds_after in Hb.
    rewrite judge_correctish, judge_incorrect, guess_occurrences_Counter in Hb
      by done.
    simplify_eq/=. repeat case_decide; lia.
Qed.

Lemma any_count_outside_true lc items :
  any_count_outside lc items = Ok true →
  ∃ letter count lo hi,
    (letter, count) ∈ items ∧ lc !! letter = Some (lo, hi) ∧
    ¬ (lo ≤ count ≤ hi).
Proof.
  induction items as [|[l c] rest IH]; intros H; simpl in H; [done|].
  inv_bind H. apply dict_get_Ok in Ha. destruct a as [lo hi]; simpl in *.
  case_decide as Hout.
  - exists l, c, lo, hi. split_and!; [left|done|done].
  - destruct (IH H) as (l' & c' & lo' & hi' & ? & ? & ?).
    exists l', c', lo', hi'. split_and!; [by right|done|done].
Qed.

Lemma keeps_fitting answer self b :
  answer_fits answer self → keeps self answer = Ok b → b = true.
Proof.
  intros (Hag & Hav & Hin) H. unfold keeps in H. inv_bind H.
  apply any_correct_differs_agrees in Ha.
  destruct a; [by apply Ha in Hag|].
  apply any_misplaced_avoids in Hav. rewrite Hav in H.
  inv_bind H. destruct a.
  { apply any_count_outside_true in Ha0
      as (l & c & lo & hi & [_ ->]%elem_of_Counter_items & Hb & Hout).
    destruct Hout. by eapply Hin. }
  apply any_bound_violated_false in Hin. rewrite Hin in H. by simplify_eq.
Qed.

Lemma filter_words_fits answer self self' :
  answer ∈ words self → answer_fits answer self →
  filter_words self = Ok self' →
  answer ∈ words self' ∧ answer_fits answer self'.
Proof.
  intros Hin Hfits H.
  destruct (filter_words_Ok _ _ H) as (_ & Hcl & Hml & Hlc & Htot & Hw).
  split.
  - apply Hw. split; [done|]. destruct (Htot _ Hin) as [b Hb].
    apply (keeps_Ok _ _ _ Hb). by eapply keeps_fitting.
  - unfold answer_fits. by rewrite Hcl, Hml, Hlc.
Qed.

Lemma retighten_fits answer self self' :
  answer ∈ words self → answer_fits answer self →
  retighten self = Ok self' →
  answer ∈ words self' ∧ answer_fits answer self'.
Proof.
  intros Hin (Hag & Hav & Hb) H.
  destruct (retighten_Ok _ _ H) as (_ & Hws & Hcl & Hml & _).
  split; [by rewrite Hws|]. unfold answer_fits. rewrite Hcl, Hml.
  split_and!; [done..|]. by eapply retighten_in_bounds.
Qed.

Lemma round_fits answer self guess self' :
  length answer = length guess →
  answer ∈ words self → answer_fits answer self →
  round self guess (judge answer guess) = Ok self' →
  answer ∈ words self' ∧ answer_fits answer self'.
Proof.
  intros Hlen Hin Hfits (self1 & self2 & H1 & H2 & H3)%round_Ok.
  destruct (process_feedback_Ok _ _ _ _ H1) as (_ & Hws & _).
  apply (process_feedback_fits _ _ _ _ Hlen Hfits) in H1.
  rewrite <- Hws in Hin.
  destruct (filter_words_fits _ _ _ Hin H1 H2) as [Hin2 Hfits2].
  by eapply retighten_fits.
Qed.

Lemma init_fits (n : nat) (dictionary : gset (list ascii))
    (answer : list ascii) :
  answer ∈ dictionary → answer_fits answer (init n dictionary).
Proof.
  intros Hin. split_and!.
  - intros i l. rewrite init_correct_letters.
    intros [? _]%lookup_replicate. done.
  - intros i l _. rewrite init_misplaced_letters. unfold offsets_of.
    rewrite lookup_empty. set_solver.
  - by apply init_in_bounds.
Qed.

Lemma play_fits answer guesses self self' :
  Forall (λ guess, length guess = length answer) guesses →
  answer ∈ words self → answer_fits answer self →
  play answer guesses self = Ok self' →
  answer ∈ words self' ∧ answer_fits answer self'.
Proof.
  intros Hlen. revert self.
  induction Hlen as [|guess rest Hg _ IH]; intros self Hin Hfits H;
    simpl in H.
  - by simplify_eq.
  - inv_bind H. destruct (round_fits _ _ _ _ (eq_sym Hg) Hin Hfits Ha).
    by eapply IH.
Qed.

(** ** Runs that cannot raise *)

Lemma lowercase_has_bounds (lc : gmap ascii (Z * Z)) (W : list ascii) :
  alphabet_keys lc → lowercase W →
  Forall (λ letter, is_Some (lc !! letter)) W.
Proof.
  intros Hkeys Hlow. pose proof (proj1 (alphabet_keys_spec lc) Hkeys) as Hk.
  eapply Forall_impl; [exact Hlow|]. intros c Hc. by apply Hk.
Qed.

Lemma alphabet_keys_same (lc lc' : gmap ascii (Z * Z)) :
  (∀ l, is_Some (lc' !! l) ↔ is_Some (lc !! l)) →
  alphabet_keys lc → alphabet_keys lc'.
Proof.
  intros Hsame Hkeys. apply alphabet_keys_spec. intros l.
  rewrite Hsame. by apply alphabet_keys_spec.
Qed.

Lemma process_feedback_sound n self guess feedback :
  sound_state n self → length guess = n → lowercase guess →
  ∃ self', process_feedback self guess feedback = Ok self' ∧
           sound_state n self'.
Proof.
  intros (Hcl & Hkeys & Hws) Hlen Hlow.
  destruct (process_feedback_total self guess feedback) as [self' H].
  { split; [lia|]. by apply lowercase_has_bounds. }
  exists self'. split; [done|].
  destruct (process_feedback_Ok _ _ _ _ H) as (_ & Hws' & Hlc & _ & Hcl' & _).
  split_and!.
  - congruence.
  - eapply alphabet_keys_same; [|done]. intros l. rewrite Hlc.
    apply fmap_is_Some.
  - by rewrite Hws'.
Qed.

Lemma filter_words_sound n self :
  sound_state n self →
  ∃ self', filter_words self = Ok self' ∧ sound_state n self'.
Proof.
  intros (Hcl & Hkeys & Hws).
  destruct (filter_words_total self) as [self' H].
  { intros W HW. destruct (Hws W HW) as [HlenW Hlow].
    split; [lia|]. by apply lowercase_has_bounds. }
  exists self'. split; [done|].
  destruct (filter_words_Ok _ _ H) as (_ & Hcl' & _ & Hlc & _ & Hw).
  split_and!.
  - congruence.
  - by rewrite Hlc.
  - intros W HW. apply Hws. by apply Hw in HW as [? _].
Qed.

Lemma retighten_sound n self :
  sound_state n self →
  ∃ self', retighten self = Ok self' ∧ sound_state n self'.
Proof.
  intros (Hcl & Hkeys & Hws).
  destruct (retighten_total self) as [self' H].
  { intros l. by apply alphabet_keys_spec. }
  exists self'. split; [done|].
  destruct (retighten_Ok _ _ H) as (_ & Hws' & Hcl' & _ & Hdom & Hlc).
  split_and!.
  - congruence.
  - eapply alphabet_keys_same; [|done]. intros l. rewrite Hlc. split.
    + destruct (letter_counts self !! l); [by eexists|]. by intros [? ?].
    + intros Hsome. destruct (Hdom l Hsome) as [[lo ->] [hi ->]].
      destruct Hsome as [b ->]. by eexists.
  - by rewrite Hws'.
Qed.

Lemma round_sound n self guess feedback :
  sound_state n self → length guess = n → lowercase guess →
  ∃ self', round self guess feedback = Ok self' ∧ sound_state n self'.
Proof.
  intros Hs Hlen Hlow. unfold round.
  destruct (process_feedback_sound n self guess feedback Hs Hlen Hlow)
    as (self1 & -> & Hs1). simpl.
  destruct (filter_words_sound n self1 Hs1) as (self2 & -> & Hs2). simpl.
  by apply retighten_sound.
Qed.

Lemma init_sound (n : nat) (dictionary : gset (list ascii)) :
  set_Forall (λ W, length W = n ∧ lowercase W) dictionary →
  sound_state n (init n dictionary).
Proof.
  intros Hws. split_and!.
  - by rewrite init_correct_letters, length_replicate.
  - apply init_alphabet_keys.
  - by rewrite init_words.
Qed.

Lemma play_total n answer guesses self :
  sound_state n self →
  Forall (λ guess, length guess = n ∧ lowercase guess) guesses →
  is_Ok (play answer guesses self).
Proof.
  intros Hs Hg. revert self Hs.
  induction Hg as [|guess rest [Hlen Hlow] _ IH]; intros self Hs; simpl.
  - apply is_Ok_Ok.
  - destruct (round_sound n self guess (judge answer guess) Hs Hlen Hlow)
      as (self' & -> & Hs'). simpl. by apply IH.
Qed.

(** ** The order of iteration

    Python visits a set in an order of its own and a dict in the order of
    insertion; [set_fold] and [map_fold] visit in the order of [elements]
    and [map_to_list].  The loops of the store give the same result in
    every order. *)

Global Instance same_outcome_preorder {A} : PreOrder (@same_outcome A).
Proof.
  split.
  - by intros [a|e].
  - intros [a1|e1] [a2|e2] [a3|e3]; simpl; try done. congruence.
Qed.

Lemma repeats_of_letters_lookup (word visited : list ascii)
    (acc : gmap ascii Z * gmap ascii Z) (l : ascii) :
  let after :=
    foldl (λ '(min_repeats, max_repeats) letter,
             (alter (λ m, Z.min m (Counter word letter)) letter min_repeats,
              alter (λ m, Z.max m (Counter word letter)) letter max_repeats))
          acc visited in
  after.1 !! l =
    (if decide (l ∈ visited)
     then (λ m, Z.min m (Counter word l)) <$> acc.1 !! l else acc.1 !! l) ∧
  after.2 !! l =
    (if decide (l ∈ visited)
     then (λ m, Z.max m (Counter word l)) <$> acc.2 !! l else acc.2 !! l).
Proof.
  cbn zeta. induction visited as [|c rest IH] using rev_ind.
  - cbn [foldl]. by rewrite !(decide_False (P := l ∈ [])) by set_solver.
  - rewrite foldl_app. cbn [foldl].
    destruct (foldl _ acc rest) as [mn mx] eqn:Hfold. cbn [fst snd] in *.
    destruct IH as [IH1 IH2].
    destruct (decide (c = l)) as [->|Hne].
    + rewrite !lookup_alter_eq, IH1, IH2.
      rewrite !(decide_True (P := l ∈ rest ++ [l])) by set_solver.
      case_decide; destruct (acc.1 !! l), (acc.2 !! l); simpl;
        split; try done; apply (f_equal Some); lia.
    + rewrite !lookup_alter_ne, IH1, IH2 by done.
      destruct (decide (l ∈ rest)).
      * by rewrite !(decide_True (P := l ∈ rest ++ [c])) by set_solver.
      * by rewrite !(decide_False (P := l ∈ rest ++ [c])) by set_solver.
Qed.

Lemma repeats_of_word_comm (w1 w2 : list ascii)
    (acc : gmap ascii Z * gmap ascii Z) :
  repeats_of_word w1 (repeats_of_word w2 acc) =
  repeats_of_word w2 (repeats_of_word w1 acc).
Proof.
  assert (∀ p q : gmap ascii Z * gmap ascii Z,
            p.1 = q.1 → p.2 = q.2 → p = q) as Hpair.
  { intros [] []; simpl; congruence. }
  unfold repeats_of_word. apply Hpair; apply map_eq; intros l.
  - rewrite !(proj1 (repeats_of_letters_lookup _ _ _ l)).
    case_decide; [|done].
    destruct (acc.1 !! l); simpl; [apply (f_equal Some); lia|done].
  - rewrite !(proj2 (repeats_of_letters_lookup _ _ _ l)).
    case_decide; [|done].
    destruct (acc.2 !! l); simpl; [apply (f_equal Some); lia|done].
Qed.

Lemma find_min_max_letter_repeats_any_order (ws : gset (list ascii))
    (visited : list (list ascii)) :
  visited ≡ₚ elements ws →
  foldr repeats_of_word
    (list_to_map ((λ letter, (letter, 999)) <$> ascii_lowercase),
     list_to_map ((λ letter, (letter, 0)) <$> ascii_lowercase))
    visited
  = find_min_max_letter_repeats ws.
Proof.
  intros Hperm. unfold find_min_max_letter_repeats, set_fold, compose.
  exact (foldr_permutation_proper (=) repeats_of_word _
           (λ w1 w2 acc, repeats_of_word_comm w1 w2 acc) _ _ Hperm).
Qed.

Lemma filter_step_comm (self : WordleSolver) (w1 w2 : list ascii)
    (acc : result (gset (list ascii))) :
  same_outcome (filter_step self w1 (filter_step self w2 acc))
               (filter_step self w2 (filter_step self w1 acc)).
Proof.
  unfold filter_step. destruct acc as [new|e]; simpl; [|done].
  destruct (keeps self w1) as [[]|e1], (keeps self w2) as [[]|e2];
    simpl; try done. set_solver.
Qed.

Lemma filter_words_any_order (self : WordleSolver)
    (visited : list (list ascii)) :
  visited ≡ₚ elements (words self) →
  same_outcome (foldr (filter_step self) (Ok ∅) visited)
               (set_fold (filter_step self) (Ok ∅) (words self)).
Proof.
  intros Hperm. unfold set_fold, compose.
  assert (∀ w, Proper (same_outcome ==> same_outcome) (filter_step self w))
    as Hproper.
  { intros w [a1|e1] [a2|e2] Hsame; simpl in *; try done. by subst. }
  exact (foldr_permutation_proper same_outcome (filter_step self) _
           (λ w1 w2 acc, filter_step_comm self w1 w2 acc) _ _ Hperm).
Qed.

Lemma bounds_step_comm
    (step : ascii → Z → result (gmap ascii (Z * Z)) →
            result (gmap ascii (Z * Z)))
    (f : ascii → Z → Z * Z → Z * Z) k1 c1 k2 c2 acc :
  (∀ letter count acc, step letter count acc =
     (lc' ← acc; bounds ← dict_get lc' letter;
      Ok (<[letter := f letter count bounds]> lc'))) →
  k1 ≠ k2 →
  step k1 c1 (step k2 c2 acc) = step k2 c2 (step k1 c1 acc).
Proof.
  intros Hstep Hne. rewrite !Hstep. destruct acc as [lc|e]; simpl; [|done].
  unfold dict_get.
  destruct (lc !! k1) as [b1|] eqn:H1, (lc !! k2) as [b2|] eqn:H2; simpl;
    rewrite ?lookup_insert_ne by done; rewrite ?H1, ?H2; simpl; try done.
  by rewrite insert_insert_ne.
Qed.

Lemma bounds_loop_any_order
    (step : ascii → Z → result (gmap ascii (Z * Z)) →
            result (gmap ascii (Z * Z)))
    (f : ascii → Z → Z * Z → Z * Z) (lc : gmap ascii (Z * Z))
    (counts : gmap ascii Z) (visited : list (ascii * Z)) :
  (∀ letter count acc, step letter count acc =
     (lc' ← acc; bounds ← dict_get lc' letter;
      Ok (<[letter := f letter count bounds]> lc'))) →
  visited ≡ₚ map_to_list counts →
  foldr (uncurry step) (Ok lc) visited = map_fold step (Ok lc) counts.
Proof.
  intros Hstep Hperm. rewrite map_fold_foldr. symmetry.
  apply (foldr_permutation (=) (uncurry step));
    [by intros x ?? ->| |by symmetry].
  intros j1 [k1 c1] j2 [k2 c2] acc Hj H1 H2. simpl.
  apply (bounds_step_comm step f); [done|]. intros ->.
  apply Hj. eapply (NoDup_lookup (map_to_list counts).*1).
  - apply NoDup_fst_map_to_list.
  - by rewrite list_lookup_fmap, H1.
  - by rewrite list_lookup_fmap, H2.
Qed.

Lemma raise_min_any_order lc counts visited :
  visited ≡ₚ map_to_list counts →
  foldr (uncurry raise_min) (Ok lc) visited
  = map_fold raise_min (Ok lc) counts.
Proof.
  apply (bounds_loop_any_order raise_min
           (λ _ count b, (Z.max count b.1, b.2))). done.
Qed.

Lemma lower_max_any_order guess lc counts visited :
  visited ≡ₚ map_to_list counts →
  foldr (uncurry (lower_max guess)) (Ok lc) visited
  = map_fold (lower_max guess) (Ok lc) counts.
Proof.
  apply (bounds_loop_any_order (lower_max guess)
           (λ l count b, (b.1, Z.min (Counter guess l - count) b.2))). done.
Qed.

Lemma retighten_step_comm mn mx k1 b1 k2 b2 acc :
  k1 ≠ k2 →
  retighten_step mn mx k1 b1 (retighten_step mn mx k2 b2 acc) =
  retighten_step mn mx k2 b2 (retighten_step mn mx k1 b1 acc).
Proof.
  intros Hne. unfold retighten_step, dict_get.
  destruct acc as [lc|e]; simpl; [|done].
  destruct (mn !! k1), (mx !! k1), (mn !! k2), (mx !! k2); simpl; try done.
  by rewrite insert_insert_ne.
Qed.

Lemma retighten_any_order mn mx (lc : gmap ascii (Z * Z))
    (visited : list (ascii * (Z * Z))) :
  visited ≡ₚ map_to_list lc →
  foldr (uncurry (retighten_step mn mx)) (Ok ∅) visited
  = map_fold (retighten_step mn mx) (Ok ∅) lc.
Proof.
  intros Hperm. rewrite map_fold_foldr. symmetry.
  apply (foldr_permutation (=) (uncurry (retighten_step mn mx)));
    [by intros x ?? ->| |by symmetry].
  intros j1 [k1 b1] j2 [k2 b2] acc Hj H1 H2. simpl.
  apply retighten_step_comm. intros ->.
  apply Hj. eapply (NoDup_lookup (map_to_list lc).*1).
  - apply NoDup_fst_map_to_list.
  - by rewrite list_lookup_fmap, H1.
  - by rewrite list_lookup_fmap, H2.
Qed.

(** * The properties of the specification *)

(** C2: on a store whose bounds are keyed by the alphabet, [filter_words]
    retains exactly the words W of the candidate set such that (1) W agrees
    with every set entry of [correct_letters], (2) no position of W carries
    a letter forbidden there, (3) every letter occurring in W has a count
    within its bounds, and (4) every letter of the alphabet, also one absent
    from W and so with count 0, has a count within its bounds.  The call
    returns when every candidate is as long as [correct_letters] and made of
    letters that have bounds. *)
Theorem filter_words_retains_exactly (self : WordleSolver) :
  alphabet_keys (letter_counts self) →
  (filter_ready self → is_Ok (filter_words self)) ∧
  ∀ self', filter_words self = Ok self' →
    ∀ W, W ∈ words self' ↔
      W ∈ words self ∧
      agrees_with_correct (correct_letters self) W ∧
      avoids_forbidden (misplaced_letters self) W ∧
      own_letters_in_bounds (letter_counts self) W ∧
      alphabet_in_bounds (letter_counts self) W.
Proof.
  intros Hkeys. split; [apply filter_words_total|].
  intros self' H W.
  destruct (filter_words_Ok _ _ H) as (_ & _ & _ & _ & _ & ->).
  unfold retained. by rewrite all_letters_in_bounds_alphabet.
Qed.

Lemma filter_words_retains_exactly_witness :
  is_Ok (filter_words after_crane) ∧
  ∀ self', filter_words after_crane = Ok self' →
    ∀ W, W ∈ words self' ↔
      W ∈ words after_crane ∧
      agrees_with_correct (correct_letters after_crane) W ∧
      avoids_forbidden (misplaced_letters after_crane) W ∧
      own_letters_in_bounds (letter_counts after_crane) W ∧
      alphabet_in_bounds (letter_counts after_crane) W.
Proof.
  destruct (filter_words_retains_exactly after_crane) as [Htot Hspec].
  - vm_compute. reflexivity.
  - split; [|exact Hspec]. apply Htot.
    apply (bool_decide_unpack _). vm_compute. exact I.
Defined.

(** C4: the candidate set that [filter_words] leaves is a subset of the one
    it was given, so it has at most as many words.  The call returns when
    every candidate is as long as [correct_letters] and made of letters
    that have bounds. *)
Theorem filter_words_shrinks (self : WordleSolver) :
  (filter_ready self → is_Ok (filter_words self)) ∧
  ∀ self', filter_words self = Ok self' →
    words self' ⊆ words self ∧
    (size (words self') ≤ size (words self))%nat.
Proof.
  split; [apply filter_words_total|]. intros self' H.
  destruct (filter_words_Ok _ _ H) as (_ & _ & _ & _ & _ & Hw).
  assert (words self' ⊆ words self) as Hsub.
  { intros W HW. by apply Hw in HW as [? _]. }
  split; [done|]. by apply subseteq_size.
Qed.

Lemma filter_words_shrinks_witness :
  ∃ self', filter_words after_slate = Ok self' ∧
    words self' ⊆ words after_slate ∧
    (size (words self') ≤ size (words after_slate))%nat.
Proof.
  destruct (filter_words_shrinks after_slate) as [Htot Hsub].
  destruct Htot as [self' H].
  - apply (bool_decide_unpack _). vm_compute. exact I.
  - exists self'. split; [exact H|]. apply Hsub, H.
Defined.

(** C9: filtering an already filtered candidate set with the same store is
    a no-op: a second [filter_words] returns, and returns the state that the
    first one left. *)
Theorem filter_words_idempotent (self self' : WordleSolver) :
  filter_words self = Ok self' → filter_words self' = Ok self'.
Proof. apply filter_words_again. Qed.

Lemma filter_words_idempotent_witness :
  filter_words after_slate = Ok after_slate_filtered ∧
  filter_words after_slate_filtered = Ok after_slate_filtered.
Proof.
  assert (filter_words after_slate = Ok after_slate_filtered) as H.
  { vm_compute. reflexivity. }
  split; [exact H|]. exact (filter_words_idempotent _ _ H).
Defined.

(** C3: for a guess and a feedback of the same length, [process_feedback]
    leaves every letter with the bounds that the totals of the round give:
    with C the number of positions where the letter is marked [MISPLACED]
    or [CORRECT] and K the number where it is marked [INCORRECT], both
    counted over the whole guess, the minimum is [max lo C] when C is not 0
    and the maximum is [min hi (occurrences in the guess - K)] when K is
    not 0; a zero count leaves its bound alone.  The formula is the same
    for a letter that occurs several times with mixed feedback.  The call
    returns when the guess is no longer than [correct_letters] and made of
    letters that have bounds. *)
Theorem process_feedback_applies_totals (self : WordleSolver)
    (guess : list ascii) (feedback : list GuessState) :
  length guess = length feedback →
  (feedback_ready self guess →
   is_Ok (process_feedback self guess feedback)) ∧
  ∀ self', process_feedback self guess feedback = Ok self' →
    ∀ letter lo hi, letter_counts self !! letter = Some (lo, hi) →
      let C := correctish_count guess feedback letter in
      let K := incorrect_count guess feedback letter in
      letter_counts self' !! letter =
        Some (if decide (C = 0) then lo else Z.max lo C,
              if decide (K = 0) then hi
              else Z.min hi (guess_occurrences guess letter - K)).
Proof.
  intros _. split; [apply process_feedback_total|].
  intros self' H letter lo hi Hb.
  destruct (process_feedback_Ok _ _ _ _ H) as (_ & _ & Hlc & _).
  by rewrite Hlc, Hb.
Qed.

Lemma process_feedback_applies_totals_witness :
  ∃ self',
    process_feedback (init 5 three_words) (str "slate")
      [INCORRECT; INCORRECT; CORRECT; MISPLACED; CORRECT] = Ok self' ∧
    letter_counts self' !! "t"%char = Some (1, 1) ∧
    letter_counts self' !! "s"%char = Some (0, 0).
Proof.
  destruct (process_feedback_applies_totals (init 5 three_words)
              (str "slate")
              [INCORRECT; INCORRECT; CORRECT; MISPLACED; CORRECT] eq_refl)
    as [Htot Hspec].
  destruct Htot as [self' H].
  - apply (bool_decide_unpack _). vm_compute. exact I.
  - exists self'. split; [exact H|]. split.
    + apply (Hspec self' H "t"%char 0 1). vm_compute. reflexivity.
    + apply (Hspec self' H "s"%char 0 1). vm_compute. reflexivity.
Defined.

(** C5: the bounds only tighten.  After [process_feedback], after the
    re-tightening that ends an iteration of the solve loop, and so after a
    whole iteration, every letter that had bounds [lo, hi] has bounds
    [lo', hi'] with [lo <= lo'] and [hi' <= hi]. *)
Theorem bounds_only_tighten :
  (∀ self guess feedback self',
     process_feedback self guess feedback = Ok self' →
     tightened (letter_counts self) (letter_counts self')) ∧
  (∀ self self',
     retighten self = Ok self' →
     tightened (letter_counts self) (letter_counts self')) ∧
  (∀ self guess feedback self',
     round self guess feedback = Ok self' →
     tightened (letter_counts self) (letter_counts self')).
Proof.
  split_and!.
  - apply process_feedback_tightened.
  - apply retighten_tightened.
  - apply round_tightened.
Qed.

Lemma bounds_only_tighten_witness :
  ∃ self1 self2,
    process_feedback (init 5 three_words) (str "slate")
      [INCORRECT; INCORRECT; CORRECT; MISPLACED; CORRECT] = Ok self1 ∧
    tightened (letter_counts (init 5 three_words)) (letter_counts self1) ∧
    retighten after_slate_filtered = Ok self2 ∧
    tightened (letter_counts after_slate_filtered) (letter_counts self2).
Proof.
  destruct bounds_only_tighten as (Hpf & Hrt & _).
  assert (is_Ok (process_feedback (init 5 three_words) (str "slate")
            [INCORRECT; INCORRECT; CORRECT; MISPLACED; CORRECT]))
    as [self1 H1].
  { vm_compute. eexists. reflexivity. }
  assert (is_Ok (retighten after_slate_filtered)) as [self2 H2].
  { vm_compute. eexists. reflexivity. }
  exists self1, self2. split_and!.
  - exact H1.
  - exact (Hpf _ _ _ _ H1).
  - exact H2.
  - exact (Hrt _ _ H2).
Defined.

(** C6, as stated, fails: a later [process_feedback] whose guess has
    another letter marked [CORRECT] at the position overwrites the entry.
    Here position 0 is set to [a] by the guess [ab] and then to [c] by the
    guess [cb]. *)
Lemma correct_letter_overwritten :
  process_feedback (init 2 ab_cb) (str "ab") [CORRECT; INCORRECT]
    = Ok ab_marked ∧
  correct_letters ab_marked !! 0%nat = Some (Some "a"%char) ∧
  process_feedback ab_marked (str "cb") [CORRECT; INCORRECT]
    = Ok cb_marked ∧
  correct_letters cb_marked !! 0%nat = Some (Some "c"%char) ∧
  correct_letters cb_marked !! 0%nat ≠ Some (Some "a"%char).
Proof. split_and!; vm_compute; first [reflexivity | discriminate]. Qed.

(** C6, amended: once [correct_letters] at a position is set, no later
    [process_feedback] unsets it, whatever the guesses and feedbacks; it
    keeps its letter through every later call whose guess, where the
    feedback marks that position [CORRECT], has that letter there.  In the
    solve loop that is every call: after an iteration every candidate agrees
    with the set entries, each later guess is a candidate, and so the entry
    keeps its letter through all later iterations. *)
Theorem correct_letter_stays_set :
  (∀ self rounds self' i letter,
     correct_letters self !! i = Some (Some letter) →
     feed self rounds = Ok self' →
     (∃ letter', correct_letters self' !! i = Some (Some letter')) ∧
     ((∀ guess feedback, (guess, feedback) ∈ rounds →
         feedback !! i = Some CORRECT → guess !! i = Some letter) →
      correct_letters self' !! i = Some (Some letter))) ∧
  (∀ self0 guess feedback self self' i letter,
     round self0 guess feedback = Ok self →
     correct_letters self !! i = Some (Some letter) →
     loop_rounds self self' →
     correct_letters self' !! i = Some (Some letter)).
Proof.
  split.
  - intros self rounds self' i letter Hi H. split.
    + by eapply feed_correct_set.
    + intros Hsame. by eapply feed_correct_same.
  - intros self0 guess feedback self self' i letter Hr Hi Hloop.
    apply (loop_rounds_correct_same self self' i letter Hloop); [|done].
    by eapply round_candidates_agree.
Qed.

Lemma correct_letter_stays_set_witness :
  correct_letters cb_marked !! 0%nat = Some (Some "c"%char) ∧
  correct_letters after_trace_round !! 2%nat = Some (Some "a"%char).
Proof.
  destruct correct_letter_stays_set as [Hfeed Hloop]. split.
  - destruct (Hfeed ab_marked [(str "cb", [CORRECT; INCORRECT])] cb_marked
               0%nat "a"%char) as [[letter' Hset] _].
    + vm_compute. reflexivity.
    + vm_compute. reflexivity.
    + rewrite Hset. revert Hset. vm_compute. done.
  - apply (Hloop (init 5 three_words) (str "slate")
             [INCORRECT; INCORRECT; CORRECT; MISPLACED; CORRECT]
             after_slate_round).
    + vm_compute. reflexivity.
    + vm_compute. reflexivity.
    + apply (loop_rounds_step _ (str "trace")
               [MISPLACED; INCORRECT; CORRECT; UNKNOWN; CORRECT]
               after_trace_round).
      * apply (bool_decide_unpack _). vm_compute. exact I.
      * vm_compute. reflexivity.
      * apply loop_rounds_refl.
Defined.

(** C7, as stated, fails: the new maximum is the smaller of the old maximum
    and 1, so it is below 1 when the old maximum already was.  Here a first
    feedback leaves [e] with the maximum 0, and the second call, with one [e]
    of [eel] marked [CORRECT] and the other [INCORRECT], leaves the bounds
    [1, 0]. *)
Lemma twice_guessed_letter_max_below_one :
  process_feedback (init 3 eel_dog) (str "eel")
    [INCORRECT; INCORRECT; INCORRECT] = Ok eel_absent ∧
  process_feedback eel_absent (str "eel")
    [CORRECT; INCORRECT; INCORRECT] = Ok eel_again ∧
  guess_occurrences (str "eel") "e"%char = 2 ∧
  letter_counts eel_again !! "e"%char = Some (1, 0) ∧
  snd <$> letter_counts eel_again !! "e"%char ≠ Some 1.
Proof. split_and!; vm_compute; first [reflexivity | discriminate]. Qed.

(** C7, amended: for a guess that contains a letter exactly twice, one
    occurrence marked [CORRECT] and the other [INCORRECT], the round's
    counts for the letter are 1 and 1, and after [process_feedback] the
    letter's maximum is the smaller of its old maximum and (occurrences in
    the guess - incorrect count) = 1, and its minimum is at least 1.  When
    the old maximum is at least 1 the new maximum is 1 and the count is
    pinned to exactly 1; that is so at every call the solve loop makes,
    where the guess is a candidate and every candidate is within the
    bounds. *)
Theorem twice_guessed_letter_bounds (self : WordleSolver)
    (guess : list ascii) (feedback : list GuessState) (letter : ascii)
    (i j : nat) (lo hi : Z) (self' : WordleSolver) :
  guess_occurrences guess letter = 2 →
  length guess = length feedback →
  guess !! i = Some letter → feedback !! i = Some CORRECT →
  guess !! j = Some letter → feedback !! j = Some INCORRECT →
  letter_counts self !! letter = Some (lo, hi) →
  process_feedback self guess feedback = Ok self' →
  ∃ lo' hi',
    letter_counts self' !! letter = Some (lo', hi') ∧
    guess_occurrences guess letter - incorrect_count guess feedback letter = 1 ∧
    hi' = Z.min hi 1 ∧
    1 ≤ lo' ∧
    (1 ≤ hi → hi' = 1 ∧ ∀ count, lo' ≤ count ≤ hi' → count = 1) ∧
    (loop_state self → guess ∈ words self → hi' = 1).
Proof.
  intros Htwo Hlen Hgi Hfi Hgj Hfj Hb H.
  destruct (twice_guessed_counts _ _ _ _ _ Htwo Hlen Hgi Hfi Hgj Hfj)
    as [HC HK].
  destruct (process_feedback_Ok _ _ _ _ H) as (_ & _ & Hlc & _).
  specialize (Hlc letter). rewrite Hb in Hlc. cbn [fmap option_fmap option_map] in Hlc.
  unfold bounds_after in Hlc. rewrite HC, HK, Htwo in Hlc.
  cbn [fst snd] in Hlc. rewrite !decide_False in Hlc by lia.
  eexists _, _. split; [exact Hlc|]. rewrite HK, Htwo.
  split_and!; try done; try lia.
  - intros Hhi. split; [lia|]. intros count. lia.
  - intros Hstate Hg.
    pose proof (loop_state_in_bounds _ _ Hstate Hg _ _ _ Hb) as Hin.
    rewrite <- guess_occurrences_Counter in Hin. lia.
Qed.

Lemma twice_guessed_letter_bounds_witness :
  ∃ lo' hi',
    letter_counts eel_first !! "e"%char = Some (lo', hi') ∧
    1 ≤ lo' ∧ hi' = 1.
Proof.
  destruct (twice_guessed_letter_bounds (init 3 eel_dog) (str "eel")
              [CORRECT; INCORRECT; UNKNOWN] "e"%char 0 1 0 2 eel_first)
    as (lo' & hi' & Hb & _ & Hhi & Hlo & Hpin & _);
    [vm_compute; reflexivity..|].
  exists lo', hi'. split; [exact Hb|]. split; [exact Hlo|].
  assert (1 ≤ 2) as Hhi2 by lia. exact (proj1 (Hpin Hhi2)).
Defined.

(** C10: for every non-empty word set and every choice [words.pop()] can
    make, [letter_word_counts] takes one word out of the set and puts it
    back, and [find_suggestions], which calls it, leaves the set as it was
    before the call, whether the call returns or raises.  It returns when
    the words have one length. *)
Theorem find_suggestions_keeps_words (ch : chooser)
    (ws : gset (list ascii)) (num_suggestions : nat) :
  ws ≠ ∅ →
  (∃ word, word ∈ ws ∧ set_pop ch ws = (ws ∖ {[word]}, Ok word)) ∧
  (letter_word_counts ch ws).1 = ws ∧
  (find_suggestions ch ws num_suggestions).1 = ws ∧
  (∀ n, (∀ W, W ∈ ws → length W = n) →
        is_Ok (find_suggestions ch ws num_suggestions).2).
Proof.
  intros Hne. split_and!.
  - pose proof (set_pop_spec ch ws) as Hpop.
    destruct (set_pop ch ws) as [ws1 [w|e]]; [|by destruct Hpop].
    destruct Hpop as (Hw & -> & _). by exists w.
  - apply letter_word_counts_words.
  - apply find_suggestions_words.
  - intros n Hlen. by eapply find_suggestions_total.
Qed.

Lemma find_suggestions_keeps_words_witness :
  (find_suggestions first_chooser three_words 10).1 = three_words ∧
  (find_suggestions first_chooser three_words 10).2 = Ok three_suggestions.
Proof.
  destruct (find_suggestions_keeps_words first_chooser three_words 10)
    as (_ & _ & Hws & _).
  - apply (bool_decide_unpack _). vm_compute. exact I.
  - split; [exact Hws|]. vm_compute. reflexivity.
Defined.

(** C8: how the solve loop ends.  With exactly one candidate left,
    [run_until_solved] returns that word; with no candidate left it returns
    [None], the no-solution result, and does not raise; with more than one
    candidate, when the provider declines every suggestion offered in the
    round, it raises the "No suggestions accepted" error in that same
    iteration.  One iteration of fuel is enough in each case.  The
    re-tightening that follows a filter pass which left no candidate
    returns too, so an emptied candidate set reaches the head of the loop. *)
Theorem run_until_solved_ends (ch : chooser) (fuel : nat)
    (self : WordleSolver) (stdin : list (list ascii)) :
  (∀ w, words self = {[w]} →
     run_until_solved (S fuel) ch self stdin = Some (Ok (Some w))) ∧
  (words self = ∅ →
     run_until_solved (S fuel) ch self stdin = Some (Ok None)) ∧
  (∀ suggestions,
     (1 < size (words self))%nat →
     (find_suggestions ch (words self) 10).2 = Ok suggestions →
     declines_all (word_len self) suggestions stdin →
     run_until_solved (S fuel) ch self stdin
       = Some (Raise NoSuggestionsAccepted)) ∧
  (words self = ∅ → alphabet_keys (letter_counts self) →
     ∃ self', retighten self = Ok self' ∧ words self' = ∅).
Proof.
  split_and!.
  - intros w Hw. simpl. rewrite Hw, size_singleton.
    rewrite decide_False by lia. rewrite decide_True by done.
    pose proof (set_pop_spec ch {[w]}) as Hpop.
    destruct (set_pop ch {[w]}) as [ws1 [w'|e]].
    + destruct Hpop as (->%elem_of_singleton & _). done.
    + destruct Hpop as (Hempty & _).
      apply (f_equal size) in Hempty.
      by rewrite size_singleton, size_empty in Hempty.
  - intros Hw. simpl. rewrite Hw, size_empty.
    rewrite decide_False by lia. by rewrite decide_False by lia.
  - intros suggestions Hsize Hsugg Hdecl. simpl.
    rewrite decide_True by done.
    destruct (find_suggestions ch (words self) 10) as [ws r].
    simpl in Hsugg. subst r.
    apply offer_declined in Hdecl.
    destruct (offer (word_len self) suggestions stdin) as [stdin' r].
    simpl in Hdecl. by subst r.
  - intros Hw Hkeys. destruct (retighten_total self) as [self' H].
    { intros l. by apply alphabet_keys_spec. }
    exists self'. split; [done|].
    destruct (retighten_Ok _ _ H) as (_ & -> & _). done.
Qed.

Lemma run_until_solved_ends_witness :
  run_until_solved 1 first_chooser after_slate_round []
    = Some (Ok (Some (str "trace"))) ∧
  run_until_solved 1 first_chooser after_crane_round []
    = Some (Ok None) ∧
  run_until_solved 1 first_chooser (init 5 three_words)
    [str ""; str "  "; str ""; str "x+++x"]
    = Some (Raise NoSuggestionsAccepted).
Proof.
  destruct (run_until_solved_ends first_chooser 0 after_slate_round [])
    as (Hone & _ & _).
  destruct (run_until_solved_ends first_chooser 0 after_crane_round [])
    as (_ & Hnone & _).
  destruct (run_until_solved_ends first_chooser 0 (init 5 three_words)
              [str ""; str "  "; str ""; str "x+++x"])
    as (_ & _ & Hdecl & _).
  split_and!.
  - apply Hone. vm_compute. reflexivity.
  - apply Hnone. vm_compute. reflexivity.
  - apply (Hdecl three_suggestions).
    + vm_compute. lia.
    + vm_compute. reflexivity.
    + vm_compute. exact I.
Defined.

(** C1: filtering never eliminates the true answer.  Take a dictionary of
    words of one length that contains the answer, and any sequence of
    guesses of that length, each answered with the feedback the puzzle
    gives for it against the answer.  After every iteration, that is after
    [process_feedback], [filter_words] and the re-tightening of the bounds,
    the answer is in the candidate set; and from there, after the
    [process_feedback] and the [filter_words] of one more guess, it still
    is.  The iterations all return when the dictionary and the guesses are
    lowercase words. *)
Theorem answer_survives (n : nat) (dictionary : gset (list ascii))
    (answer : list ascii) (guesses : list (list ascii)) :
  answer ∈ dictionary →
  set_Forall (λ W, length W = n) dictionary →
  Forall (λ guess, length guess = n) guesses →
  (∀ self', play answer guesses (init n dictionary) = Ok self' →
     answer ∈ words self' ∧
     ∀ guess self1 self2,
       length guess = n →
       process_feedback self' guess (judge answer guess) = Ok self1 →
       filter_words self1 = Ok self2 →
       answer ∈ words self2) ∧
  (set_Forall lowercase dictionary → Forall lowercase guesses →
   is_Ok (play answer guesses (init n dictionary))).
Proof.
  intros Hin Hlen Hg. split.
  - intros self' H.
    destruct (play_fits answer guesses (init n dictionary) self')
      as [Hin' Hfits']; [|..|done|].
    + eapply Forall_impl; [exact Hg|]. intros guess ->. symmetry.
      by apply Hlen.
    + by rewrite init_words.
    + by apply init_fits.
    + split; [done|]. intros guess self1 self2 Hguess H1 H2.
      destruct (process_feedback_Ok _ _ _ _ H1) as (_ & Hws & _).
      apply process_feedback_fits in H1;
        [|by rewrite Hguess; apply Hlen|done].
      rewrite <- Hws in Hin'.
      by destruct (filter_words_fits _ _ _ Hin' H1 H2).
  - intros Hlow Hglow. apply (play_total n).
    + apply init_sound. intros W HW. split; [by apply Hlen|by apply Hlow].
    + apply Forall_and. by split.
Qed.

Lemma answer_survives_witness :
  play (str "trace") [str "slate"; str "crane"] (init 5 three_words)
    = Ok trace_played ∧
  str "trace" ∈ words trace_played.
Proof.
  destruct (answer_survives 5 three_words (str "trace")
              [str "slate"; str "crane"]) as [Hin Htot].
  - apply (bool_decide_unpack _). vm_compute. exact I.
  - apply (bool_decide_unpack _). vm_compute. exact I.
  - apply (bool_decide_unpack _). vm_compute. exact I.
  - assert (play (str "trace") [str "slate"; str "crane"]
              (init 5 three_words) = Ok trace_played) as H.
    { destruct Htot as [self' H].
      - apply (bool_decide_unpack _). vm_compute. exact I.
      - apply (bool_decide_unpack _). vm_compute. exact I.
      - rewrite H. unfold trace_played. by rewrite H. }
    split; [exact H|]. exact (proj1 (Hin _ H)).
Defined.
(** * Further properties of the code *)

(** ** Reading feedback *)

Lemma GuessState_of_char_value c g :
  GuessState_of_char c = Ok g ↔ c = GuessState_value g.
Proof.
  unfold GuessState_of_char. split.
  - repeat case_decide; intros Heq; simplify_eq; done.
  - intros ->. by destruct g.
Qed.

Lemma GuessState_of_char_Raise c e :
  GuessState_of_char c = Raise e → e = ValueError.
Proof.
  unfold GuessState_of_char. repeat case_decide; intros Heq; by simplify_eq.
Qed.

Lemma length_render feedback : length (render feedback) = length feedback.
Proof. unfold render. by rewrite length_fmap. Qed.

Lemma parse_feedback_render text feedback :
  parse_feedback text = Ok feedback ↔ text = render feedback.
Proof.
  revert feedback. induction text as [|c rest IH]; intros feedback; simpl.
  - split; [by intros [= <-]|]. by destruct feedback.
  - split.
    + intros H. inv_bind H. simplify_eq.
      apply GuessState_of_char_value in Ha as ->.
      apply IH in Ha0 as ->. done.
    + destruct feedback as [|g feedback]; [done|]. intros [= -> Hrest].
      rewrite (proj2 (GuessState_of_char_value _ g) eq_refl). simpl.
      by rewrite (proj2 (IH feedback) Hrest).
Qed.

Lemma parse_feedback_Raise text e :
  parse_feedback text = Raise e → e = ValueError.
Proof.
  induction text as [|c rest IH]; simpl; [done|].
  destruct (GuessState_of_char c) as [g|e'] eqn:Hc; simpl.
  - destruct (parse_feedback rest) as [gs|e'']; simpl; [done|].
    intros [= <-]. by apply IH.
  - intros [= <-]. by eapply GuessState_of_char_Raise.
Qed.

Lemma input_guess_Ok expect_len stdin rest feedback :
  input_guess expect_len stdin = (rest, Ok feedback) →
  ∃ skipped line,
    stdin = skipped ++ line :: rest ∧
    Forall (reprompted expect_len) skipped ∧
    strip line = render feedback ∧
    strip line ≠ [] ∧
    ∀ n, expect_len = Some n → length feedback = n.
Proof.
  induction stdin as [|line0 stdin IH]; simpl; [done|].
  case_decide as Hblank; [done|].
  destruct expect_len as [n|].
  - case_decide as Hlen.
    + intros H. destruct (IH H) as (skipped & line & -> & Hsk & Hline).
      exists (line0 :: skipped), line. split; [done|]. split; [|done].
      constructor; [|done]. split; [done|]. by exists n.
    + intros [= -> Hparse]. apply parse_feedback_render in Hparse.
      exists [], line0. split_and!; try done.
      intros n' [= <-]. by rewrite <- Hlen, Hparse, length_render.
  - intros [= -> Hparse]. apply parse_feedback_render in Hparse.
    exists [], line0. split_and!; done.
Qed.

Lemma input_guess_Raise expect_len stdin rest e :
  input_guess expect_len stdin = (rest, Raise e) →
  ∃ skipped,
    Forall (reprompted expect_len) skipped ∧
    ((e = EOFError ∧ stdin = skipped ∧ rest = []) ∨
     ∃ line, stdin = skipped ++ line :: rest ∧
       ((e = SkipWordError ∧ strip line = []) ∨
        (e = ValueError ∧ strip line ≠ [] ∧
         parse_feedback (strip line) = Raise ValueError))).
Proof.
  induction stdin as [|line0 stdin IH]; simpl.
  - intros [= <- <-]. exists []. split; [done|]. by left.
  - case_decide as Hblank.
    { intros [= <- <-]. exists []. split; [done|]. right. exists line0.
      split; [done|]. by left. }
    assert (
      (stdin, parse_feedback (strip line0)) = (rest, Raise e) →
      ∃ skipped, Forall (reprompted expect_len) skipped ∧
        ((e = EOFError ∧ line0 :: stdin = skipped ∧ rest = []) ∨
         ∃ line, line0 :: stdin = skipped ++ line :: rest ∧
           ((e = SkipWordError ∧ strip line = []) ∨
            (e = ValueError ∧ strip line ≠ [] ∧
             parse_feedback (strip line) = Raise ValueError)))) as Hparse.
    { intros [= -> Hp]. pose proof (parse_feedback_Raise _ _ Hp) as ->.
      exists []. split; [done|]. right. exists line0. split; [done|].
      right. by rewrite Hp. }
    destruct expect_len as [n|]; [|by apply Hparse].
    case_decide as Hlen; [|by apply Hparse].
    intros H. destruct (IH H) as (skipped & Hsk & Hcase).
    exists (line0 :: skipped). split.
    { constructor; [|done]. split; [done|]. by exists n. }
    destruct Hcase as [(-> & -> & ->)|(line & -> & Hline)]; [by left|].
    right. by exists line.
Qed.

Lemma parse_feedback_bad_char text e :
  parse_feedback text = Raise e →
  ∃ c, c ∈ text ∧ ∀ g, c ≠ GuessState_value g.
Proof.
  induction text as [|c rest IH]; simpl; [done|].
  destruct (GuessState_of_char c) as [g|e'] eqn:Hc; simpl.
  - destruct (parse_feedback rest) as [gs|e'']; simpl; [done|].
    intros [= <-]. destruct IH as (c' & Hin & Hbad); [done|].
    exists c'. split; [by right|done].
  - intros _. exists c. split; [left|]. intros g ->.
    by rewrite (proj2 (GuessState_of_char_value _ g) eq_refl) in Hc.
Qed.

(** X1: the symbols of a feedback line and the feedback read from it
    determine each other: a line parses to a feedback exactly when it is
    the feedback's symbols [_], [x], [?], [+] in order; every other line
    raises [ValueError], and then holds a character that is none of the
    four. *)
Theorem parse_feedback_round_trip :
  (∀ feedback, parse_feedback (render feedback) = Ok feedback) ∧
  (∀ text feedback, parse_feedback text = Ok feedback →
     text = render feedback) ∧
  (∀ text e, parse_feedback text = Raise e →
     e = ValueError ∧ ∃ c, c ∈ text ∧ ∀ g, c ≠ GuessState_value g).
Proof.
  split_and!.
  - intros feedback. by apply parse_feedback_render.
  - intros text feedback. apply parse_feedback_render.
  - intros text e H. split; [by eapply parse_feedback_Raise|].
    by eapply parse_feedback_bad_char.
Qed.

Lemma parse_feedback_round_trip_witness :
  parse_feedback (str "x?+_") = Ok [INCORRECT; MISPLACED; CORRECT; UNKNOWN] ∧
  str "x?+_" = render [INCORRECT; MISPLACED; CORRECT; UNKNOWN] ∧
  parse_feedback (str "x?y") = Raise ValueError.
Proof.
  destruct parse_feedback_round_trip as (Hto & Hfrom & Hbad).
  assert (parse_feedback (str "x?+_")
          = Ok [INCORRECT; MISPLACED; CORRECT; UNKNOWN]) as H.
  { apply (Hto [INCORRECT; MISPLACED; CORRECT; UNKNOWN]). }
  split_and!; [exact H|exact (Hfrom _ _ H)|].
  destruct (parse_feedback (str "x?y")) as [fb|e] eqn:He.
  - vm_compute in He. discriminate.
  - by destruct (Hbad _ _ He) as [-> _].
Defined.

(** X2: when [input_guess] returns, it has passed over some lines that
    were neither blank nor of the expected length, and the feedback is the
    one written on the next line, stripped of surrounding white space.  The
    feedback is never empty, and it has the expected length when one was
    given.  The lines after that one are left unread. *)
Theorem input_guess_returns (expect_len : option nat)
    (stdin rest : list (list ascii)) (feedback : list GuessState) :
  input_guess expect_len stdin = (rest, Ok feedback) →
  feedback ≠ [] ∧
  (∀ n, expect_len = Some n → length feedback = n) ∧
  ∃ skipped line,
    stdin = skipped ++ line :: rest ∧
    Forall (reprompted expect_len) skipped ∧
    strip line = render feedback.
Proof.
  intros H.
  destruct (input_guess_Ok _ _ _ _ H)
    as (skipped & line & Hstdin & Hsk & Hline & Hne & Hlen).
  split_and!; [|done|by exists skipped, line].
  intros ->. by rewrite Hline in Hne.
Qed.

Lemma input_guess_returns_witness :
  input_guess (Some 4%nat) [str "xx"; str " x?+_  "; str "+"]
    = ([str "+"], Ok [INCORRECT; MISPLACED; CORRECT; UNKNOWN]) ∧
  length [INCORRECT; MISPLACED; CORRECT; UNKNOWN] = 4%nat.
Proof.
  assert (input_guess (Some 4%nat) [str "xx"; str " x?+_  "; str "+"]
          = ([str "+"], Ok [INCORRECT; MISPLACED; CORRECT; UNKNOWN])) as H.
  { vm_compute. reflexivity. }
  split; [exact H|].
  destruct (input_guess_returns _ _ _ _ H) as (_ & Hlen & _).
  by apply Hlen.
Defined.



(** ** Letter statistics, exactly *)

Lemma repeats_of_word_lookup (word : list ascii)
    (acc : gmap ascii Z * gmap ascii Z) (l : ascii) :
  (repeats_of_word word acc).1 !! l =
    (if decide (l ∈ ascii_lowercase)
     then (λ m, Z.min m (Counter word l)) <$> acc.1 !! l else acc.1 !! l) ∧
  (repeats_of_word word acc).2 !! l =
    (if decide (l ∈ ascii_lowercase)
     then (λ m, Z.max m (Counter word l)) <$> acc.2 !! l else acc.2 !! l).
Proof. exact (repeats_of_letters_lookup word ascii_lowercase acc l). Qed.

Lemma find_min_max_attained (ws : gset (list ascii)) (l : ascii) :
  l ∈ ascii_lowercase →
  ∃ lo hi,
    (find_min_max_letter_repeats ws).1 !! l = Some lo ∧
    (find_min_max_letter_repeats ws).2 !! l = Some hi ∧
    (∀ W, W ∈ ws → lo ≤ Counter W l ≤ hi) ∧
    (lo = 999 ∨ ∃ W, W ∈ ws ∧ lo = Counter W l) ∧
    (hi = 0 ∨ ∃ W, W ∈ ws ∧ hi = Counter W l).
Proof.
  intros Hl. unfold find_min_max_letter_repeats.
  apply (set_fold_ind_L (λ (r : gmap ascii Z * gmap ascii Z)
                           (X : gset (list ascii)),
    ∃ lo hi, r.1 !! l = Some lo ∧ r.2 !! l = Some hi ∧
      (∀ W, W ∈ X → lo ≤ Counter W l ≤ hi) ∧
      (lo = 999 ∨ ∃ W, W ∈ X ∧ lo = Counter W l) ∧
      (hi = 0 ∨ ∃ W, W ∈ X ∧ hi = Counter W l))).
  - cbn [fst snd]. rewrite !lookup_list_to_map_key, !decide_True by done.
    exists 999, 0. split_and!; try done; by left.
  - intros x X r Hx (lo & hi & Hlo & Hhi & Hall & Hmin & Hmax).
    destruct (repeats_of_word_lookup x r l) as [-> ->].
    rewrite !decide_True, Hlo, Hhi by done. simpl.
    eexists _, _. split_and!; try done.
    + intros W [->%elem_of_singleton|HW]%elem_of_union; [lia|].
      specialize (Hall W HW). lia.
    + destruct (Z.min_spec lo (Counter x l)) as [[_ ->]|[_ ->]].
      * destruct Hmin as [?|(W & HW & ?)]; [by left|].
        right. exists W. split; [set_solver|done].
      * right. exists x. split; [set_solver|done].
    + destruct (Z.max_spec hi (Counter x l)) as [[_ ->]|[_ ->]].
      * right. exists x. split; [set_solver|done].
      * destruct Hmax as [?|(W & HW & ?)]; [by left|].
        right. exists W. split; [set_solver|done].
Qed.

(** X4: [find_min_max_letter_repeats] gives both dicts the letters of the
    alphabet as keys, and nothing else.  For each letter, the minimum is at
    most and the maximum at least the count of the letter in every word of
    the set; the maximum is the count in some word of the set, and the
    minimum is the count in some word or the starting value 999.  On the
    empty set the minimum stays 999 and the maximum 0. *)
Theorem find_min_max_letter_repeats_exact (ws : gset (list ascii)) :
  (∀ letter, letter ∉ ascii_lowercase →
     (find_min_max_letter_repeats ws).1 !! letter = None ∧
     (find_min_max_letter_repeats ws).2 !! letter = None) ∧
  (∀ letter, letter ∈ ascii_lowercase →
     ∃ lo hi,
       (find_min_max_letter_repeats ws).1 !! letter = Some lo ∧
       (find_min_max_letter_repeats ws).2 !! letter = Some hi ∧
       (∀ W, W ∈ ws → lo ≤ Counter W letter ≤ hi) ∧
       (ws = ∅ → lo = 999 ∧ hi = 0) ∧
       (ws ≠ ∅ →
          (∃ W, W ∈ ws ∧ hi = Counter W letter) ∧
          (lo = 999 ∨ ∃ W, W ∈ ws ∧ lo = Counter W letter))).
Proof.
  split.
  - intros letter Hl.
    pose proof (find_min_max_letter_repeats_spec ws letter) as H.
    by rewrite decide_False in H.
  - intros letter Hl.
    destruct (find_min_max_attained ws letter Hl)
      as (lo & hi & Hlo & Hhi & Hall & Hmin & Hmax).
    exists lo, hi. split_and!; try done.
    + intros ->. split.
      * destruct Hmin as [?|(W & HW & _)]; [done|set_solver].
      * destruct Hmax as [?|(W & HW & _)]; [done|set_solver].
    + intros Hne. split; [|done].
      destruct Hmax as [->|?]; [|done].
      apply set_choose_L in Hne as [W HW]. exists W. split; [done|].
      specialize (Hall W HW). pose proof (Counter_nonneg W letter). lia.
Qed.

Lemma find_min_max_letter_repeats_exact_witness :
  (find_min_max_letter_repeats three_words).1 !! "e"%char = Some 1 ∧
  (find_min_max_letter_repeats three_words).2 !! "t"%char = Some 1 ∧
  (find_min_max_letter_repeats three_words).1 !! "t"%char = Some 0.
Proof.
  destruct (find_min_max_letter_repeats_exact three_words) as [_ Hin].
  destruct (Hin "e"%char) as (lo & hi & Hlo & _).
  { apply (bool_decide_unpack _). vm_compute. exact I. }
  split_and!; vm_compute; reflexivity.
Defined.

(** ** A fresh solver *)














(** ** What [process_feedback] records, and when it returns *)

Lemma scan_feedback_unknown offset pairs s :
  Forall (λ p : ascii * GuessState, p.2 = UNKNOWN) pairs →
  scan_feedback offset pairs s = Ok s.
Proof.
  intros Hall. revert offset.
  induction Hall as [|[l r] rest Hr _ IH]; intros offset; simpl in *; [done|].
  subst r. unfold scan_step. simpl. apply IH.
Qed.

Lemma process_feedback_blank (self : WordleSolver) (guess : list ascii)
    (feedback : list GuessState) :
  Forall (λ res, res = UNKNOWN) feedback →
  process_feedback self guess feedback = Ok self.
Proof.
  intros Hall. unfold process_feedback.
  rewrite scan_feedback_unknown.
  - simpl. rewrite !map_fold_empty. simpl. by destruct self.
  - apply Forall_forall. intros [l r] Hin. simpl.
    apply elem_of_zip_r in Hin.
    by apply (proj1 (Forall_forall _ _) Hall).
Qed.

(** X6: a feedback of [_] symbols only, of any length, changes nothing:
    [process_feedback] returns the state it was given, whatever the guess,
    also one with letters that have no bounds. *)
Theorem process_feedback_unknown (self : WordleSolver) (guess : list ascii)
    (feedback : list GuessState) :
  Forall (λ res, res = UNKNOWN) feedback →
  process_feedback self guess feedback = Ok self.
Proof. apply process_feedback_blank. Qed.

Lemma process_feedback_unknown_witness :
  process_feedback after_slate (str "it's")
    [UNKNOWN; UNKNOWN; UNKNOWN; UNKNOWN] = Ok after_slate.
Proof.
  apply process_feedback_unknown. apply (bool_decide_unpack _).
  vm_compute. exact I.
Defined.

(** X7: what [process_feedback] writes besides the bounds.  It leaves the
    candidate set alone.  A letter is forbidden at a position afterwards
    exactly when it was before or the guess has it there marked
    [INCORRECT] or [MISPLACED]; nothing is ever taken out.
    [correct_letters] keeps its length and holds the letter of the guess
    at every position marked [CORRECT], and what it held before at every
    other position. *)
Theorem process_feedback_records (self : WordleSolver) (guess : list ascii)
    (feedback : list GuessState) (self' : WordleSolver) :
  process_feedback self guess feedback = Ok self' →
  word_len self' = word_len self ∧
  words self' = words self ∧
  (∀ letter j,
     j ∈ offsets_of (misplaced_letters self') letter ↔
     j ∈ offsets_of (misplaced_letters self) letter ∨
     (guess !! j = Some letter ∧
      (feedback !! j = Some INCORRECT ∨ feedback !! j = Some MISPLACED))) ∧
  length (correct_letters self') = length (correct_letters self) ∧
  (∀ j, correct_letters self' !! j =
        match guess !! j, feedback !! j with
        | Some letter, Some CORRECT => Some (Some letter)
        | _, _ => correct_letters self !! j
        end).
Proof.
  intros H.
  destruct (process_feedback_Ok _ _ _ _ H)
    as (Hwl & Hws & _ & Hml & Hlen & Hcl).
  split_and!; try done.
  - intros letter j. rewrite Hml. split.
    + intros [?|(res & Hg & Hf & [->| ->])]; [by left|right..]; auto.
    + intros [?|(Hg & [Hf|Hf])]; [by left|right..].
      * exists INCORRECT. auto.
      * exists MISPLACED. auto.
  - intros j. destruct (Hcl j) as [(l & -> & -> & ->)|[Hno ->]]; [done|].
    destruct (guess !! j) as [l|]; [|done].
    destruct (feedback !! j) as [[]|]; try done.
    destruct Hno. split; [by eexists|done].
Qed.

Lemma process_feedback_records_witness :
  words after_slate = three_words ∧
  correct_letters after_slate
    = [None; None; Some "a"%char; None; Some "e"%char].
Proof.
  assert (process_feedback (init 5 three_words) (str "slate")
            [INCORRECT; INCORRECT; CORRECT; MISPLACED; CORRECT]
          = Ok after_slate) as H.
  { vm_compute. reflexivity. }
  destruct (process_feedback_records _ _ _ _ H) as (_ & Hws & _).
  split; [by rewrite Hws; apply init_words|].
  vm_compute. reflexivity.
Defined.

Lemma scan_feedback_total_sharp offset pairs s :
  (∀ i l, pairs !! i = Some (l, CORRECT) →
          (offset + i < length (scan_correct s))%nat) →
  is_Ok (scan_feedback offset pairs s).
Proof.
  revert offset s. induction pairs as [|[letter res] rest IH];
    intros offset s Hok; simpl.
  - apply is_Ok_Ok.
  - assert (is_Ok (scan_step offset letter res s)) as [s1 Hs1].
    { unfold scan_step, list_set. destruct res; simpl; try apply is_Ok_Ok.
      rewrite decide_True; [apply is_Ok_Ok|].
      specialize (Hok 0%nat letter eq_refl). lia. }
    rewrite Hs1. simpl. apply IH. intros i l Hi.
    destruct (scan_step_Ok _ _ _ _ _ Hs1) as (_ & _ & _ & -> & _).
    specialize (Hok (S i) l Hi). lia.
Qed.

Lemma count_pairs_nonzero sel letter pairs :
  count_pairs sel letter pairs ≠ 0 ↔
  ∃ i res, pairs !! i = Some (letter, res) ∧ sel res = true.
Proof.
  split.
  - induction pairs as [|[l r] rest IH]; [done|].
    rewrite count_pairs_cons. case_decide as Hd.
    + destruct Hd as [-> Hsel]. intros _. by exists 0%nat, r.
    + intros Hne. destruct IH as (i & res & Hi & Hsel); [lia|].
      by exists (S i), res.
  - intros (i & res & Hi & Hsel).
    pose proof (count_pairs_ge_1 sel letter pairs i res Hi Hsel). lia.
Qed.

Lemma counter_plus_is_Some n :
  is_Some (counter_plus None n) ↔ n ≠ 0.
Proof.
  unfold counter_plus. case_decide as Hn.
  - split; [by intros [? ?]|done].
  - split; [done|]. intros _. by eexists.
Qed.

(** X8: [process_feedback] returns exactly when every position marked
    [CORRECT] is a position of [correct_letters] and every letter of the
    guess that the feedback marks with a symbol other than [_] has bounds.
    Positions the feedback does not reach and letters marked [_] put no
    condition. *)
Theorem process_feedback_returns_iff (self : WordleSolver)
    (guess : list ascii) (feedback : list GuessState) :
  is_Ok (process_feedback self guess feedback) ↔
  (∀ i letter, guess !! i = Some letter → feedback !! i = Some CORRECT →
     (i < length (correct_letters self))%nat) ∧
  (∀ i letter res, guess !! i = Some letter → feedback !! i = Some res →
     res ≠ UNKNOWN → is_Some (letter_counts self !! letter)).
Proof.
  unfold process_feedback. split.
  - intros [self' H]. inv_bind H.
    rename a into s, a0 into lc1, a1 into lc2.
    destruct (scan_feedback_Ok _ _ _ _ Ha) as (Hc & Hi & _ & _ & Hpos & _).
    simpl in *.
    pose proof (raise_min_loop (letter_counts self) (correct_letter_counts s))
      as Hr. rewrite Ha0 in Hr. destruct Hr as [Hr1 Hr2].
    pose proof (lower_max_loop guess lc1 (incorrect_letter_counts s)) as Hw.
    rewrite Ha1 in Hw. destruct Hw as [Hw1 _].
    split.
    + intros i letter Hg Hf. apply (Hpos i letter). by apply lookup_zip.
    + intros i letter res Hg Hf Hres.
      assert (zip guess feedback !! i = Some (letter, res)) as Hz
        by by apply lookup_zip.
      destruct (decide (is_correctish res = true)) as [Hsel|Hsel].
      * apply Hr1. rewrite Hc, lookup_empty. apply counter_plus_is_Some.
        apply count_pairs_nonzero. by exists i, res.
      * assert (is_Some (lc1 !! letter)) as Hsome.
        { apply Hw1. rewrite Hi, lookup_empty. apply counter_plus_is_Some.
          apply count_pairs_nonzero. exists i, res. split; [done|].
          by destruct res. }
        rewrite Hr2 in Hsome.
        destruct (correct_letter_counts s !! letter); [|done].
        by apply fmap_is_Some in Hsome.
  - intros [Hpos Hkeys].
    destruct (scan_feedback_total_sharp 0 (zip guess feedback)
                (mkScan ∅ ∅ (misplaced_letters self) (correct_letters self)))
      as [s Hs].
    { intros i l [Hg Hf]%lookup_zip. simpl. by eapply Hpos. }
    rewrite Hs. simpl.
    destruct (scan_feedback_Ok _ _ _ _ Hs) as (Hc & Hi & _). simpl in *.
    assert (∀ sel l (counts : gmap ascii Z),
      (∀ res, sel res = true → res ≠ UNKNOWN) →
      counts !! l = counter_plus ((∅ : gmap ascii Z) !! l)
                      (count_pairs sel l (zip guess feedback)) →
      is_Some (counts !! l) → is_Some (letter_counts self !! l)) as Hin.
    { intros sel l counts Hsel Hcl Hsome. rewrite Hcl, lookup_empty in Hsome.
      apply counter_plus_is_Some, count_pairs_nonzero in Hsome
        as (i & res & [Hg Hf]%lookup_zip & Hres).
      eapply Hkeys; [done..|]. by apply Hsel. }
    pose proof (raise_min_loop (letter_counts self) (correct_letter_counts s))
      as Hr.
    destruct (map_fold raise_min _ _) as [lc1|e]; simpl.
    + destruct Hr as [_ Hr].
      pose proof (lower_max_loop guess lc1 (incorrect_letter_counts s)) as Hw.
      destruct (map_fold (lower_max guess) _ _) as [lc2|e]; simpl;
        [apply is_Ok_Ok|].
      destruct Hw as (l & Hsome & Hnone).
      apply (Hin is_incorrect _ _ ltac:(by intros []) (Hi l)) in Hsome
        as [b Hb].
      rewrite Hr, Hb in Hnone. by destruct (correct_letter_counts s !! l).
    + destruct Hr as (l & Hsome & Hnone).
      apply (Hin is_correctish _ _ ltac:(by intros []) (Hc l)) in Hsome
        as [b Hb]. congruence.
Qed.

Lemma process_feedback_returns_iff_witness :
  is_Ok (process_feedback (init 5 three_words) (str "it's!")
           [UNKNOWN; MISPLACED; UNKNOWN; INCORRECT]) ∧
  ¬ is_Ok (process_feedback (init 5 three_words) (str "it's!")
             [UNKNOWN; MISPLACED; INCORRECT; INCORRECT]).
Proof.
  split.
  - apply process_feedback_returns_iff. split.
    + intros [|[|[|[|[|i]]]]] letter Hg Hf; simplify_eq/=.
    + intros [|[|[|[|[|i]]]]] letter res Hg Hf Hres; simplify_eq/=;
        vm_compute; by eexists.
  - intros [_ Hkeys]%process_feedback_returns_iff.
    destruct (Hkeys 2%nat "'"%char INCORRECT eq_refl eq_refl) as [b Hb];
      [done|]. vm_compute in Hb. discriminate.
Defined.

(** ** Bounds that cross *)

(** X9: when the bounds of some letter cross, the minimum above the
    maximum, no word can meet them: the candidate set that [filter_words]
    leaves is empty. *)
Theorem crossed_bounds_leave_nothing (self self' : WordleSolver)
    (letter : ascii) (lo hi : Z) :
  filter_words self = Ok self' →
  letter_counts self !! letter = Some (lo, hi) →
  hi < lo →
  words self' = ∅.
Proof.
  intros H Hb Hcross.
  destruct (filter_words_Ok _ _ H) as (_ & _ & _ & _ & _ & Hw).
  apply set_eq. intros W. split; [|set_solver].
  intros (_ & _ & _ & _ & Hall)%Hw. specialize (Hall _ _ _ Hb). lia.
Qed.

Lemma crossed_bounds_leave_nothing_witness :
  ∃ self', filter_words eel_again = Ok self' ∧ words self' = ∅.
Proof.
  assert (is_Ok (filter_words eel_again)) as [self' H].
  { vm_compute. eexists. reflexivity. }
  exists self'. split; [exact H|].
  apply (crossed_bounds_leave_nothing eel_again self' "e"%char 1 0 H).
  - vm_compute. reflexivity.
  - lia.
Defined.

(** ** The order of the ranker *)

Lemma str_ltb_irrefl a : str_ltb a a = false.
Proof.
  induction a as [|x a IH]; cbn [str_ltb]; [done|]. by rewrite decide_True.
Qed.

Lemma nat_of_ascii_inj x y : nat_of_ascii x = nat_of_ascii y → x = y.
Proof.
  intros H. rewrite <- (ascii_nat_embedding x), <- (ascii_nat_embedding y).
  by rewrite H.
Qed.

Lemma str_ltb_trans a b c :
  str_ltb a b = true → str_ltb b c = true → str_ltb a c = true.
Proof.
  revert b c. induction a as [|x a IH]; intros [|y b] [|z c];
    cbn [str_ltb]; try done.
  repeat case_decide; subst; try done; intros Hab Hbc;
    try (by eapply IH);
    apply Nat.ltb_lt in Hab; apply Nat.ltb_lt in Hbc;
    first [apply Nat.ltb_lt; lia | lia].
Qed.

Lemma str_ltb_total a b :
  a ≠ b → str_ltb a b = true ∨ str_ltb b a = true.
Proof.
  revert b. induction a as [|x a IH]; intros [|y b] Hne;
    cbn [str_ltb]; try done; auto.
  destruct (decide (x = y)) as [->|Hxy].
  - rewrite !decide_True by done. apply IH. congruence.
  - rewrite (decide_False (P := y = x)) by congruence.
    destruct (Nat.lt_trichotomy (nat_of_ascii x) (nat_of_ascii y))
      as [?|[?%nat_of_ascii_inj|?]]; [|done|].
    + left. by apply Nat.ltb_lt.
    + right. by apply Nat.ltb_lt.
Qed.

Lemma tuple_ltb_irrefl p : tuple_ltb p p = false.
Proof. unfold tuple_ltb. rewrite decide_True by done. apply str_ltb_irrefl. Qed.

Lemma tuple_ltb_trans p q r :
  tuple_ltb p q = true → tuple_ltb q r = true → tuple_ltb p r = true.
Proof.
  unfold tuple_ltb. destruct p as [a s], q as [b t], r as [c u]. simpl.
  repeat case_decide; subst; try done; try lia;
    rewrite ?Z.ltb_lt; try lia.
  apply str_ltb_trans.
Qed.

Lemma tuple_ltb_total p q :
  p ≠ q → tuple_ltb p q = true ∨ tuple_ltb q p = true.
Proof.
  unfold tuple_ltb. destruct p as [a s], q as [b t]. simpl. intros Hne.
  destruct (decide (a = b)) as [->|Hab].
  - rewrite decide_True by done. apply str_ltb_total. congruence.
  - rewrite decide_False by done. rewrite !Z.ltb_lt. lia.
Qed.

Lemma tuple_ltb_asym p q : tuple_ltb p q = true → tuple_ltb q p = false.
Proof.
  intros H. destruct (tuple_ltb q p) eqn:Hqp; [|done].
  pose proof (tuple_ltb_trans _ _ _ H Hqp) as Hpp.
  by rewrite tuple_ltb_irrefl in Hpp.
Qed.

Lemma insert_desc_perm p l : insert_desc p l ≡ₚ p :: l.
Proof.
  induction l as [|q rest IH]; simpl; [done|].
  destruct (tuple_ltb p q); [|done]. rewrite IH. apply Permutation_swap.
Qed.

Lemma sorted_desc_perm l : sorted_desc l ≡ₚ l.
Proof.
  unfold sorted_desc. induction l as [|p rest IH]; simpl; [done|].
  by rewrite insert_desc_perm, IH.
Qed.

Lemma insert_desc_sorted p l :
  p ∉ l → desc_sorted l → desc_sorted (insert_desc p l).
Proof.
  intros Hp Hs. induction Hs as [|q l Hall Hs IH]; simpl.
  - constructor; [done|constructor].
  - apply not_elem_of_cons in Hp as [Hpq Hp].
    destruct (tuple_ltb p q) eqn:Hlt.
    + constructor; [|by apply IH].
      rewrite insert_desc_perm. by constructor.
    + assert (tuple_ltb q p = true) as Hqp.
      { by destruct (tuple_ltb_total p q Hpq) as [?|?]; [congruence|]. }
      constructor; [|by constructor].
      constructor; [done|].
      eapply Forall_impl; [exact Hall|]. intros r Hr. simpl in Hr.
      by eapply tuple_ltb_trans.
Qed.

Lemma sorted_desc_sorted l : NoDup l → desc_sorted (sorted_desc l).
Proof.
  unfold sorted_desc. induction 1 as [|p l Hp Hnd IH]; simpl.
  - constructor.
  - apply insert_desc_sorted; [|done].
    fold (sorted_desc l). by rewrite sorted_desc_perm.
Qed.

Lemma desc_sorted_descending l : desc_sorted l → descending l.
Proof.
  induction 1 as [|p l Hall Hs IH]; intros i j a b Hij Hi Hj.
  - by rewrite lookup_nil in Hi.
  - destruct j as [|j]; [lia|]. simpl in Hj.
    destruct i as [|i]; simplify_eq/=.
    + apply (proj1 (Forall_forall _ _) Hall). by eapply list_elem_of_lookup_2.
    + apply (IH i j); [lia|done..].
Qed.

Lemma descending_take n l : descending l → descending (take n l).
Proof.
  intros Hl i j p q Hij Hi Hj.
  apply lookup_take_Some in Hi as [Hi _]. apply lookup_take_Some in Hj as [Hj _].
  by eapply Hl.
Qed.

(** ** What the ranker counts *)

Lemma cell_replicate n p l : cell (replicate n (∅ : gmap ascii Z)) p l = 0.
Proof.
  unfold cell. destruct (replicate n ∅ !! p) as [d|] eqn:Hd; [|done].
  apply lookup_replicate in Hd as [-> _]. simpl. by rewrite lookup_empty.
Qed.

Lemma cell_insert counts pos d c p l :
  counts !! pos = Some d →
  cell (<[pos := incr c d]> counts) p l =
  cell counts p l + (if decide (p = pos ∧ l = c) then 1 else 0).
Proof.
  intros Hd. unfold cell. destruct (decide (p = pos)) as [->|Hne].
  - rewrite list_lookup_insert_eq by by eapply lookup_lt_Some.
    rewrite Hd. simpl. rewrite incr_lookup.
    destruct (decide (c = l)) as [->|Hcl].
    + rewrite decide_True by done. done.
    + rewrite decide_False by naive_solver. lia.
  - rewrite list_lookup_insert_ne by done.
    rewrite decide_False by naive_solver. lia.
Qed.

Lemma count_word_cell pos word counts counts' :
  count_word pos word counts = Ok counts' →
  ∀ p l, cell counts' p l =
    cell counts p l +
    (if decide ((pos ≤ p)%nat ∧ word !! (p - pos)%nat = Some l)
     then 1 else 0).
Proof.
  revert pos counts. induction word as [|c rest IH]; intros pos counts H p l;
    simpl in H.
  - simplify_eq. rewrite decide_False; [lia|]. by intros [_ ?].
  - destruct (counts !! pos) as [d|] eqn:Hd; [|done].
    rewrite (IH _ _ H), (cell_insert _ _ _ _ _ _ Hd).
    destruct (decide (p = pos)) as [->|Hne].
    + rewrite Nat.sub_diag. simpl.
      rewrite (decide_False (P := (S pos ≤ pos)%nat ∧ _)) by lia.
      destruct (decide (l = c)) as [->|Hlc].
      * rewrite !decide_True by done. lia.
      * rewrite !decide_False by naive_solver. lia.
    + rewrite (decide_False (P := p = pos ∧ l = c)) by naive_solver.
      destruct (decide (pos ≤ p)%nat) as [Hle|Hgt].
      * replace (p - pos)%nat with (S (p - S pos)) by lia. simpl.
        destruct (decide (rest !! (p - S pos)%nat = Some l)).
        -- rewrite !decide_True by (split; [lia|done]). lia.
        -- rewrite !decide_False by naive_solver. lia.
      * rewrite !decide_False by lia. lia.
Qed.

Lemma sharing_empty p l : sharing (∅ : gset (list ascii)) p l = 0.
Proof.
  unfold sharing.
  assert (filter (λ W : list ascii, W !! p = Some l)
            (∅ : gset (list ascii)) = ∅) as -> by set_solver.
  by rewrite size_empty.
Qed.

Lemma sharing_union (x : list ascii) (X : gset (list ascii)) p l :
  x ∉ X →
  sharing ({[x]} ∪ X) p l =
  (if decide (x !! p = Some l) then 1 else 0) + sharing X p l.
Proof.
  intros Hx. unfold sharing. rewrite filter_union_L, size_union.
  - case_decide.
    + assert (filter (λ W : list ascii, W !! p = Some l)
                ({[x]} : gset (list ascii)) = {[x]}) as -> by set_solver.
      rewrite size_singleton. lia.
    + assert (filter (λ W : list ascii, W !! p = Some l)
                ({[x]} : gset (list ascii)) = ∅) as -> by set_solver.
      rewrite size_empty. lia.
  - intros W [_ HW%elem_of_singleton]%elem_of_filter [_ HX]%elem_of_filter.
    by subst.
  - apply _.
Qed.

Lemma count_loop_spec (n : nat) (ws : gset (list ascii))
    (start : list (gmap ascii Z)) :
  length start = n → (∀ p l, cell start p l = 0) →
  (∀ W, W ∈ ws → length W = n) →
  ∃ counts,
    set_fold (λ word acc, counts ← acc; count_word 0 word counts)
      (Ok start) ws = Ok counts ∧
    length counts = n ∧
    ∀ p l, cell counts p l = sharing ws p l.
Proof.
  intros Hstart Hzero.
  apply (set_fold_ind_L (λ r (X : gset (list ascii)),
    (∀ W, W ∈ X → length W = n) →
    ∃ counts, r = Ok counts ∧ length counts = n ∧
              ∀ p l, cell counts p l = sharing X p l)).
  - intros _. exists start. split_and!; [done..|].
    intros p l. by rewrite Hzero, sharing_empty.
  - intros x X r Hx IH Hlen.
    destruct IH as (counts & -> & Hc & Hcell); [set_solver|]. simpl.
    destruct (count_word_total 0 x counts) as (counts' & Hcw & Hc').
    { rewrite Hc, (Hlen x); [done|set_solver]. }
    exists counts'. split_and!; [done|congruence|].
    intros p l. rewrite (count_word_cell _ _ _ _ Hcw), Hcell.
    rewrite sharing_union, Nat.sub_0_r by done.
    destruct (decide (x !! p = Some l)).
    + rewrite decide_True by (split; [lia|done]). lia.
    + rewrite decide_False by naive_solver. lia.
Qed.

Lemma letter_word_counts_spec (ch : chooser) (ws : gset (list ascii))
    (n : nat) :
  ws ≠ ∅ → (∀ W, W ∈ ws → length W = n) →
  ∃ counts,
    (letter_word_counts ch ws).2 = Ok counts ∧
    length counts = n ∧
    ∀ p l, cell counts p l = sharing ws p l.
Proof.
  intros Hne Hlen. unfold letter_word_counts.
  pose proof (set_pop_spec ch ws) as Hpop.
  destruct (set_pop ch ws) as [ws1 [w|e]]; [|by destruct Hpop].
  destruct Hpop as (Hw & _ & ->). simpl.
  apply count_loop_spec; [|apply cell_replicate|done].
  by rewrite length_replicate, (Hlen w Hw).
Qed.

Lemma count_word_Raise pos word counts e :
  count_word pos word counts = Raise e → e = IndexError.
Proof.
  revert pos counts. induction word as [|c rest IH]; intros pos counts;
    simpl; [done|].
  destruct (counts !! pos); [apply IH|]. by intros [= <-].
Qed.

Lemma count_loop_Raise (ws : gset (list ascii))
    (start : list (gmap ascii Z)) e :
  set_fold (λ word acc, counts ← acc; count_word 0 word counts)
    (Ok start) ws = Raise e →
  e = IndexError.
Proof.
  revert e.
  apply (set_fold_ind_L (λ (r : result (list (gmap ascii Z)))
                           (X : gset (list ascii)),
    ∀ e, r = Raise e → e = IndexError)).
  - done.
  - intros x X [counts|e0] Hx IH e; simpl.
    + apply count_word_Raise.
    + intros [= <-]. by apply IH.
Qed.

(** X10: what [letter_word_counts] returns and when it raises.  On the
    empty set it raises [KeyError], the error of [pop] on an empty set.  On
    a set of words of one length it returns one dict per position, and
    [counts[position][letter]] is the number of words that have the letter
    at the position.  It raises in no other way than these two: [KeyError]
    on the empty set, [IndexError] on a set with words of different
    lengths. *)
Theorem letter_word_counts_counts (ch : chooser) (ws : gset (list ascii)) :
  (ws = ∅ → letter_word_counts ch ws = (∅, Raise KeyError)) ∧
  (∀ n, ws ≠ ∅ → set_Forall (λ W, length W = n) ws →
     ∃ counts,
       (letter_word_counts ch ws).2 = Ok counts ∧
       length counts = n ∧
       ∀ position letter,
         cell counts position letter = sharing ws position letter) ∧
  (∀ e, (letter_word_counts ch ws).2 = Raise e →
     (e = KeyError ∧ ws = ∅) ∨
     (e = IndexError ∧
      ∃ W W', W ∈ ws ∧ W' ∈ ws ∧ length W ≠ length W')).
Proof.
  split_and!.
  - intros ->. unfold letter_word_counts.
    pose proof (set_pop_spec ch ∅) as Hpop.
    destruct (set_pop ch ∅) as [ws1 [w|e]].
    + destruct Hpop as (Hw & _). set_solver.
    + by destruct Hpop as (_ & -> & ->).
  - intros n Hne Hlen. by apply letter_word_counts_spec.
  - intros e He. destruct (decide (ws = ∅)) as [->|Hne].
    + left. split; [|done]. unfold letter_word_counts in He.
      pose proof (set_pop_spec ch ∅) as Hpop.
      destruct (set_pop ch ∅) as [ws1 [w|e']].
      * destruct Hpop as (Hw & _). set_solver.
      * destruct Hpop as (_ & _ & ->). simpl in He. by simplify_eq.
    + right. pose proof (set_choose_L ws Hne) as [w Hw].
      destruct (decide (set_Forall (λ W, length W = length w) ws))
        as [Hsame|Hdiff].
      * destruct (letter_word_counts_spec ch ws (length w) Hne Hsame)
          as (counts & Hc & _). congruence.
      * split.
        -- unfold letter_word_counts in He.
           pose proof (set_pop_spec ch ws) as Hpop.
           destruct (set_pop ch ws) as [ws1 [w'|e']]; simpl in He.
           ++ by eapply count_loop_Raise.
           ++ by destruct Hpop as (Hempty & _).
        -- apply not_set_Forall_Exists in Hdiff as (W & HW & Hlen);
             [|apply _]. exists W, w. simpl in Hlen. done.
Qed.

Lemma letter_word_counts_counts_witness :
  ∃ counts,
    (letter_word_counts first_chooser three_words).2 = Ok counts ∧
    cell counts 1 "r"%char = 2 ∧ cell counts 0 "r"%char = 0.
Proof.
  destruct (letter_word_counts_counts first_chooser three_words)
    as (_ & Hsame & _).
  destruct (Hsame 5%nat) as (counts & Hc & _ & Hcell).
  - apply (bool_decide_unpack _). vm_compute. exact I.
  - apply (bool_decide_unpack _). vm_compute. exact I.
  - exists counts. split; [exact Hc|]. rewrite !Hcell.
    split; vm_compute; reflexivity.
Defined.

(** ** What the ranker returns *)

Lemma score_word_spec (counts : list (gmap ascii Z))
    (ws : gset (list ascii)) (pos : nat) (W : list ascii) :
  (∀ p l, cell counts p l = sharing ws p l) →
  (pos + length W ≤ length counts)%nat →
  score_word counts pos W = Ok (score_from ws pos W).
Proof.
  intros Hcell. revert pos. induction W as [|l rest IH]; intros pos Hlen;
    simpl in *; [done|].
  destruct (lookup_lt_is_Some_2 counts pos) as [d Hd]; [lia|].
  rewrite Hd, IH by lia. simpl. f_equal.
  rewrite <- Hcell. unfold cell. by rewrite Hd.
Qed.

Lemma scores_loop_spec (counts : list (gmap ascii Z))
    (ws X : gset (list ascii)) :
  (∀ p l, cell counts p l = sharing ws p l) →
  (∀ W, W ∈ X → length W = length counts) →
  ∃ scores,
    set_fold (λ word acc,
               scores ← acc;
               sc ← score_word counts 0 word;
               Ok (scores ++ [(sc, word)]))
      (Ok []) X = Ok scores ∧
    scores ≡ₚ (λ W, (score_from ws 0 W, W)) <$> elements X.
Proof.
  intros Hcell.
  apply (set_fold_ind_L (λ r (X : gset (list ascii)),
    (∀ W, W ∈ X → length W = length counts) →
    ∃ scores, r = Ok scores ∧
      scores ≡ₚ (λ W, (score_from ws 0 W, W)) <$> elements X)).
  - intros _. exists []. by rewrite elements_empty.
  - intros x Y r Hx IH Hlen.
    destruct IH as (scores & -> & Hperm); [set_solver|]. simpl.
    rewrite (score_word_spec counts ws 0 x Hcell)
      by (rewrite (Hlen x); [done|set_solver]).
    simpl. eexists. split; [done|].
    rewrite elements_union_singleton by done.
    rewrite fmap_cons, <- Hperm. by rewrite Permutation_app_comm.
Qed.

Lemma find_suggestions_spec (ch : chooser) (ws : gset (list ascii))
    (num n : nat) :
  ws ≠ ∅ → (∀ W, W ∈ ws → length W = n) →
  ∃ scores,
    (find_suggestions ch ws num).2 = Ok (take num (sorted_desc scores)) ∧
    scores ≡ₚ (λ W, (score_from ws 0 W, W)) <$> elements ws.
Proof.
  intros Hne Hlen. unfold find_suggestions.
  pose proof (letter_word_counts_words ch ws) as Hws.
  destruct (letter_word_counts_spec ch ws n Hne Hlen)
    as (counts & Hc & Hn & Hcell).
  destruct (letter_word_counts ch ws) as [ws' r]. simpl in *. subst.
  destruct (scores_loop_spec counts ws ws Hcell) as (scores & -> & Hperm).
  { intros W HW. by rewrite (Hlen W HW). }
  by exists scores.
Qed.

Lemma scores_NoDup (ws : gset (list ascii))
    (scores : list (Z * list ascii)) :
  scores ≡ₚ (λ W, (score_from ws 0 W, W)) <$> elements ws →
  NoDup scores.
Proof.
  intros ->. apply NoDup_fmap_2_strong; [|apply NoDup_elements].
  by intros W1 W2 _ _ [= _ ?].
Qed.

Lemma find_suggestions_members (ch : chooser) (ws : gset (list ascii))
    (num : nat) (suggestions : list (Z * list ascii)) (sc : Z)
    (W : list ascii) :
  (find_suggestions ch ws num).2 = Ok suggestions →
  (∃ n, ∀ W, W ∈ ws → length W = n) →
  (sc, W) ∈ suggestions → W ∈ ws ∧ sc = score_from ws 0 W.
Proof.
  intros Hs [n Hlen] Hin.
  destruct (decide (ws = ∅)) as [->|Hne].
  { unfold find_suggestions, letter_word_counts in Hs.
    pose proof (set_pop_spec ch ∅) as Hpop.
    destruct (set_pop ch ∅) as [ws1 [w|e]]; [|done].
    destruct Hpop as (Hw & _). set_solver. }
  destruct (find_suggestions_spec ch ws num n Hne Hlen)
    as (scores & Hs' & Hperm).
  rewrite Hs in Hs'. simplify_eq.
  apply elem_of_take in Hin as (i & Hi & _).
  apply list_elem_of_lookup_2 in Hi.
  rewrite sorted_desc_perm, Hperm in Hi.
  apply list_elem_of_fmap in Hi as (W' & [= -> ->] & HW).
  split; [|done]. by apply elem_of_elements.
Qed.

(** X11: what [find_suggestions] returns on a non-empty set of words of
    one length.  It returns as many suggestions as asked for, or all the
    words when there are fewer.  Each suggestion is a word of the set with
    its score: the sum, over the positions of the word, of the number of
    words of the set that share its letter there.  The suggestions come in
    strictly descending order of (score, word), and every word of the set
    that is left out comes below every suggestion in that order. *)
Theorem find_suggestions_ranks (ch : chooser) (ws : gset (list ascii))
    (num n : nat) :
  ws ≠ ∅ → set_Forall (λ W, length W = n) ws →
  ∃ suggestions,
    (find_suggestions ch ws num).2 = Ok suggestions ∧
    length suggestions = (num `min` size ws)%nat ∧
    (∀ sc W, (sc, W) ∈ suggestions →
       W ∈ ws ∧ sc = score_from ws 0 W) ∧
    descending suggestions ∧
    (∀ p W, p ∈ suggestions → W ∈ ws →
       (score_from ws 0 W, W) ∉ suggestions →
       tuple_ltb (score_from ws 0 W, W) p = true).
Proof.
  intros Hne Hlen.
  destruct (find_suggestions_spec ch ws num n Hne Hlen)
    as (scores & Hs & Hperm).
  pose proof (desc_sorted_descending _
                (sorted_desc_sorted _ (scores_NoDup _ _ Hperm))) as Hdesc.
  exists (take num (sorted_desc scores)). split_and!; [done|..].
  - rewrite length_take, sorted_desc_perm, Hperm, length_fmap. done.
  - intros sc W Hin. eapply find_suggestions_members; [done| |done].
    by exists n.
  - by apply descending_take.
  - intros p W Hp HW Hout.
    apply list_elem_of_lookup in Hp as [i Hi].
    apply lookup_take_Some in Hi as [Hi Hnum].
    assert ((score_from ws 0 W, W) ∈ sorted_desc scores) as Hq.
    { rewrite sorted_desc_perm, Hperm. apply list_elem_of_fmap.
      exists W. split; [done|]. by apply elem_of_elements. }
    apply list_elem_of_lookup in Hq as [j Hj].
    apply (Hdesc i j); [|done..].
    destruct (decide (i < j)%nat) as [?|Hji]; [done|].
    destruct Hout. apply list_elem_of_lookup. exists j.
    apply lookup_take_Some. split; [done|lia].
Qed.

Lemma find_suggestions_ranks_witness :
  ∃ suggestions,
    (find_suggestions first_chooser three_words 2).2 = Ok suggestions ∧
    suggestions = [(10, str "trace"); (10, str "crane")] ∧
    score_from three_words 0 (str "slate") = 9.
Proof.
  destruct (find_suggestions_ranks first_chooser three_words 2 5)
    as (suggestions & Hs & Hlen & Hmem & Hdesc & Htop).
  - apply (bool_decide_unpack _). vm_compute. exact I.
  - apply (bool_decide_unpack _). vm_compute. exact I.
  - exists suggestions. split; [exact Hs|]. split.
    + revert Hs. vm_compute. by intros [= <-].
    + vm_compute. reflexivity.
Defined.

(** ** The solve loop: what it offers and what it returns *)

Lemma with_words_same self : with_words self (words self) = self.
Proof. by destruct self. Qed.

Lemma round_subset self guess feedback self' :
  round self guess feedback = Ok self' → words self' ⊆ words self.
Proof.
  intros (self1 & self2 & H1 & H2 & H3)%round_Ok.
  destruct (process_feedback_Ok _ _ _ _ H1) as (_ & Hws1 & _).
  destruct (filter_words_Ok _ _ H2) as (_ & _ & _ & _ & _ & Hw).
  destruct (retighten_Ok _ _ H3) as (_ & Hws3 & _).
  intros W. rewrite Hws3, Hw, Hws1. by intros [? _].
Qed.

Lemma round_word_len self guess feedback self' :
  round self guess feedback = Ok self' → word_len self' = word_len self.
Proof.
  intros (self1 & self2 & H1 & H2 & H3)%round_Ok.
  destruct (process_feedback_Ok _ _ _ _ H1) as (Hwl1 & _).
  destruct (filter_words_Ok _ _ H2) as (Hwl2 & _).
  destruct (retighten_Ok _ _ H3) as (Hwl3 & _). congruence.
Qed.

Lemma offer_Ok_Some n suggestions stdin rest guess feedback :
  offer n suggestions stdin = (rest, Ok (Some (guess, feedback))) →
  (∃ sc, (sc, guess) ∈ suggestions) ∧ length feedback = n ∧ feedback ≠ [].
Proof.
  revert stdin. induction suggestions as [|[sc w] suggestions IH];
    intros stdin H; simpl in H; [done|].
  destruct (input_guess (Some n) stdin) as [stdin' [fb|e]] eqn:Hin.
  - simplify_eq. split; [exists sc; left|].
    destruct (input_guess_Ok _ _ _ _ Hin)
      as (_ & line & _ & _ & Hline & Hne & Hlen).
    split; [by apply Hlen|]. intros ->. by rewrite Hline in Hne.
  - assert (e = SkipWordError) as -> by by destruct e.
    destruct (IH _ H) as [[sc' Hsc] Hlen]. split; [|done].
    exists sc'. by right.
Qed.

Lemma offer_Raise n suggestions stdin rest e :
  offer n suggestions stdin = (rest, Raise e) →
  e = EOFError ∨ e = ValueError.
Proof.
  revert stdin. induction suggestions as [|[sc w] suggestions IH];
    intros stdin H; simpl in H; [done|].
  destruct (input_guess (Some n) stdin) as [stdin' [fb|e']] eqn:Hin; [done|].
  destruct (input_guess_Raise _ _ _ _ Hin)
    as (skipped & _ & [(-> & _)|(line & _ & [[-> _]|(-> & _)])]).
  - simplify_eq. by left.
  - by eapply IH.
  - simplify_eq. by right.
Qed.

Lemma lstrip_no_space s :
  Forall (λ c, isspace c = false) s → lstrip s = s.
Proof. intros Hs. destruct Hs as [|c s Hc _]; simpl; [done|]. by rewrite Hc. Qed.

Lemma strip_no_space s :
  Forall (λ c, isspace c = false) s → strip s = s.
Proof.
  intros Hs. unfold strip. rewrite (lstrip_no_space s Hs).
  rewrite lstrip_no_space; [apply reverse_involutive|].
  by apply Forall_reverse.
Qed.

Lemma strip_render feedback : strip (render feedback) = render feedback.
Proof.
  apply strip_no_space. unfold render. apply Forall_fmap.
  apply Forall_forall. by intros [] _.
Qed.

Lemma input_guess_render n feedback rest :
  feedback ≠ [] → length feedback = n →
  input_guess (Some n) (render feedback :: rest) = (rest, Ok feedback).
Proof.
  intros Hne Hlen. simpl. rewrite strip_render.
  rewrite decide_False by by destruct feedback.
  rewrite decide_False by (by rewrite length_render; intros []).
  by rewrite (proj2 (parse_feedback_render _ feedback) eq_refl).
Qed.

Lemma offer_accepts n suggestions blanks sc guess feedback rest :
  Forall (λ line, strip line = []) blanks →
  suggestions !! length blanks = Some (sc, guess) →
  feedback ≠ [] → length feedback = n →
  offer n suggestions (blanks ++ render feedback :: rest)
  = (rest, Ok (Some (guess, feedback))).
Proof.
  intros Hblank. revert suggestions.
  induction Hblank as [|line blanks Hline _ IH];
    intros [|[sc0 w0] suggestions] Hs Hne Hlen; simplify_eq/=.
  - rewrite strip_render.
    rewrite decide_False by by destruct feedback.
    rewrite decide_False by (by rewrite length_render; intros []).
    by rewrite (proj2 (parse_feedback_render _ feedback) eq_refl).
  - rewrite Hline. rewrite decide_True by done. by apply IH.
Qed.

Lemma run_returns_candidate fuel ch self stdin w :
  run_until_solved fuel ch self stdin = Some (Ok (Some w)) →
  w ∈ words self.
Proof.
  revert self stdin. induction fuel as [|fuel IH]; intros self stdin H;
    simpl in H; [done|].
  case_decide as Hsize.
  - pose proof (find_suggestions_words ch (words self) 10) as Hws.
    destruct (find_suggestions ch (words self) 10) as [ws [suggestions|e]];
      [|done].
    simpl in Hws. subst ws.
    destruct (offer (word_len self) suggestions stdin)
      as [stdin' [[[guess feedback]|]|e]]; [|done..].
    rewrite with_words_same in H.
    destruct (round self guess feedback) as [self'|e] eqn:Hr; [|done].
    apply IH in H. by eapply round_subset.
  - case_decide; [|done].
    pose proof (set_pop_spec ch (words self)) as Hpop.
    destruct (set_pop ch (words self)) as [ws [w'|e]]; [|done].
    simplify_eq. by destruct Hpop.
Qed.

Lemma sound_state_nonempty_lengths n self :
  sound_state n self → ∀ W, W ∈ words self → length W = n.
Proof. intros (_ & _ & Hws) W HW. by destruct (Hws W HW). Qed.

Lemma size_gt_nonempty (ws : gset (list ascii)) :
  (0 < size ws)%nat → ws ≠ ∅.
Proof. intros Hsize ->. rewrite size_empty in Hsize. lia. Qed.

Lemma run_raises_input_error n fuel ch self stdin e :
  sound_state n self →
  run_until_solved fuel ch self stdin = Some (Raise e) →
  input_error e.
Proof.
  revert self stdin. induction fuel as [|fuel IH]; intros self stdin Hs H;
    simpl in H; [done|].
  case_decide as Hsize.
  - pose proof (find_suggestions_words ch (words self) 10) as Hws.
    destruct (find_suggestions_total ch (words self) n 10) as [sugg Hsugg].
    { apply size_gt_nonempty. lia. }
    { by apply sound_state_nonempty_lengths. }
    pose proof (λ sc W, find_suggestions_members ch (words self) 10 sugg sc W
                          Hsugg) as Hmem.
    destruct (find_suggestions ch (words self) 10) as [ws r].
    simpl in *. subst ws r.
    destruct (offer (word_len self) sugg stdin)
      as [stdin' [[[guess feedback]|]|e']] eqn:Hoffer.
    + rewrite with_words_same in H.
      destruct (offer_Ok_Some _ _ _ _ _ _ Hoffer) as [[sc Hsc] _].
      destruct (Hmem sc guess) as [Hg _]; [|done|].
      { exists n. by apply sound_state_nonempty_lengths. }
      destruct Hs as (Hcl & Hkeys & Hwords).
      destruct (Hwords guess Hg) as [Hlen Hlow].
      destruct (round_sound n self guess feedback) as (self' & Hr & Hs');
        [done..|].
      rewrite Hr in H. by eapply IH.
    + simplify_eq. by left.
    + simplify_eq. right. by destruct (offer_Raise _ _ _ _ _ Hoffer); [left|right].
  - case_decide as Hone; [|done].
    pose proof (set_pop_spec ch (words self)) as Hpop.
    destruct (set_pop ch (words self)) as [ws [w'|e']]; [done|].
    destruct Hpop as (Hempty & _). rewrite Hempty, size_empty in Hone. lia.
Qed.

(** ** Rounds with the judge's feedback *)

Lemma lists_differ (a b : list ascii) :
  length a = length b → a ≠ b →
  ∃ i x y, a !! i = Some x ∧ b !! i = Some y ∧ x ≠ y.
Proof.
  revert b. induction a as [|x a IH]; intros [|y b] Hlen Hne;
    simplify_eq/=; try done.
  destruct (decide (x = y)) as [->|Hxy].
  - destruct (IH b) as (i & x' & y' & Ha & Hb & Hne'); [done|congruence|].
    by exists (S i), x', y'.
  - by exists 0%nat, x, y.
Qed.

Lemma judge_lookup answer guess i g :
  length answer = length guess → guess !! i = Some g →
  ∃ res a, judge answer guess !! i = Some res ∧ answer !! i = Some a ∧
    ((res = CORRECT ∧ g = a) ∨
     ((res = MISPLACED ∨ res = INCORRECT) ∧ g ≠ a)).
Proof.
  intros Hlen Hg. unfold judge.
  destruct (lookup_lt_is_Some_2 (judge_from (unmatched answer guess)
                                   answer guess) i) as [res Hres].
  { rewrite judge_from_length by done. by eapply lookup_lt_Some. }
  destruct (judge_from_lookup _ _ _ _ _ Hres) as (g' & a & Hg' & Ha & Hcase).
  exists res, a. by simplify_eq.
Qed.

Lemma wrong_guess_eliminated self answer guess self' :
  length answer = length guess → guess ≠ answer →
  round self guess (judge answer guess) = Ok self' →
  guess ∉ words self'.
Proof.
  intros Hlen Hne (self1 & self2 & H1 & H2 & H3)%round_Ok Hin.
  destruct (lists_differ guess answer) as (i & g & a & Hg & Ha & Hga);
    [done..|].
  destruct (judge_lookup answer guess i g Hlen Hg)
    as (res & a' & Hres & Ha' & Hcase).
  simplify_eq.
  destruct Hcase as [[_ ?]|[Hres' _]]; [done|].
  destruct (process_feedback_Ok _ _ _ _ H1) as (_ & _ & _ & Hforb & _).
  destruct (filter_words_Ok _ _ H2) as (_ & _ & _ & _ & _ & Hw).
  destruct (retighten_Ok _ _ H3) as (_ & Hws3 & _).
  rewrite Hws3 in Hin. apply Hw in Hin as (_ & _ & Havoid & _).
  apply (Havoid i g Hg). apply Hforb. right. exists res.
  split_and!; [done..|]. destruct Hres'; [by right|by left].
Qed.

Lemma right_guess_leaves_answer self answer self' W :
  round self answer (judge answer answer) = Ok self' →
  W ∈ words self' → length W = length answer → W = answer.
Proof.
  intros (self1 & self2 & H1 & H2 & H3)%round_Ok Hin Hlen.
  destruct (process_feedback_Ok _ _ _ _ H1) as (_ & _ & _ & _ & _ & Hcorrect).
  destruct (filter_words_Ok _ _ H2) as (_ & _ & _ & _ & _ & Hw).
  destruct (retighten_Ok _ _ H3) as (_ & Hws3 & _).
  rewrite Hws3 in Hin. apply Hw in Hin as (_ & Hagree & _).
  apply list_eq_same_length with (length answer); [done..|].
  intros i x y Hi Hx Hy.
  destruct (judge_lookup answer answer i y eq_refl Hy)
    as (res & a & Hres & Ha & Hcase).
  destruct Hcase as [[-> _]|[_ Hne]]; [|congruence].
  destruct (Hcorrect i) as [(l & Hl & _ & Hset)|[Hno _]].
  - specialize (Hagree i l Hset). congruence.
  - destruct Hno. split; [by exists y|done].
Qed.

Lemma all_empty_size (ws : gset (list ascii)) :
  (∀ W, W ∈ ws → length W = 0%nat) → (size ws ≤ 1)%nat.
Proof.
  intros Hall. rewrite <- (size_singleton (C := gset (list ascii)) []).
  apply subseteq_size. intros W HW. apply elem_of_singleton.
  by apply nil_length_inv, Hall.
Qed.

Lemma honest_run_solves (ch : chooser) (answer : list ascii) (n fuel : nat)
    (self : WordleSolver) (stdin : list (list ascii)) :
  sound_state n self → word_len self = n →
  answer ∈ words self → answer_fits answer self →
  honest_input ch answer self stdin →
  (size (words self) ≤ fuel)%nat →
  run_until_solved fuel ch self stdin = Some (Ok (Some answer)).
Proof.
  revert self stdin. induction fuel as [|fuel IH];
    intros self stdin Hs Hwl Hin Hfit Hhonest Hsize.
  { assert (size (words self) = 0%nat) as Hzero by lia.
    apply size_empty_inv in Hzero. set_solver. }
  simpl. case_decide as Hmany.
  - destruct Hhonest as [self stdin Hfew|self suggestions blanks sc guess rest
                           self' _ Hsugg Hblanks Hguess Hround Hrest]; [lia|].
    pose proof (find_suggestions_words ch (words self) 10) as Hws.
    assert (guess ∈ words self) as Hg.
    { eapply (find_suggestions_members ch (words self) 10); [done| |].
      - exists n. by apply sound_state_nonempty_lengths.
      - by eapply list_elem_of_lookup_2. }
    destruct (find_suggestions ch (words self) 10) as [ws r].
    simpl in *. subst ws r.
    pose proof (sound_state_nonempty_lengths n self Hs) as Hlens.
    assert (length (judge answer guess) = n) as Hjl.
    { unfold judge. rewrite judge_from_length; [by apply Hlens|].
      by rewrite !Hlens. }
    rewrite (offer_accepts (word_len self) suggestions blanks sc guess
               (judge answer guess) rest); [|done..| |congruence].
    2:{ intros Hnil. assert (n = 0%nat) as Hz by by rewrite <- Hjl, Hnil.
        rewrite Hz in Hlens.
        pose proof (all_empty_size (words self) Hlens). lia. }
    rewrite with_words_same, Hround.
    destruct (round_sound n self guess (judge answer guess))
      as (self'' & Hr' & Hs'); [done|by apply Hlens| |].
    { destruct Hs as (_ & _ & Hwords). by destruct (Hwords guess Hg). }
    assert (self'' = self') as -> by congruence.
    destruct (round_fits answer self guess self') as [Hin' Hfit'];
      [by rewrite !Hlens|done..|].
    apply IH; [done| |done..|].
    { rewrite <- Hwl. by eapply round_word_len. }
    pose proof (round_subset _ _ _ _ Hround) as Hsub.
    destruct (decide (guess = answer)) as [->|Hne].
    + assert (words self' ⊆ {[answer]}) as Hone.
      { intros W HW. apply elem_of_singleton.
        eapply right_guess_leaves_answer; [done..|].
        rewrite !Hlens; [done..|]. by apply Hsub. }
      apply subseteq_size in Hone. rewrite size_singleton in Hone. lia.
    + assert (words self' ⊂ words self) as Hstrict.
      { split; [done|]. intros Hback.
        eapply (wrong_guess_eliminated self answer guess); [|done..|].
        - by rewrite !Hlens.
        - by apply Hback. }
      apply subset_size in Hstrict. lia.
  - assert (words self = {[answer]}) as Hone.
    { apply set_eq. intros W. rewrite elem_of_singleton. split; [|by intros ->].
      intros HW. destruct (decide (W = answer)) as [|Hne]; [done|].
      assert ({[W; answer]} ⊆ words self) as Hsub by set_solver.
      apply subseteq_size in Hsub.
      rewrite size_union, !size_singleton in Hsub by set_solver. lia. }
    rewrite Hone, size_singleton. rewrite decide_True by done.
    pose proof (set_pop_spec ch ({[answer]} : gset (list ascii))) as Hpop.
    destruct (set_pop ch {[answer]}) as [ws [w|e]].
    + destruct Hpop as [Hw _]. apply elem_of_singleton in Hw. by subst.
    + destruct Hpop as [Hempty _].
      by apply (non_empty_singleton_L (C := gset (list ascii))) in Hempty.
Qed.

(** ** The candidates after a round with the judge's feedback *)

Lemma in_place_agree letter W answer guess :
  length W = length guess → length answer = length guess →
  (∀ i g, guess !! i = Some g → (W !! i = Some g ↔ answer !! i = Some g)) →
  in_place letter W guess = in_place letter answer guess.
Proof.
  revert W answer. induction guess as [|g guess IH];
    intros [|w W] [|a answer] HlW HlA Hpos; simplify_eq/=; try done.
  rewrite (IH W answer); [|done..|].
  - pose proof (Hpos 0%nat g eq_refl) as H0. simpl in H0.
    repeat case_decide; try done; exfalso.
    + destruct_and!. subst. destruct H0 as [H0 _].
      specialize (H0 eq_refl). naive_solver.
    + destruct_and!. subst. destruct H0 as [_ H0].
      specialize (H0 eq_refl). naive_solver.
  - intros i g'. apply (Hpos (S i) g').
Qed.

Lemma judge_from_agree pW pA W answer guess :
  length W = length guess → length answer = length guess →
  (∀ i g, guess !! i = Some g → (W !! i = Some g ↔ answer !! i = Some g)) →
  (∀ l, Z.min (Counter pW l) (out_of_place l answer guess)
        = Z.min (Counter pA l) (out_of_place l answer guess)) →
  judge_from pW W guess = judge_from pA answer guess.
Proof.
  revert pW pA W answer. induction guess as [|g guess IH];
    intros pW pA [|w W] [|a answer] HlW HlA Hpos Hpool; simplify_eq/=;
    try done.
  pose proof (Hpos 0%nat g eq_refl) as H0. simpl in H0.
  assert (∀ i g', guess !! i = Some g' →
            (W !! i = Some g' ↔ answer !! i = Some g')) as Hpos'.
  { intros i g'. apply (Hpos (S i) g'). }
  destruct (decide (g = a)) as [->|Hga].
  - rewrite decide_True by (destruct H0 as [_ H0]; by injection (H0 eq_refl)).
    f_equal. apply IH; [done..|]. intros l. specialize (Hpool l).
    rewrite decide_False in Hpool by naive_solver. by rewrite Z.add_0_l in Hpool.
  - rewrite decide_False.
    2:{ intros ->. destruct H0 as [H0 _]. specialize (H0 eq_refl).
        congruence. }
    pose proof (Hpool g) as Hg.
    rewrite decide_True in Hg by done.
    pose proof (out_of_place_nonneg g answer guess) as Hnn.
    pose proof (Counter_nonneg pW g) as HnW.
    pose proof (Counter_nonneg pA g) as HnA.
    pose proof (Counter_pos pW g) as HpW.
    pose proof (Counter_pos pA g) as HpA.
    destruct (decide (g ∈ pW)) as [HinW|HinW];
      destruct (decide (g ∈ pA)) as [HinA|HinA].
    + f_equal. apply IH; [done..|]. intros l. specialize (Hpool l).
      rewrite !Counter_remove_one.
      destruct (decide (g = l)) as [->|Hne].
      * rewrite !decide_True by done. lia.
      * rewrite !(decide_False (P := g = l ∧ _)) by naive_solver.
        rewrite decide_False in Hpool by naive_solver. lia.
    + exfalso. apply HpW in HinW.
      assert (¬ 0 < Counter pA g) as HzA by (by rewrite <- HpA). lia.
    + exfalso. apply HpA in HinA.
      assert (¬ 0 < Counter pW g) as HzW by (by rewrite <- HpW). lia.
    + f_equal. apply IH; [done..|]. intros l. specialize (Hpool l).
      destruct (decide (g = l)) as [->|Hne].
      * assert (¬ 0 < Counter pA l) as HzA by (by rewrite <- HpA).
        assert (¬ 0 < Counter pW l) as HzW by (by rewrite <- HpW). lia.
      * rewrite decide_False in Hpool by naive_solver. lia.
Qed.

Lemma judge_agree W answer guess :
  length W = length guess → length answer = length guess →
  (∀ i g, guess !! i = Some g → (W !! i = Some g ↔ answer !! i = Some g)) →
  (∀ l, Counter W l = Counter answer l ∨
        (Counter guess l ≤ Counter W l ∧
         Counter guess l ≤ Counter answer l)) →
  judge W guess = judge answer guess.
Proof.
  intros HlW HlA Hpos Hcount. unfold judge.
  apply judge_from_agree; [done..|]. intros l.
  rewrite !Counter_unmatched by done.
  rewrite (in_place_agree l W answer guess) by done.
  pose proof (Counter_in_out answer guess l HlA).
  destruct (Hcount l) as [->|[? ?]]; lia.
Qed.

Lemma round_kept_bounds n self guess feedback self' W l :
  sound_state n self → l ∈ guess → lowercase guess →
  round self guess feedback = Ok self' → W ∈ words self' →
  (correctish_count guess feedback l ≠ 0 →
   correctish_count guess feedback l ≤ Counter W l) ∧
  (incorrect_count guess feedback l ≠ 0 →
   Counter W l ≤ Counter guess l - incorrect_count guess feedback l).
Proof.
  intros (_ & Hkeys & _) Hl Hlow (self1 & self2 & H1 & H2 & H3)%round_Ok Hin.
  destruct (process_feedback_Ok _ _ _ _ H1) as (_ & _ & Hlc & _).
  destruct (filter_words_Ok _ _ H2) as (_ & _ & _ & _ & _ & Hw).
  destruct (retighten_Ok _ _ H3) as (_ & Hws3 & _).
  rewrite Hws3 in Hin. apply Hw in Hin as (_ & _ & _ & _ & Hall).
  assert (is_Some (letter_counts self !! l)) as [[lo hi] Hb].
  { apply (proj1 (alphabet_keys_spec _) Hkeys).
    by apply (proj1 (Forall_forall _ _) Hlow). }
  specialize (Hlc l). rewrite Hb in Hlc. cbn [fmap option_fmap option_map] in Hlc.
  unfold bounds_after in Hlc. cbn [fst snd] in Hlc.
  specialize (Hall l _ _ Hlc).
  rewrite guess_occurrences_Counter in Hall.
  split; intros Hne; repeat case_decide; try done; lia.
Qed.

Lemma round_kept_same_feedback n self answer guess self' W :
  sound_state n self → length guess = n → lowercase guess →
  length answer = n →
  round self guess (judge answer guess) = Ok self' →
  W ∈ words self' → judge W guess = judge answer guess.
Proof.
  intros Hs Hlg Hlow Hla Hround Hin.
  pose proof (sound_state_nonempty_lengths n self Hs) as Hlens.
  assert (length W = length guess) as HlW.
  { rewrite Hlg. apply Hlens. by eapply round_subset. }
  assert (length answer = length guess) as HlA by congruence.
  apply judge_agree; [done..| |].
  - pose proof Hround as (self1 & self2 & H1 & H2 & H3)%round_Ok.
    destruct (process_feedback_Ok _ _ _ _ H1)
      as (_ & _ & _ & Hforb & _ & Hcorrect).
    destruct (filter_words_Ok _ _ H2) as (_ & _ & _ & _ & _ & Hw).
    destruct (retighten_Ok _ _ H3) as (_ & Hws3 & _).
    pose proof Hin as Hin'.
    rewrite Hws3 in Hin'. apply Hw in Hin' as (_ & Hagree & Havoid & _).
    intros i g Hgi.
    destruct (judge_lookup answer guess i g HlA Hgi)
      as (res & a & Hres & Ha & [[-> ->]|[Hres' Hne]]).
    + destruct (Hcorrect i) as [(l & Hl & _ & Hset)|[Hno _]].
      * specialize (Hagree i l Hset). split; congruence.
      * destruct Hno. split; [by exists a|done].
    + split; [|congruence]. intros HWi. exfalso.
      apply (Havoid i g HWi). apply Hforb. right. exists res.
      split_and!; [done..|]. destruct Hres'; [by right|by left].
  - intros l.
    pose proof (Counter_nonneg W l). pose proof (Counter_nonneg answer l).
    pose proof (Counter_nonneg guess l) as Hgl.
    destruct (decide (l ∈ guess)) as [Hl|Hl].
    + destruct (round_kept_bounds n self guess (judge answer guess) self' W l)
        as [HC HK]; [done..|].
      rewrite judge_correctish in HC by done.
      rewrite judge_incorrect in HK by done. lia.
    + right. assert (¬ 0 < Counter guess l) by by rewrite <- Counter_pos.
      lia.
Qed.

Lemma round_candidates_fit self guess feedback self' :
  round self guess feedback = Ok self' → candidates_fit self'.
Proof.
  intros (self1 & self2 & H1 & H2 & H3)%round_Ok W HW.
  destruct (filter_words_Ok _ _ H2) as (_ & Hcl & Hml & Hlc & _ & Hw).
  pose proof (retighten_Ok _ _ H3) as (_ & Hws3 & _).
  rewrite Hws3 in HW. pose proof HW as HW2.
  apply Hw in HW as (_ & Hagree & Havoid & _ & Hall).
  apply (retighten_fits W self2 self'); [exact HW2| |done].
  unfold answer_fits. rewrite Hcl, Hml, Hlc. split_and!; done.
Qed.

Lemma init_candidates_fit (n : nat) (dictionary : gset (list ascii)) :
  candidates_fit (init n dictionary).
Proof. intros W HW. apply init_fits. by rewrite init_words in HW. Qed.

Lemma round_same_feedback_kept self answer guess self' W :
  length answer = length guess → length W = length guess →
  W ∈ words self → answer_fits W self →
  round self guess (judge answer guess) = Ok self' →
  judge W guess = judge answer guess → W ∈ words self'.
Proof.
  intros HlA HlW HW Hfit Hround Hsame. rewrite <- Hsame in Hround.
  by destruct (round_fits W self guess self').
Qed.

(** ** The solve loop, round by round *)

Lemma init_word_len (n : nat) (dictionary : gset (list ascii)) :
  word_len (init n dictionary) = n.
Proof. unfold init. by destruct (find_min_max_letter_repeats dictionary). Qed.

Lemma init_letter_counts_stats (n : nat) (dictionary : gset (list ascii))
    (l : ascii) :
  letter_counts (init n dictionary) !! l =
  (lo ← (find_min_max_letter_repeats dictionary).1 !! l;
   hi ← (find_min_max_letter_repeats dictionary).2 !! l;
   Some (lo, hi)).
Proof.
  unfold init.
  pose proof (find_min_max_letter_repeats_spec dictionary l) as Hstat.
  destruct (find_min_max_letter_repeats dictionary) as [mn mx].
  cbn [fst snd letter_counts] in *.
  rewrite lookup_list_to_map_key. case_decide.
  - destruct Hstat as (lo & hi & Hlo & Hhi & _). rewrite Hlo, Hhi. simpl.
    by rewrite (lookup_total_correct _ _ _ Hlo),
               (lookup_total_correct _ _ _ Hhi).
  - destruct Hstat as [-> _]. done.
Qed.





Lemma play_version_space n answer guesses self self' :
  sound_state n self → candidates_fit self →
  Forall (λ guess, length guess = n ∧ lowercase guess) guesses →
  length answer = n →
  play answer guesses self = Ok self' →
  ∀ W, W ∈ words self' ↔ W ∈ words self ∧ indistinguishable answer guesses W.
Proof.
  intros Hs Hfit Hguesses Hla. revert self Hs Hfit.
  induction Hguesses as [|guess guesses [Hlg Hlow] _ IH];
    intros self Hs Hfit Hplay W; simpl in Hplay.
  - simplify_eq. split; [|by intros [? _]]. intros HW. split; [done|].
    constructor.
  - inv_bind Hplay.
    destruct (round_sound n self guess (judge answer guess))
      as (self1 & Hr & Hs1); [done..|].
    assert (a = self1) as -> by congruence.
    rewrite (IH self1 Hs1 (round_candidates_fit _ _ _ _ Hr) Hplay W).
    unfold indistinguishable. rewrite Forall_cons. split.
    + intros [HW Hrest]. split_and!; [by eapply round_subset| |done].
      by apply (round_kept_same_feedback n self answer guess self1 W).
    + intros (HW & Hsame & Hrest). split; [|done].
      eapply round_same_feedback_kept; [| |done|by apply Hfit|done|done].
      * congruence.
      * rewrite Hlg. by apply (sound_state_nonempty_lengths n self).
Qed.

(** X12: the [for suggestion in ...] loop of [run_until_solved].  When it
    ends with a feedback, the feedback belongs to one of the suggestions,
    is not empty and has the length asked for.  [SkipWordError] never
    leaves the loop: it raises [EOFError] or [ValueError] only.  And a
    provider that answers blank lines and then one feedback line has
    declined as many suggestions as there are blank lines and accepted the
    next; the lines after the feedback are left unread. *)
Theorem offer_outcomes (n : nat) (suggestions : list (Z * list ascii))
    (rest : list (list ascii)) :
  (∀ stdin guess feedback,
     offer n suggestions stdin = (rest, Ok (Some (guess, feedback))) →
     (∃ sc, (sc, guess) ∈ suggestions) ∧
     length feedback = n ∧ feedback ≠ []) ∧
  (∀ stdin e, offer n suggestions stdin = (rest, Raise e) →
     e = EOFError ∨ e = ValueError) ∧
  (∀ blanks sc guess feedback,
     Forall (λ line, strip line = []) blanks →
     suggestions !! length blanks = Some (sc, guess) →
     feedback ≠ [] → length feedback = n →
     offer n suggestions (blanks ++ render feedback :: rest)
     = (rest, Ok (Some (guess, feedback)))).
Proof.
  split_and!.
  - intros stdin guess feedback. apply offer_Ok_Some.
  - intros stdin e. apply offer_Raise.
  - intros blanks sc guess feedback. apply offer_accepts.
Qed.

Lemma offer_outcomes_witness :
  offer 5 three_suggestions
    [str ""; str "xx+x+"; str "left"]
  = ([str "left"],
     Ok (Some (str "crane",
               [INCORRECT; INCORRECT; CORRECT; INCORRECT; CORRECT]))) ∧
  length [INCORRECT; INCORRECT; CORRECT; INCORRECT; CORRECT] = 5%nat.
Proof.
  destruct (offer_outcomes 5 three_suggestions [str "left"])
    as (Hret & _ & Hacc).
  assert (offer 5 three_suggestions [str ""; str "xx+x+"; str "left"]
          = ([str "left"],
             Ok (Some (str "crane",
                       [INCORRECT; INCORRECT; CORRECT; INCORRECT; CORRECT]))))
    as H.
  { apply (Hacc [str ""] 10 (str "crane")
             [INCORRECT; INCORRECT; CORRECT; INCORRECT; CORRECT]).
    - apply (bool_decide_unpack _). vm_compute. exact I.
    - vm_compute. reflexivity.
    - discriminate.
    - reflexivity. }
  split; [exact H|]. exact (proj1 (proj2 (Hret _ _ _ H))).
Defined.

(** X13: a word that [run_until_solved] returns is one of the candidates it
    started with. *)
Theorem run_until_solved_returns_candidate (fuel : nat) (ch : chooser)
    (self : WordleSolver) (stdin : list (list ascii)) (w : list ascii) :
  run_until_solved fuel ch self stdin = Some (Ok (Some w)) →
  w ∈ words self.
Proof. apply run_returns_candidate. Qed.

Lemma run_until_solved_returns_candidate_witness :
  run_until_solved 2 first_chooser (init 5 three_words) [str "?x+x+"]
    = Some (Ok (Some (str "slate"))) ∧
  str "slate" ∈ words (init 5 three_words).
Proof.
  assert (run_until_solved 2 first_chooser (init 5 three_words)
            [str "?x+x+"] = Some (Ok (Some (str "slate")))) as H.
  { vm_compute. reflexivity. }
  split; [exact H|].
  exact (run_until_solved_returns_candidate _ _ _ _ _ H).
Defined.

(** X14: on a solver whose candidates are lowercase words of one length,
    with [correct_letters] of that length and bounds for the alphabet,
    [run_until_solved] raises only what the input causes: [EOFError],
    [ValueError], or the exception for a round in which every suggestion
    was declined.  No [KeyError] or [IndexError] comes out of the solver's
    own code, and [SkipWordError] never leaves the loop. *)
Theorem run_until_solved_raises_input_errors (n fuel : nat) (ch : chooser)
    (self : WordleSolver) (stdin : list (list ascii)) (e : exn) :
  sound_state n self →
  run_until_solved fuel ch self stdin = Some (Raise e) →
  input_error e.
Proof. apply run_raises_input_error. Qed.

Lemma run_until_solved_raises_input_errors_witness :
  run_until_solved 1 first_chooser (init 5 three_words) [str "xx"]
    = Some (Raise EOFError) ∧
  input_error EOFError.
Proof.
  assert (run_until_solved 1 first_chooser (init 5 three_words) [str "xx"]
          = Some (Raise EOFError)) as H.
  { vm_compute. reflexivity. }
  split; [exact H|].
  apply (run_until_solved_raises_input_errors 5 1 first_chooser
           (init 5 three_words) [str "xx"]); [|exact H].
  apply init_sound. apply (bool_decide_unpack _). vm_compute. exact I.
Defined.

(** X15: what a round keeps.  Take a state in which every candidate meets
    the store, as [__init__] and every round leave it, and a round whose
    feedback is the judge's for some answer.  The candidates left are
    exactly the earlier candidates for which the judge gives the same
    feedback on that guess: the filter eliminates every word the feedback
    rules out and no other.  Afterwards every candidate meets the store
    again. *)
Theorem honest_round_keeps_consistent (n : nat) (self self' : WordleSolver)
    (answer guess : list ascii) :
  sound_state n self → candidates_fit self →
  length guess = n → lowercase guess → length answer = n →
  round self guess (judge answer guess) = Ok self' →
  (∀ W, W ∈ words self' ↔
        W ∈ words self ∧ judge W guess = judge answer guess) ∧
  candidates_fit self'.
Proof.
  intros Hs Hfit Hlg Hlow Hla Hround. split.
  - intros W. split.
    + intros HW. split; [by eapply round_subset|].
      by apply (round_kept_same_feedback n self answer guess self' W).
    + intros [HW Hsame].
      eapply round_same_feedback_kept; [| |done|by apply Hfit|done|done].
      * congruence.
      * rewrite Hlg. by apply (sound_state_nonempty_lengths n self).
  - by eapply round_candidates_fit.
Qed.

Lemma honest_round_keeps_consistent_witness :
  round (init 5 three_words) (str "crane")
    (judge (str "slate") (str "crane")) = Ok slate_found ∧
  str "slate" ∈ words slate_found ∧
  ¬ str "trace" ∈ words slate_found.
Proof.
  assert (round (init 5 three_words) (str "crane")
            (judge (str "slate") (str "crane")) = Ok slate_found) as H.
  { vm_compute. reflexivity. }
  destruct (honest_round_keeps_consistent 5 (init 5 three_words) slate_found
              (str "slate") (str "crane")) as [Hiff _].
  - apply init_sound. apply (bool_decide_unpack _). vm_compute. exact I.
  - apply init_candidates_fit.
  - reflexivity.
  - apply (bool_decide_unpack _). vm_compute. exact I.
  - reflexivity.
  - exact H.
  - split_and!; [exact H| |].
    + apply Hiff. split; [|reflexivity].
      apply (bool_decide_unpack _). vm_compute. exact I.
    + intros [_ Hsame]%Hiff. vm_compute in Hsame. discriminate.
Defined.

(** X16: the candidates after any number of rounds.  From a fresh solver
    on a dictionary of lowercase words of one length, rounds with lowercase
    guesses of that length and the judge's feedback for an answer all
    return, and the candidates left are exactly the words of the
    dictionary that no guess tells from the answer. *)
Theorem honest_play_version_space (n : nat) (dictionary : gset (list ascii))
    (answer : list ascii) (guesses : list (list ascii)) :
  set_Forall (λ W, length W = n ∧ lowercase W) dictionary →
  Forall (λ guess, length guess = n ∧ lowercase guess) guesses →
  length answer = n →
  ∃ self', play answer guesses (init n dictionary) = Ok self' ∧
    ∀ W, W ∈ words self' ↔
         W ∈ dictionary ∧ indistinguishable answer guesses W.
Proof.
  intros Hd Hguesses Hla.
  destruct (play_total n answer guesses (init n dictionary))
    as [self' Hplay]; [by apply init_sound|done|].
  exists self'. split; [done|]. intros W.
  rewrite (play_version_space n answer guesses (init n dictionary) self');
    [by rewrite init_words|by apply init_sound|apply init_candidates_fit
    |done..].
Qed.

Lemma honest_play_version_space_witness :
  ∃ self', play (str "slate") [str "crane"] (init 5 three_words) = Ok self' ∧
    str "slate" ∈ words self' ∧ ¬ str "trace" ∈ words self'.
Proof.
  destruct (honest_play_version_space 5 three_words (str "slate")
              [str "crane"]) as (self' & Hplay & Hiff).
  - apply (bool_decide_unpack _). vm_compute. exact I.
  - apply (bool_decide_unpack _). vm_compute. exact I.
  - reflexivity.
  - exists self'. split_and!; [exact Hplay| |].
    + apply Hiff. split.
      * apply (bool_decide_unpack _). vm_compute. exact I.
      * constructor; [reflexivity|constructor].
    + intros [_ Hsame]%Hiff. apply Forall_cons in Hsame as [Hsame _].
      vm_compute in Hsame. discriminate.
Defined.

(** X17: every round with the judge's feedback makes progress.  The guess
    being a candidate: a guess that is not the answer is eliminated, so
    the candidate set gets strictly smaller; a guess that is the answer
    leaves no candidate but the answer, and leaves the answer when it met
    the store. *)
Theorem honest_round_progress (n : nat) (self self' : WordleSolver)
    (answer guess : list ascii) :
  sound_state n self → guess ∈ words self → length answer = n →
  round self guess (judge answer guess) = Ok self' →
  words self' ⊆ words self ∧
  (guess ≠ answer →
     ¬ guess ∈ words self' ∧
     (size (words self') < size (words self))%nat) ∧
  (guess = answer →
     words self' ⊆ {[answer]} ∧
     (answer_fits answer self → words self' = {[answer]})).
Proof.
  intros Hs Hg Hla Hround.
  pose proof (sound_state_nonempty_lengths n self Hs) as Hlens.
  pose proof (round_subset _ _ _ _ Hround) as Hsub.
  assert (length answer = length guess) as Hlen by by rewrite (Hlens guess Hg).
  split_and!; [done| |].
  - intros Hne.
    pose proof (wrong_guess_eliminated self answer guess self' Hlen Hne Hround)
      as Hout.
    split; [done|]. apply subset_size. split; [done|].
    intros Hback. by apply Hout, Hback.
  - intros ->.
    assert (words self' ⊆ {[answer]}) as Hone.
    { intros W HW. apply elem_of_singleton.
      eapply right_guess_leaves_answer; [done..|].
      rewrite Hla. by apply Hlens, Hsub. }
    split; [done|]. intros Hfit.
    destruct (round_fits answer self answer self') as [Hin _]; [done..|].
    apply set_eq. intros W. split; [apply Hone|].
    intros ->%elem_of_singleton. done.
Qed.

Lemma honest_round_progress_witness :
  ¬ str "crane" ∈ words slate_found ∧
  (size (words slate_found) < size (words (init 5 three_words)))%nat.
Proof.
  destruct (honest_round_progress 5 (init 5 three_words) slate_found
              (str "slate") (str "crane")) as (_ & Hwrong & _).
  - apply init_sound. apply (bool_decide_unpack _). vm_compute. exact I.
  - apply (bool_decide_unpack _). vm_compute. exact I.
  - reflexivity.
  - vm_compute. reflexivity.
  - apply Hwrong. discriminate.
Defined.

(** X18: against an honest provider the solver finds the answer.  The
    dictionary holds lowercase words of one length, the answer among them.
    As long as more than one candidate is left the provider declines some
    suggestions with blank lines and answers the next with the judge's
    feedback for it.  Then [run_until_solved] returns the answer, after at
    most as many iterations as the dictionary has words. *)
Theorem honest_provider_solves (ch : chooser) (n : nat)
    (dictionary : gset (list ascii)) (answer : list ascii)
    (stdin : list (list ascii)) (fuel : nat) :
  set_Forall (λ W, length W = n ∧ lowercase W) dictionary →
  answer ∈ dictionary →
  honest_input ch answer (init n dictionary) stdin →
  (size dictionary ≤ fuel)%nat →
  run_until_solved fuel ch (init n dictionary) stdin
  = Some (Ok (Some answer)).
Proof.
  intros Hd Hin Hhonest Hfuel.
  apply (honest_run_solves ch answer n); [by apply init_sound
    |apply init_word_len|by rewrite init_words|by apply init_fits|done
    |by rewrite init_words].
Qed.

Lemma honest_provider_solves_witness :
  run_until_solved 3 first_chooser (init 5 three_words)
    [str ""; str "xx+x+"]
  = Some (Ok (Some (str "slate"))).
Proof.
  apply (honest_provider_solves first_chooser 5 three_words (str "slate")).
  - apply (bool_decide_unpack _). vm_compute. exact I.
  - apply (bool_decide_unpack _). vm_compute. exact I.
  - apply (honest_input_round first_chooser (str "slate")
             (init 5 three_words) three_suggestions [str ""] 10
             (str "crane") [] slate_found).
    + vm_compute. lia.
    + vm_compute. reflexivity.
    + apply (bool_decide_unpack _). vm_compute. exact I.
    + vm_compute. reflexivity.
    + vm_compute. reflexivity.
    + apply honest_input_done. vm_compute. lia.
  - vm_compute. lia.
Defined.



(** X20: after a round that leaves candidates, the bounds of a letter are
    the candidates' own statistics: every candidate has the letter at
    least [lo] and at most [hi] times, some candidate has it exactly [hi]
    times, and some candidate has it exactly [lo] times unless [lo] is 999
    or more. *)
Theorem round_bounds_are_candidate_counts (self self' : WordleSolver)
    (guess : list ascii) (feedback : list GuessState) (letter : ascii)
    (lo hi : Z) :
  round self guess feedback = Ok self' →
  words self' ≠ ∅ →
  letter_counts self' !! letter = Some (lo, hi) →
  (∀ W, W ∈ words self' → lo ≤ Counter W letter ≤ hi) ∧
  (∃ W, W ∈ words self' ∧ Counter W letter = hi) ∧
  ((∃ W, W ∈ words self' ∧ Counter W letter = lo) ∨ 999 ≤ lo).
Proof.
  intros (self1 & self2 & H1 & H2 & H3)%round_Ok Hne Hb.
  destruct (filter_words_Ok _ _ H2) as (_ & _ & _ & Hlc2 & _ & Hw).
  destruct (retighten_Ok _ _ H3) as (_ & Hws3 & _ & _ & _ & Hlc3).
  rewrite Hws3 in *. rewrite Hlc3 in Hb.
  destruct (letter_counts self2 !! letter) as [[b1 b2]|] eqn:Hb2; [|done].
  simpl in Hb.
  pose proof (find_min_max_letter_repeats_spec (words self2) letter) as Hspec.
  case_decide as Hl; [|by destruct Hspec as [Hnone _]; rewrite Hnone in Hb].
  clear Hspec.
  destruct (find_min_max_attained (words self2) letter Hl)
    as (mn & mx & Hmn & Hmx & Hall & Hlo & Hhi).
  rewrite Hmn, Hmx in Hb. simpl in Hb. simplify_eq.
  assert (∀ W, W ∈ words self2 → b1 ≤ Counter W letter ≤ b2) as Hfit.
  { intros W HW. apply Hw in HW as (_ & _ & _ & _ & Hin).
    apply (Hin letter). by rewrite <- Hlc2. }
  split_and!.
  - intros W HW. specialize (Hall W HW). specialize (Hfit W HW). lia.
  - destruct Hhi as [->|(W & HW & ->)].
    + apply set_choose_L in Hne as [W HW]. exists W. split; [done|].
      pose proof (Counter_nonneg W letter).
      specialize (Hall W HW). specialize (Hfit W HW). lia.
    + exists W. split; [done|]. specialize (Hfit W HW). lia.
  - destruct Hlo as [->|(W & HW & ->)]; [right; lia|].
    left. exists W. split; [done|]. specialize (Hfit W HW). lia.
Qed.

Lemma round_bounds_are_candidate_counts_witness :
  letter_counts slate_found !! "e"%char = Some (1, 1) ∧
  ∃ W, W ∈ words slate_found ∧ Counter W "e"%char = 1.
Proof.
  assert (letter_counts slate_found !! "e"%char = Some (1, 1)) as H.
  { vm_compute. reflexivity. }
  split; [exact H|].
  destruct (round_bounds_are_candidate_counts (init 5 three_words)
              slate_found (str "crane") (judge (str "slate") (str "crane"))
              "e"%char 1 1) as (_ & Hhi & _).
  - vm_compute. reflexivity.
  - apply (bool_decide_unpack _). vm_compute. exact I.
  - exact H.
  - exact Hhi.
Defined.

(** X21: the order in which the loops visit a set or a dict does not
    matter.  Whatever order the words are visited in,
    [find_min_max_letter_repeats] computes the same two dicts and
    [filter_words] ends alike, with the same set or with an exception;
    whatever order the items of the per-round counters and of
    [letter_counts] are visited in, the bounds that [process_feedback] and
    the end of the loop body write are the same. *)
Theorem iteration_order_irrelevant (self : WordleSolver)
    (guess : list ascii) (visited : list (list ascii)) :
  visited ≡ₚ elements (words self) →
  foldr repeats_of_word
    (list_to_map ((λ letter, (letter, 999)) <$> ascii_lowercase),
     list_to_map ((λ letter, (letter, 0)) <$> ascii_lowercase))
    visited
  = find_min_max_letter_repeats (words self) ∧
  same_outcome (foldr (filter_step self) (Ok ∅) visited)
               (set_fold (filter_step self) (Ok ∅) (words self)) ∧
  (∀ lc counts items, items ≡ₚ map_to_list counts →
     foldr (uncurry raise_min) (Ok lc) items
     = map_fold raise_min (Ok lc) counts ∧
     foldr (uncurry (lower_max guess)) (Ok lc) items
     = map_fold (lower_max guess) (Ok lc) counts) ∧
  (∀ mn mx items, items ≡ₚ map_to_list (letter_counts self) →
     foldr (uncurry (retighten_step mn mx)) (Ok ∅) items
     = map_fold (retighten_step mn mx) (Ok ∅) (letter_counts self)).
Proof.
  intros Hperm. split_and!.
  - by apply find_min_max_letter_repeats_any_order.
  - by apply filter_words_any_order.
  - intros lc counts items Hitems. split.
    + by apply raise_min_any_order.
    + by apply lower_max_any_order.
  - intros mn mx items Hitems. by apply retighten_any_order.
Qed.

Lemma iteration_order_irrelevant_witness :
  foldr repeats_of_word
    (list_to_map ((λ letter, (letter, 999)) <$> ascii_lowercase),
     list_to_map ((λ letter, (letter, 0)) <$> ascii_lowercase))
    (reverse (elements (words after_crane)))
  = find_min_max_letter_repeats (words after_crane).
Proof.
  destruct (iteration_order_irrelevant after_crane (str "crane")
              (reverse (elements (words after_crane)))) as [Hstats _].
  - apply reverse_Permutation.
  - exact Hstats.
Defined.

(** X22: the store that [__init__] builds.  [letter_counts] has the
    letters [a]-[z] for keys and no other.  The bounds of a letter hold
    the count of the letter in every word of the dictionary; when the
    dictionary is not empty the maximum is the count in one of its words,
    and so is the minimum unless it is 999; on an empty dictionary the
    bounds are 999 and 0.  Every word of the dictionary meets the store. *)
Theorem init_bounds_are_dictionary_counts (n : nat)
    (dictionary : gset (list ascii)) :
  (∀ letter, is_Some (letter_counts (init n dictionary) !! letter) ↔
             letter ∈ ascii_lowercase) ∧
  (∀ letter lo hi,
     letter_counts (init n dictionary) !! letter = Some (lo, hi) →
     (∀ W, W ∈ dictionary → lo ≤ Counter W letter ≤ hi) ∧
     (dictionary = ∅ → lo = 999 ∧ hi = 0) ∧
     (dictionary ≠ ∅ →
        (∃ W, W ∈ dictionary ∧ Counter W letter = hi) ∧
        ((∃ W, W ∈ dictionary ∧ Counter W letter = lo) ∨ lo = 999))) ∧
  candidates_fit (init n dictionary).
Proof.
  split_and!.
  - apply alphabet_keys_spec, init_alphabet_keys.
  - intros letter lo hi Hb. rewrite init_letter_counts_stats in Hb.
    pose proof (find_min_max_letter_repeats_spec dictionary letter) as Hspec.
    case_decide as Hl;
      [|by destruct Hspec as [Hnone _]; rewrite Hnone in Hb].
    clear Hspec.
    destruct (find_min_max_attained dictionary letter Hl)
      as (mn & mx & Hmn & Hmx & Hall & Hlo & Hhi).
    rewrite Hmn, Hmx in Hb. simpl in Hb. simplify_eq.
    split_and!; [done| |].
    + intros ->. split.
      * destruct Hlo as [|(W & HW & _)]; [done|set_solver].
      * destruct Hhi as [|(W & HW & _)]; [done|set_solver].
    + intros Hne. split.
      * destruct Hhi as [->|(W & HW & ->)]; [|by exists W].
        apply set_choose_L in Hne as [W HW]. exists W. split; [done|].
        pose proof (Counter_nonneg W letter). specialize (Hall W HW). lia.
      * destruct Hlo as [->|(W & HW & ->)]; [by right|]. left. by exists W.
  - apply init_candidates_fit.
Qed.

Lemma init_bounds_are_dictionary_counts_witness :
  letter_counts (init 5 three_words) !! "e"%char = Some (1, 1) ∧
  letter_counts (init 5 three_words) !! "t"%char = Some (0, 1) ∧
  ∃ W, W ∈ three_words ∧ Counter W "t"%char = 0.
Proof.
  destruct (init_bounds_are_dictionary_counts 5 three_words)
    as (_ & Hbounds & _).
  assert (letter_counts (init 5 three_words) !! "t"%char = Some (0, 1)) as H.
  { vm_compute. reflexivity. }
  split_and!; [vm_compute; reflexivity|exact H|].
  destruct (Hbounds "t"%char 0 1 H) as (_ & _ & Hne).
  destruct Hne as [_ [Hlo|Hlo]].
  - apply (bool_decide_unpack _). vm_compute. exact I.
  - exact Hlo.
  - discriminate.
Defined.
